(** * ezCompiler: the four-stage compiler of [src/compiler.ts]

    A shallow embedding of the tokenizer, the parser, the transformer
    (traversal, visitor, context arrays) and the code generator, and the
    properties of the specification that hold (or fail) on them.

    Conventions of the embedding.
    - A JavaScript string is the list of its UTF-16 code units ([jsstring]);
      [js] turns an ASCII literal of this file into such a list.
    - A value that may be [undefined] (an index past the end of a string or
      of an array) is an [option]; [None] is [undefined].
    - Every [while] loop and every recursion that is not structural takes a
      fuel argument; running out of it is the outcome [OutOfFuel], distinct
      from returning and from throwing.  Strings are unbounded, as in the
      language definition: a loop that appends for ever runs for ever.  The
      limit an engine puts on the length of a string, which ends such a loop
      with a RangeError, is not part of the embedding: a run that is out of
      fuel whatever the fuel is a run that returns no value.
    - An exception is an [error]: [TypeError msg] for the program's own
      [throw new TypeError(msg)], [UndefinedRead p] for the TypeError the
      runtime raises when property [p] of [undefined] or [null] is read.
    - The arrays the transformer shares between nodes live in a [heap]; a
      target node holds the reference of its array, not a copy of it. *)

From Stdlib Require Import String Ascii List NArith Arith Lia Bool.
Import ListNotations.
Open Scope string_scope.
Open Scope list_scope.

(** ** Strings and values *)

Definition jsstring := list N.

Fixpoint js (s : string) : jsstring :=
  match s with
  | EmptyString => []
  | String a s' => N_of_ascii a :: js s'
  end.

Definition jseqb (a b : jsstring) : bool :=
  if list_eq_dec N.eq_dec a b then true else false.

(** [String(c)] for a character read by index: the one-unit string, or the
    text [undefined]. *)
Definition ToString (c : option N) : jsstring :=
  match c with
  | Some u => [u]
  | None => js "undefined"
  end.

(** [input[i]] *)
Definition char_at (input : jsstring) (i : nat) : option N := nth_error input i.
Arguments char_at : simpl never.

(** [a === b] for a character and a one-unit literal. *)
Definition char_is (c : option N) (u : N) : bool :=
  match c with
  | Some v => N.eqb v u
  | None => false
  end.

(** [a != b] on characters that may be undefined. *)
Definition loose_neq (a b : option N) : bool :=
  match a, b with
  | Some x, Some y => negb (N.eqb x y)
  | None, None => false
  | _, _ => true
  end.

Definition in_range (lo hi u : N) : bool := (N.leb lo u && N.leb u hi)%bool.

(** [/\s/]: the white space and line terminator code units. *)
Definition WHITESPACE (u : N) : bool :=
  (in_range 9 13 u || N.eqb u 32 || N.eqb u 160 || N.eqb u 5760
   || in_range 8192 8202 u || N.eqb u 8232 || N.eqb u 8233
   || N.eqb u 8239 || N.eqb u 8287 || N.eqb u 12288 || N.eqb u 65279)%bool%N.

(** [/[0-9]/] *)
Definition NUMBERS (u : N) : bool := in_range 48 57 u.

(** [/[A-Za-z]/] *)
Definition LETTERS (u : N) : bool := (in_range 65 90 u || in_range 97 122 u)%bool.

(** [re.test(c)] for a one-character class: the argument is converted to a
    string and the class is searched in it. *)
Definition regexp_test (class : N -> bool) (c : option N) : bool :=
  existsb class (ToString c).

Definition LPAREN : N := 40.
Definition RPAREN : N := 41.
Definition DQUOTE : N := 34.
Definition SQUOTE : N := 39.
Definition NEWLINE : N := 10.
Definition SEMICOLON : N := 59.

Definition is_paren (c : N) : bool := (N.eqb c LPAREN || N.eqb c RPAREN)%bool.

Definition is_quote (c : N) : bool := (N.eqb c DQUOTE || N.eqb c SQUOTE)%bool.

(** ** Outcomes *)

Inductive error : Type :=
| TypeError (message : jsstring)
| UndefinedRead (property : string).

Inductive outcome (A : Type) : Type :=
| Returns (a : A)
| Throws (e : error)
| OutOfFuel.

Arguments Returns {A} a.
Arguments Throws {A} e.
Arguments OutOfFuel {A}.

Definition bind {A B : Type} (c : outcome A) (k : A -> outcome B) : outcome B :=
  match c with
  | Returns a => k a
  | Throws e => Throws e
  | OutOfFuel => OutOfFuel
  end.

Notation "x <- c ;; k" := (bind c (fun x => k))
  (at level 61, c at next level, right associativity).
Notation "' p <- c ;; k" := (bind c (fun x => let 'p := x in k))
  (at level 61, p pattern, c at next level, right associativity).

(** ** Step 1: tokenizer *)

Record Token : Type := mkToken { type : string; value : jsstring }.

(** [while (NUMBERS.test(char)) { value += char; char = input[++curr]; }] *)
Fixpoint scan_number (fuel : nat) (input : jsstring) (curr : nat)
    (char : option N) (value : jsstring) : outcome (nat * jsstring) :=
  if regexp_test NUMBERS char then
    match fuel with
    | 0 => OutOfFuel
    | S fuel' =>
        scan_number fuel' input (S curr) (char_at input (S curr))
          (value ++ ToString char)
    end
  else Returns (curr, value).

(** [while (char != quote) { value += char; char = input[++curr]; }] *)
Fixpoint scan_string (fuel : nat) (input : jsstring) (curr : nat)
    (quote char : option N) (value : jsstring) : outcome (nat * jsstring) :=
  if loose_neq char quote then
    match fuel with
    | 0 => OutOfFuel
    | S fuel' =>
        scan_string fuel' input (S curr) quote (char_at input (S curr))
          (value ++ ToString char)
    end
  else Returns (curr, value).

(** [while (LETTERS.test(char)) { value += char; char = input[++curr]; }] *)
Fixpoint scan_name (fuel : nat) (input : jsstring) (curr : nat)
    (char : option N) (value : jsstring) : outcome (nat * jsstring) :=
  if regexp_test LETTERS char then
    match fuel with
    | 0 => OutOfFuel
    | S fuel' =>
        scan_name fuel' input (S curr) (char_at input (S curr))
          (value ++ ToString char)
    end
  else Returns (curr, value).

(** The main loop, [while (curr < input.length) { ... }]. *)
Fixpoint tokenizer_loop (fuel : nat) (input : jsstring) (curr : nat)
    (tokens : list Token) : outcome (list Token) :=
  match fuel with
  | 0 => OutOfFuel
  | S fuel' =>
      if (curr <? length input)%nat then
        let char := char_at input curr in
        if (char_is char LPAREN || char_is char RPAREN)%bool then
          tokenizer_loop fuel' input (S curr)
            (tokens ++ [mkToken "parenthesis" (ToString char)])
        else if regexp_test WHITESPACE char then
          tokenizer_loop fuel' input (S curr) tokens
        else if regexp_test NUMBERS char then
          '(curr', value) <- scan_number fuel' input curr char [] ;;
          tokenizer_loop fuel' input curr' (tokens ++ [mkToken "number" value])
        else if (char_is char DQUOTE || char_is char SQUOTE)%bool then
          let quote := char in
          '(curr', value) <-
             scan_string fuel' input (S curr) quote (char_at input (S curr)) [] ;;
          tokenizer_loop fuel' input (S curr') (tokens ++ [mkToken "string" value])
        else if regexp_test LETTERS char then
          '(curr', value) <- scan_name fuel' input curr char [] ;;
          tokenizer_loop fuel' input curr' (tokens ++ [mkToken "name" value])
        else Throws (TypeError (js "Syntax error : " ++ ToString char))
      else Returns tokens
  end.

Definition tokenizer (fuel : nat) (input : jsstring) : outcome (list Token) :=
  tokenizer_loop fuel input 0 [].

(** ** Step 2: parser *)

(** The four object shapes the parser builds.  [node_type] is the [type]
    string the parser writes in each; the traversal compares that string with
    string constants of its own, so it is kept as a string. *)
#[local] Unset Elimination Schemes.
Inductive ASTNode : Type :=
| Program (body : list ASTNode)
| NumberLiteral (value : jsstring)
| stringLiteral (value : jsstring)
| CallExpression (name : jsstring) (params : list ASTNode).
#[local] Set Elimination Schemes.

Definition node_type (node : ASTNode) : string :=
  match node with
  | Program _ => "Program"
  | NumberLiteral _ => "NumberLiteral"
  | stringLiteral _ => "stringLiteral"
  | CallExpression _ _ => "CallExpression"
  end.

(** [tokens[i]] *)
Definition token_at (tokens : list Token) (i : nat) : option Token :=
  nth_error tokens i.
Arguments token_at : simpl never.

(** [walk], with the cursor [curr] passed in and returned, and the [while]
    loop that collects the parameters of a call. *)
Fixpoint walk (fuel : nat) (tokens : list Token) (curr : nat)
    : outcome (ASTNode * nat) :=
  match fuel with
  | 0 => OutOfFuel
  | S fuel' =>
      match token_at tokens curr with
      | None => Throws (UndefinedRead "type")
      | Some token =>
          if (type token =? "number")%string then
            Returns (NumberLiteral (value token), S curr)
          else if (type token =? "string")%string then
            Returns (stringLiteral (value token), S curr)
          else if ((type token =? "parenthesis")%string
                   && jseqb (value token) [LPAREN])%bool then
            match token_at tokens (S curr) with
            | None => Throws (UndefinedRead "value")
            | Some token1 =>
                '(params, curr') <-
                   walk_params fuel' tokens (S (S curr))
                     (token_at tokens (S (S curr))) [] ;;
                Returns (CallExpression (value token1) params, S curr')
            end
          else Throws (TypeError (js (type token)))
      end
  end
with walk_params (fuel : nat) (tokens : list Token) (curr : nat)
    (token : option Token) (params : list ASTNode)
    : outcome (list ASTNode * nat) :=
  match fuel with
  | 0 => OutOfFuel
  | S fuel' =>
      match token with
      | None => Throws (UndefinedRead "type")
      | Some t =>
          if (negb (type t =? "parenthesis")%string
              || ((type t =? "parenthesis")%string
                  && negb (jseqb (value t) [RPAREN])))%bool then
            '(node, curr') <- walk fuel' tokens curr ;;
            walk_params fuel' tokens curr' (token_at tokens curr')
              (params ++ [node])
          else Returns (params, curr)
      end
  end.

(** [while (curr < tokens.length) { ast.body.push(walk()); }] *)
Fixpoint parser_loop (fuel : nat) (tokens : list Token) (curr : nat)
    (body : list ASTNode) : outcome ASTNode :=
  match fuel with
  | 0 => OutOfFuel
  | S fuel' =>
      if (curr <? length tokens)%nat then
        '(node, curr') <- walk fuel' tokens curr ;;
        parser_loop fuel' tokens curr' (body ++ [node])
      else Returns (Program body)
  end.

Definition parser (fuel : nat) (tokens : list Token) : outcome ASTNode :=
  parser_loop fuel tokens 0 [].

(** ** Step 3: transformer *)

(** References to the arrays of the new tree ([body], [arguments]), which the
    [_context] fields of the old tree alias. *)
Abbreviation ref := nat.

(** The nodes of the new tree; an array field holds a reference. *)
Inductive TNode : Type :=
| TProgram (body : ref)
| ExpressionStatement (expression : TNode)
| TCallExpression (callee : TNode) (arguments : ref)
| Identifier (name : jsstring)
| TNumberLiteral (value : jsstring)
| TStringLiteral (value : jsstring).

Record heap : Type := mkHeap { cells : ref -> list TNode; next : ref }.

Definition empty_heap : heap := mkHeap (fun _ => []) 0.

(** A fresh empty array, [[]]. *)
Definition alloc (h : heap) : ref * heap :=
  (next h,
   mkHeap (fun r => if (r =? next h)%nat then [] else cells h r) (S (next h))).

(** [array.push(x)] on the array at [r]. *)
Definition push (h : heap) (r : ref) (x : TNode) : heap :=
  mkHeap (fun r' => if (r' =? r)%nat then cells h r ++ [x] else cells h r')
         (next h).

(** What a handler reads of the parent object: its [type] and [_context]. *)
Record Parent : Type := mkParent { p_type : string; p_context : option ref }.

(** [parent?._context?.push(x)] *)
Definition push_parent (h : heap) (parent : option Parent) (x : TNode) : heap :=
  match parent with
  | Some p =>
      match p_context p with
      | Some r => push h r x
      | None => h
      end
  | None => h
  end.

(** The entries of the [visitor] object.  An [enter] handler gets the heap,
    the node and the parent, and gives back the heap and the node's
    [_context] field as it leaves them.  The key under which a handler is
    found is the node's own [type], so a handler only meets nodes of the shape
    it reads ([visitor_shape] below); the other branch of each is never
    taken. *)
Definition NumberLiteral_enter (h : heap) (node : ASTNode) (_context : option ref)
    (parent : option Parent) : outcome (heap * option ref) :=
  match node with
  | NumberLiteral value | stringLiteral value =>
      Returns (push_parent h parent (TNumberLiteral value), _context)
  | _ => Returns (h, _context)
  end.

Definition StringLiteral_enter (h : heap) (node : ASTNode) (_context : option ref)
    (parent : option Parent) : outcome (heap * option ref) :=
  match node with
  | NumberLiteral value | stringLiteral value =>
      Returns (push_parent h parent (TStringLiteral value), _context)
  | _ => Returns (h, _context)
  end.

Definition CallExpression_enter (h : heap) (node : ASTNode) (_context : option ref)
    (parent : option Parent) : outcome (heap * option ref) :=
  match node with
  | CallExpression name _ =>
      let '(arguments, h1) := alloc h in
      let expression := TCallExpression (Identifier name) arguments in
      (* node._context = expression.arguments *)
      match parent with
      | None => Throws (UndefinedRead "type")
      | Some p =>
          let expression' :=
            if negb (p_type p =? "CallExpression")%string
            then ExpressionStatement expression
            else expression in
          Returns (push_parent h1 parent expression', Some arguments)
      end
  | _ => Returns (h, _context)
  end.

Definition handler : Type :=
  heap -> ASTNode -> option ref -> option Parent -> outcome (heap * option ref).

(** [visitor[key]?.enter] *)
Definition visitor (key : string) : option handler :=
  if (key =? "NumberLiteral")%string then Some NumberLiteral_enter
  else if (key =? "StringLiteral")%string then Some StringLiteral_enter
  else if (key =? "CallExpression")%string then Some CallExpression_enter
  else None.

(** The cases of [switch (node.type)] in [nodeTraversal]. *)
Inductive switch_case : Type :=
| case_Program
| case_CallExpression
| case_Literal
| case_default.

Definition switch (t : string) : switch_case :=
  if (t =? "Program")%string then case_Program
  else if (t =? "CallExpression")%string then case_CallExpression
  else if (t =? "NumberLiteral")%string then case_Literal
  else if (t =? "StringLiteral")%string then case_Literal
  else case_default.

(** [nodeTraversal(node, parent)]; [_context] is the node's own [_context]
    field on entry (set by [transform] on the root, absent on every node the
    parser built).  No visitor entry has an [exit] method. *)
Fixpoint nodeTraversal (h : heap) (node : ASTNode) (_context : option ref)
    (parent : option Parent) {struct node} : outcome heap :=
  '(h1, context1) <-
     match visitor (node_type node) with
     | Some enter => enter h node _context parent
     | None => Returns (h, _context)
     end ;;
  let self := Some (mkParent (node_type node) context1) in
  let arrayTraversal :=
    fix arrayTraversal (h : heap) (arr : list ASTNode) : outcome heap :=
      match arr with
      | [] => Returns h
      | child :: rest =>
          h' <- nodeTraversal h child None self ;;
          arrayTraversal h' rest
      end in
  match switch (node_type node) with
  | case_Program =>
      match node with
      | Program body => arrayTraversal h1 body
      | _ => Throws (UndefinedRead "forEach")
      end
  | case_CallExpression =>
      match node with
      | CallExpression _ params => arrayTraversal h1 params
      | _ => Throws (UndefinedRead "forEach")
      end
  | case_Literal => Returns h1
  | case_default => Throws (TypeError (js (node_type node)))
  end.

(** [arr.forEach(child => nodeTraversal(child, parent))] *)
Fixpoint arrayTraversal (h : heap) (arr : list ASTNode) (parent : option Parent)
    : outcome heap :=
  match arr with
  | [] => Returns h
  | child :: rest =>
      h' <- nodeTraversal h child None parent ;;
      arrayTraversal h' rest parent
  end.

(** [transform]: the new root with an empty [body], aliased by the old
    root's [_context]; the result is the new root and the heap the traversal
    leaves. *)
Definition transform (ast : ASTNode) : outcome (heap * TNode) :=
  let '(body, h) := alloc empty_heap in
  let newAST := TProgram body in
  h' <- nodeTraversal h ast (Some body) None ;;
  Returns (h', newAST).

(** ** Step 4: code generator *)

(** [parts.join(sep)] *)
Fixpoint join (sep : jsstring) (parts : list jsstring) : jsstring :=
  match parts with
  | [] => []
  | [p] => p
  | p :: rest => p ++ sep ++ join sep rest
  end.

(** [arr.map(f)], stopping at the first element on which [f] does not return. *)
Fixpoint map_outcome {A B : Type} (f : A -> outcome B) (arr : list A)
    : outcome (list B) :=
  match arr with
  | [] => Returns []
  | x :: rest =>
      y <- f x ;;
      ys <- map_outcome f rest ;;
      Returns (y :: ys)
  end.

(** [codeGenerator]: the six cases of its [switch] are the six constructors
    of [TNode].  The recursion follows references, hence the fuel. *)
Fixpoint codeGenerator (fuel : nat) (h : heap) (node : TNode) : outcome jsstring :=
  match fuel with
  | 0 => OutOfFuel
  | S fuel' =>
      match node with
      | TProgram body =>
          lines <- map_outcome (codeGenerator fuel' h) (cells h body) ;;
          Returns (join [NEWLINE] lines)
      | ExpressionStatement expression =>
          code <- codeGenerator fuel' h expression ;;
          Returns (code ++ js ";")
      | TCallExpression callee arguments =>
          f <- codeGenerator fuel' h callee ;;
          args <- map_outcome (codeGenerator fuel' h) (cells h arguments) ;;
          Returns (f ++ js "(" ++ join (js ", ") args ++ js ")")
      | Identifier name => Returns name
      | TNumberLiteral value => Returns value
      | TStringLiteral value => Returns ([DQUOTE] ++ value ++ [DQUOTE])
      end
  end.

(** ** The compiler *)

Definition compile (fuel : nat) (input : jsstring) : outcome jsstring :=
  tokens <- tokenizer fuel input ;;
  ast <- parser fuel tokens ;;
  '(h, newAST) <- transform ast ;;
  codeGenerator fuel h newAST.

(** ** Outcomes of a run, whatever the fuel

    A settled outcome is a return or an exception.  [eventually f r]: from
    some amount of fuel on, the run [f] gives [r]. *)
Definition settled {A : Type} (r : outcome A) : Prop := r <> OutOfFuel.

Definition eventually {A : Type} (f : nat -> outcome A) (r : outcome A) : Prop :=
  exists n, forall fuel, n <= fuel -> f fuel = r.

Definition compile_returns (input output : jsstring) : Prop :=
  eventually (fun fuel => compile fuel input) (Returns output).

Definition compile_throws (input : jsstring) (e : error) : Prop :=
  eventually (fun fuel => compile fuel input) (Throws e).

Definition tokenizer_returns (input : jsstring) (tokens : list Token) : Prop :=
  eventually (fun fuel => tokenizer fuel input) (Returns tokens).

Definition tokenizer_throws (input : jsstring) (e : error) : Prop :=
  eventually (fun fuel => tokenizer fuel input) (Throws e).

(** The tokenizer never comes back, however much fuel it is given. *)
Definition tokenizer_diverges (input : jsstring) : Prop :=
  forall fuel, tokenizer fuel input = OutOfFuel.

Definition parser_returns (tokens : list Token) (ast : ASTNode) : Prop :=
  eventually (fun fuel => parser fuel tokens) (Returns ast).

Definition parser_throws (tokens : list Token) (e : error) : Prop :=
  eventually (fun fuel => parser fuel tokens) (Throws e).

(** ** The accepted surface grammar

    [program := expr*], [expr := number | string | call],
    [call := "(" name expr* ")"], as concrete syntax trees that also record
    the white space between the tokens, so that a tree has exactly one text.
    A gap may be empty wherever the next token still starts at a visible
    boundary. *)
Inductive sexpr : Type :=
| SNumber (digits : jsstring)
| SString (quote : N) (chars : jsstring)
| SCall (gap : jsstring) (name : jsstring) (args : sseq) (gap' : jsstring)
with sseq : Type :=
| SNil
| SCons (gap : jsstring) (e : sexpr) (rest : sseq).

Record program : Type := mkProgram { top : sseq; trailing : jsstring }.

(** The text of a tree. *)
Fixpoint text_expr (e : sexpr) : jsstring :=
  match e with
  | SNumber digits => digits
  | SString quote chars => [quote] ++ chars ++ [quote]
  | SCall gap name args gap' =>
      [LPAREN] ++ gap ++ name ++ text_seq args ++ gap' ++ [RPAREN]
  end
with text_seq (s : sseq) : jsstring :=
  match s with
  | SNil => []
  | SCons gap e rest => gap ++ text_expr e ++ text_seq rest
  end.

Definition text (p : program) : jsstring := text_seq (top p) ++ trailing p.

Fixpoint exprs (s : sseq) : list sexpr :=
  match s with
  | SNil => []
  | SCons _ e rest => e :: exprs rest
  end.

Definition is_number (e : sexpr) : bool :=
  match e with
  | SNumber _ => true
  | _ => false
  end.

Definition starts_digit (s : jsstring) : bool :=
  match s with
  | c :: _ => NUMBERS c
  | [] => false
  end.

Definition all (class : N -> bool) (s : jsstring) : Prop :=
  Forall (fun u => class u = true) s.

(** Well-formed trees: a number is a non-empty run of digits, a string is
    closed by the first later occurrence of its opening quote, a name is a
    non-empty run of letters, gaps are white space, and a number is not
    directly followed by a digit of the next expression. *)
Inductive wf_expr : sexpr -> Prop :=
| wf_SNumber digits :
    digits <> [] -> all NUMBERS digits -> wf_expr (SNumber digits)
| wf_SString quote chars :
    quote = DQUOTE \/ quote = SQUOTE -> ~ In quote chars ->
    wf_expr (SString quote chars)
| wf_SCall gap name args gap' :
    all WHITESPACE gap -> name <> [] -> all LETTERS name ->
    wf_seq args -> all WHITESPACE gap' ->
    wf_expr (SCall gap name args gap')
with wf_seq : sseq -> Prop :=
| wf_SNil : wf_seq SNil
| wf_SCons gap e rest :
    all WHITESPACE gap -> wf_expr e -> wf_seq rest ->
    (is_number e = true -> starts_digit (text_seq rest) = false) ->
    wf_seq (SCons gap e rest).

Definition wf_program (p : program) : Prop :=
  wf_seq (top p) /\ all WHITESPACE (trailing p).

Fixpoint has_string (e : sexpr) : bool :=
  match e with
  | SNumber _ => false
  | SString _ _ => true
  | SCall _ _ args _ => has_string_seq args
  end
with has_string_seq (s : sseq) : bool :=
  match s with
  | SNil => false
  | SCons _ e rest => (has_string e || has_string_seq rest)%bool
  end.

(** The tokens and the tree the specification assigns to a text. *)
Fixpoint tokens_expr (e : sexpr) : list Token :=
  match e with
  | SNumber digits => [mkToken "number" digits]
  | SString _ chars => [mkToken "string" chars]
  | SCall _ name args _ =>
      [mkToken "parenthesis" [LPAREN]; mkToken "name" name]
        ++ tokens_seq args ++ [mkToken "parenthesis" [RPAREN]]
  end
with tokens_seq (s : sseq) : list Token :=
  match s with
  | SNil => []
  | SCons _ e rest => tokens_expr e ++ tokens_seq rest
  end.

Fixpoint ast_expr (e : sexpr) : ASTNode :=
  match e with
  | SNumber digits => NumberLiteral digits
  | SString _ chars => stringLiteral chars
  | SCall _ name args _ => CallExpression name (ast_seq args)
  end
with ast_seq (s : sseq) : list ASTNode :=
  match s with
  | SNil => []
  | SCons _ e rest => ast_expr e :: ast_seq rest
  end.

(** The emitted text, in the words of the specification: a call is
    [name(arg, ...)], a number its digits, a string its characters between
    double quotes; a top-level call is followed by [;]; the statements are
    joined by newlines. *)
Fixpoint emit_expr (e : sexpr) : jsstring :=
  match e with
  | SNumber digits => digits
  | SString _ chars => [DQUOTE] ++ chars ++ [DQUOTE]
  | SCall _ name args _ =>
      name ++ js "(" ++ join (js ", ") (emit_seq args) ++ js ")"
  end
with emit_seq (s : sseq) : list jsstring :=
  match s with
  | SNil => []
  | SCons _ e rest => emit_expr e :: emit_seq rest
  end.

Definition emit_statement (e : sexpr) : jsstring :=
  match e with
  | SCall _ _ _ _ => emit_expr e ++ js ";"
  | _ => emit_expr e
  end.

Definition emit (p : program) : jsstring :=
  join [NEWLINE] (map emit_statement (exprs (top p))).

(** The lines of a text: the pieces between newline characters. *)
Fixpoint lines_from (current : jsstring) (s : jsstring) : list jsstring :=
  match s with
  | [] => [current]
  | c :: rest =>
      if N.eqb c NEWLINE then current :: lines_from [] rest
      else lines_from (current ++ [c]) rest
  end.

Definition lines (s : jsstring) : list jsstring := lines_from [] s.

Scheme sexpr_sseq_ind := Induction for sexpr Sort Prop
  with sseq_sexpr_ind := Induction for sseq Sort Prop.
Combined Scheme syntax_ind from sexpr_sseq_ind, sseq_sexpr_ind.

Scheme wf_expr_seq_ind := Minimality for wf_expr Sort Prop
  with wf_seq_expr_ind := Minimality for wf_seq Sort Prop.
Combined Scheme wf_ind from wf_expr_seq_ind, wf_seq_expr_ind.

(** ** Auxiliary notions for the proofs *)

(** The text [k] starts with a character that is not a letter. *)
Definition starts_nonletter (k : jsstring) : Prop :=
  exists c k', k = c :: k' /\ LETTERS c = false.

(** From position [curr] and with [tokens] collected so far, the main loop
    of the tokenizer returns [result]. *)
Definition lexes (input : jsstring) (curr : nat) (tokens result : list Token)
    : Prop :=
  exists fuel, tokenizer_loop fuel input curr tokens = Returns result.

(** The generator, given enough fuel, renders [node] in heap [h] as [out]. *)
Definition gen (h : heap) (node : TNode) (out : jsstring) : Prop :=
  exists fuel, codeGenerator fuel h node = Returns out.

(** [h'] has the arrays of [h] at the references from [lo] up to [hi]. *)
Definition agree (lo hi : ref) (h h' : heap) : Prop :=
  forall r, lo <= r < hi -> cells h' r = cells h r.

(** The rendering of [node] only depends on the arrays of [h] from [lo] up
    to [hi]. *)
Definition stable (lo hi : ref) (h : heap) (node : TNode) (out : jsstring) : Prop :=
  forall h', agree lo hi h h' -> gen h' node out.

(** The text emitted for an expression whose parent has type [p_type]: a
    call is a statement unless its parent is a call. *)
Definition emit_in (p_type : string) (e : sexpr) : jsstring :=
  match e with
  | SCall _ _ _ _ =>
      if negb (p_type =? "CallExpression")%string
      then emit_expr e ++ js ";"
      else emit_expr e
  | _ => emit_expr e
  end.

(** The well-formedness of a tree, as a check. *)
Definition is_nil {A : Type} (l : list A) : bool :=
  match l with
  | [] => true
  | _ => false
  end.

Fixpoint wf_exprb (e : sexpr) : bool :=
  match e with
  | SNumber digits => negb (is_nil digits) && forallb NUMBERS digits
  | SString quote chars =>
      (N.eqb quote DQUOTE || N.eqb quote SQUOTE)
      && negb (existsb (N.eqb quote) chars)
  | SCall gap name args gap' =>
      forallb WHITESPACE gap && negb (is_nil name) && forallb LETTERS name
      && wf_seqb args && forallb WHITESPACE gap'
  end%bool
with wf_seqb (s : sseq) : bool :=
  match s with
  | SNil => true
  | SCons gap e rest =>
      forallb WHITESPACE gap && wf_exprb e && wf_seqb rest
      && (negb (is_number e) || negb (starts_digit (text_seq rest)))
  end%bool.

Definition wf_programb (p : program) : bool :=
  (wf_seqb (top p) && forallb WHITESPACE (trailing p))%bool.

(** A string between double quotes. *)
Definition quoted (s : jsstring) : jsstring := [DQUOTE] ++ s ++ [DQUOTE].

(** Every quote character met outside a string has a later occurrence of the
    same character, which closes the string; [opened] is the quote of the
    string the scan is in, if any. *)
Fixpoint quotes_matched_from (opened : option N) (s : jsstring) : bool :=
  match s with
  | [] =>
      match opened with
      | None => true
      | Some _ => false
      end
  | c :: rest =>
      match opened with
      | Some quote =>
          if N.eqb c quote then quotes_matched_from None rest
          else quotes_matched_from opened rest
      | None =>
          if is_quote c then quotes_matched_from (Some c) rest
          else quotes_matched_from None rest
      end
  end.

Definition quotes_matched (s : jsstring) : bool := quotes_matched_from None s.

(** The error comes from a [throw] statement of the program, not from the
    runtime. *)
Definition thrown_by_program (e : error) : Prop :=
  exists message, e = TypeError message.

(** Sample programs: [(add 2 (subtract 4 2))], [(a 1) (b 2)],
    [(add 007 12345678901234567890)] and [(concat "foo" "bar")]. *)
Definition nested_sample : program :=
  mkProgram
    (SCons [] (SCall [] (js "add")
                 (SCons (js " ") (SNumber (js "2"))
                    (SCons (js " ")
                       (SCall [] (js "subtract")
                          (SCons (js " ") (SNumber (js "4"))
                             (SCons (js " ") (SNumber (js "2")) SNil)) [])
                       SNil)) [])
       SNil) [].

Definition two_calls_sample : program :=
  mkProgram
    (SCons [] (SCall [] (js "a") (SCons (js " ") (SNumber (js "1")) SNil) [])
       (SCons (js " ")
          (SCall [] (js "b") (SCons (js " ") (SNumber (js "2")) SNil) [])
          SNil)) [].

Definition concat_sample : program :=
  mkProgram
    (SCons [] (SCall [] (js "concat")
                 (SCons (js " ") (SString DQUOTE (js "foo"))
                    (SCons (js " ") (SString DQUOTE (js "bar")) SNil))
                 [])
       SNil) [].

Definition digits_sample : program :=
  mkProgram
    (SCons [] (SCall [] (js "add")
                 (SCons (js " ") (SNumber (js "007"))
                    (SCons (js " ") (SNumber (js "12345678901234567890")) SNil))
                 [])
       SNil) [].

(** ** What the tokenizer does on an arbitrary input

    [scan_verdict] reads the input once, character by character, and tells
    how the tokenizer ends on it: with the tokens, at a character it rejects,
    inside a string that is never closed, or on a name that touches the end
    of the input.  [opened] is the quote of the string the scan is in. *)
Inductive verdict : Type :=
| Lexes
| BadChar (c : N)
| OpenString
| OpenName.

Fixpoint scan_verdict (opened : option N) (s : jsstring) : verdict :=
  match s with
  | [] =>
      match opened with
      | None => Lexes
      | Some _ => OpenString
      end
  | c :: rest =>
      match opened with
      | Some quote =>
          if N.eqb c quote then scan_verdict None rest
          else scan_verdict opened rest
      | None =>
          if (is_paren c || WHITESPACE c || NUMBERS c)%bool
          then scan_verdict None rest
          else if is_quote c then scan_verdict (Some c) rest
          else if LETTERS c then
            match rest with
            | [] => OpenName
            | _ => scan_verdict None rest
            end
          else BadChar c
      end
  end.

(** The run of the main loop from a position. *)
Definition loop_from (input : jsstring) (curr : nat) (tokens : list Token)
    (fuel : nat) : outcome (list Token) :=
  tokenizer_loop fuel input curr tokens.

(** The main loop, started at [curr] with [tokens], ends as [v] says. *)
Definition behaves (input : jsstring) (curr : nat) (tokens : list Token)
    (v : verdict) : Prop :=
  match v with
  | Lexes => exists result, eventually (loop_from input curr tokens) (Returns result)
  | BadChar c =>
      eventually (loop_from input curr tokens)
        (Throws (TypeError (js "Syntax error : " ++ [c])))
  | OpenString | OpenName => forall fuel, loop_from input curr tokens fuel = OutOfFuel
  end.

(** One turn of the main loop takes the state [(curr, tokens)] to
    [(curr', tokens')]: it does so on any fuel that suffices for the inner
    loop of the turn, and runs out of fuel otherwise. *)
Definition token_step (input : jsstring) (curr : nat) (tokens : list Token)
    (curr' : nat) (tokens' : list Token) : Prop :=
  (exists n, forall fuel, n <= fuel ->
      tokenizer_loop (S fuel) input curr tokens
      = tokenizer_loop fuel input curr' tokens')
  /\ (forall fuel,
        tokenizer_loop (S fuel) input curr tokens = OutOfFuel
        \/ tokenizer_loop (S fuel) input curr tokens
           = tokenizer_loop fuel input curr' tokens').

(** ** The tokens and the errors of the front end *)

(** What the tokenizer puts in a token of each type. *)
Definition token_ok (t : Token) : Prop :=
  (type t = "parenthesis" /\ (value t = [LPAREN] \/ value t = [RPAREN]))
  \/ (type t = "number" /\ value t <> [] /\ all NUMBERS (value t))
  \/ type t = "string"
  \/ (type t = "name" /\ value t <> [] /\ all LETTERS (value t)).

(** Where the value of a token comes from: it is a piece of the input; for a
    string token, the piece between two occurrences of one quote character,
    which does not occur in it. *)
Definition token_in (input : jsstring) (t : Token) : Prop :=
  exists pre post,
    (type t = "string"
     /\ exists quote,
          is_quote quote = true /\ ~ In quote (value t)
          /\ input = pre ++ [quote] ++ value t ++ [quote] ++ post)
    \/ (type t <> "string" /\ input = pre ++ value t ++ post).

(** The errors the parser can end with on [tokens]: a read of [type] or
    [value] on a token past the end, or its own TypeError, whose message is
    the type of one of the tokens, a type that is neither [number] nor
    [string]. *)
Definition parser_error (tokens : list Token) (e : error) : Prop :=
  e = UndefinedRead "type" \/ e = UndefinedRead "value"
  \/ exists t,
       In t tokens /\ type t <> "number" /\ type t <> "string"
       /\ e = TypeError (js (type t)).

(** What [walk] leaves when started at [curr]: a node that is the tree of
    an expression and a cursor that has moved on, or an error of the
    parser. *)
Definition walk_post (tokens : list Token) (curr : nat)
    (r : outcome (ASTNode * nat)) : Prop :=
  match r with
  | Returns (node, curr') =>
      curr < curr' <= length tokens /\ exists e, node = ast_expr e
  | Throws e => parser_error tokens e
  | OutOfFuel => False
  end.

(** The same for the loop on the parameters of a call, which stops on a
    closing parenthesis inside the tokens. *)
Definition params_post (tokens : list Token) (curr : nat) (params : list ASTNode)
    (r : outcome (list ASTNode * nat)) : Prop :=
  match r with
  | Returns (params', curr') =>
      curr <= curr' < length tokens /\ exists s, params' = params ++ ast_seq s
  | Throws e => parser_error tokens e
  | OutOfFuel => False
  end.

Definition compile_diverges (input : jsstring) : Prop :=
  forall fuel, compile fuel input = OutOfFuel.

(** Two layouts of one program, [(add 'x' (f) 12)]: with single quotes and
    free white space, and with double quotes and no space that can be left
    out. *)
Definition loose_sample : program :=
  mkProgram
    (SCons (js "  ")
       (SCall (js " ") (js "add")
          (SCons [] (SString SQUOTE (js "x"))
             (SCons [9%N] (SCall [] (js "f") SNil (js " "))
                (SCons [NEWLINE] (SNumber (js "12")) SNil)))
          [])
       SNil) (js " ").

Definition tight_sample : program :=
  mkProgram
    (SCons []
       (SCall [] (js "add")
          (SCons [] (SString DQUOTE (js "x"))
             (SCons [] (SCall [] (js "f") SNil [])
                (SCons [] (SNumber (js "12")) SNil)))
          [])
       SNil) [].

(** A loose layout of [(add 2 (subtract 4 2))]: spaces inside the
    parentheses, a tab between the arguments, a final newline. *)
Definition loose_nested_sample : program :=
  mkProgram
    (SCons []
       (SCall (js " ") (js "add")
          (SCons (js " ") (SNumber (js "2"))
             (SCons [9%N]
                (SCall [] (js "subtract")
                   (SCons (js " ") (SNumber (js "4"))
                      (SCons (js " ") (SNumber (js "2")) SNil)) [])
                SNil))
          (js " "))
       SNil) [NEWLINE].

(** ** Calls that are left open

    The text of calls that are opened one inside the other and not closed:
    [( name expr*] followed, inside it, by the next one. *)
Inductive opened : Type :=
| OLast (gap name : jsstring) (args : sseq)
| ONest (gap name : jsstring) (args : sseq) (gap' : jsstring) (inner : opened).

Fixpoint text_opened (o : opened) : jsstring :=
  match o with
  | OLast gap name args => [LPAREN] ++ gap ++ name ++ text_seq args
  | ONest gap name args gap' inner =>
      [LPAREN] ++ gap ++ name ++ text_seq args ++ gap' ++ text_opened inner
  end.

Fixpoint tokens_opened (o : opened) : list Token :=
  match o with
  | OLast _ name args =>
      [mkToken "parenthesis" [LPAREN]; mkToken "name" name] ++ tokens_seq args
  | ONest _ name args _ inner =>
      [mkToken "parenthesis" [LPAREN]; mkToken "name" name]
        ++ tokens_seq args ++ tokens_opened inner
  end.

(** The arguments already written in the innermost open call. *)
Fixpoint last_args (o : opened) : sseq :=
  match o with
  | OLast _ _ args => args
  | ONest _ _ _ _ inner => last_args inner
  end.

Fixpoint wf_opened (o : opened) : Prop :=
  match o with
  | OLast gap name args =>
      all WHITESPACE gap /\ name <> [] /\ all LETTERS name /\ wf_seq args
  | ONest gap name args gap' inner =>
      all WHITESPACE gap /\ name <> [] /\ all LETTERS name /\ wf_seq args
      /\ all WHITESPACE gap' /\ wf_opened inner
  end.

(** [(a 1 (b], and [(add x 2)] cut before and after the name [x]. *)
Definition open_sample : opened :=
  ONest [] (js "a") (SCons (js " ") (SNumber (js "1")) SNil) (js " ")
    (OLast [] (js "b") SNil).

Definition open_add : opened := OLast [] (js "add") SNil.

(** What may stand between the complete top-level expressions and a stray
    name: nothing, or calls left open and a gap. *)
Definition open_text (ctx : option (opened * jsstring)) : jsstring :=
  match ctx with
  | Some (o, gap) => text_opened o ++ gap
  | None => []
  end.

Definition wf_open_ctx (ctx : option (opened * jsstring)) : Prop :=
  match ctx with
  | Some (o, gap) =>
      wf_opened o /\ all WHITESPACE gap /\ (last_args o = SNil -> gap <> [])
  | None => True
  end.

(** ** The characters of the output *)

(** The characters the generator can emit for a program without strings:
    digits, letters, the punctuation of a call and of a statement, and the
    newline between statements. *)
Definition output_char (c : N) : bool :=
  (NUMBERS c || LETTERS c || existsb (N.eqb c) (js "(, );") || N.eqb c NEWLINE)%bool.

(** The characters the tokenizer accepts outside strings, quotes apart. *)
Definition plain_char (c : N) : bool :=
  (is_paren c || WHITESPACE c || NUMBERS c || LETTERS c)%bool.

Definition is_call (e : sexpr) : bool :=
  match e with
  | SCall _ _ _ _ => true
  | _ => false
  end.

(** ** The shape of the new tree

    [repr_expr h e node]: in heap [h], [node] is the new node of expression
    [e], its [arguments] array holding the new nodes of the arguments of [e]
    in order.  In [repr_seq h top s nodes], the nodes of the calls are wrapped
    in an [ExpressionStatement] when [top] is set. *)
Fixpoint repr_expr (h : heap) (e : sexpr) (node : TNode) {struct e} : Prop :=
  match e with
  | SNumber digits => node = TNumberLiteral digits
  | SString _ chars => node = TStringLiteral chars
  | SCall _ name args _ =>
      exists arguments,
        node = TCallExpression (Identifier name) arguments
        /\ repr_seq h false args (cells h arguments)
  end
with repr_seq (h : heap) (top : bool) (s : sseq) (nodes : list TNode)
    {struct s} : Prop :=
  match s with
  | SNil => nodes = []
  | SCons _ e rest =>
      exists node nodes',
        nodes = node :: nodes'
        /\ (if (top && is_call e)%bool
            then exists call, node = ExpressionStatement call /\ repr_expr h e call
            else repr_expr h e node)
        /\ repr_seq h top rest nodes'
  end.

(** The new node of [e] under a parent of type [p_type]. *)
Definition repr_in (h : heap) (p_type : string) (e : sexpr) (node : TNode) : Prop :=
  if (negb (p_type =? "CallExpression")%string && is_call e)%bool
  then exists call, node = ExpressionStatement call /\ repr_expr h e call
  else repr_expr h e node.

(** The text of an expression as a statement ([top]) or as an argument. *)
Definition emit_top (top : bool) (e : sexpr) : jsstring :=
  if (top && is_call e)%bool then emit_expr e ++ js ";" else emit_expr e.

(** The heap and the new tree of [(concat 'foo' "bar")], as the shape of
    the program gives them. *)
Definition concat_heap : heap :=
  mkHeap
    (fun r =>
       match r with
       | 0 => [ExpressionStatement (TCallExpression (Identifier (js "concat")) 1)]
       | 1 => [TStringLiteral (js "foo"); TStringLiteral (js "bar")]
       | _ => []
       end)
    2.

Definition mixed_quotes_sample : sseq :=
  SCons [] (SCall [] (js "concat")
              (SCons (js " ") (SString SQUOTE (js "foo"))
                 (SCons (js " ") (SString DQUOTE (js "bar")) SNil))
              [])
    SNil.

(** The lines of numbers as a program: the first number at the start, each
    of the others after a newline. *)
Fixpoint number_lines (first : bool) (numbers : list jsstring) : sseq :=
  match numbers with
  | [] => SNil
  | digits :: rest =>
      SCons (if first then [] else [NEWLINE]) (SNumber digits)
        (number_lines false rest)
  end.

(** [12  7] and a newline: two numbers at top level. *)
Definition numbers_sample : program :=
  mkProgram
    (SCons [] (SNumber (js "12")) (SCons (js "  ") (SNumber (js "7")) SNil))
    [NEWLINE].

(** * Properties *)

(** ** More fuel does not change a settled outcome *)

Lemma scan_number_mono n :
  forall m input curr char value r,
    scan_number n input curr char value = r -> settled r -> n <= m ->
    scan_number m input curr char value = r.
Proof.
  induction n as [|n IH]; intros m input curr char value r H Hr Hle;
    destruct m as [|m]; simpl in *;
    destruct (regexp_test NUMBERS char); auto; try lia; try congruence.
  apply IH; auto; lia.
Qed.

Lemma scan_string_mono n :
  forall m input curr quote char value r,
    scan_string n input curr quote char value = r -> settled r -> n <= m ->
    scan_string m input curr quote char value = r.
Proof.
  induction n as [|n IH]; intros m input curr quote char value r H Hr Hle;
    destruct m as [|m]; simpl in *;
    destruct (loose_neq char quote); auto; try lia; try congruence.
  apply IH; auto; lia.
Qed.

Lemma scan_name_mono n :
  forall m input curr char value r,
    scan_name n input curr char value = r -> settled r -> n <= m ->
    scan_name m input curr char value = r.
Proof.
  induction n as [|n IH]; intros m input curr char value r H Hr Hle;
    destruct m as [|m]; simpl in *;
    destruct (regexp_test LETTERS char); auto; try lia; try congruence.
  apply IH; auto; lia.
Qed.

(** A settled [bind] has a settled first part. *)
Lemma bind_settled {A B : Type} (c : outcome A) (k : A -> outcome B) r :
  bind c k = r -> settled r -> settled c.
Proof. destruct c; simpl; unfold settled; congruence. Qed.

(** The first part of a settled [bind] is replaced by its run on more fuel,
    by the monotonicity lemma [lem] of that part. *)
Ltac mono_bind lem :=
  match goal with
  | H : bind ?c ?k = ?r, Hr : settled ?r |- bind ?c' ?k' = ?r =>
      let E := fresh "E" in
      let Hs := fresh "Hs" in
      pose proof (bind_settled _ _ _ H Hr) as Hs;
      destruct c eqn:E; [ | | exfalso; apply Hs; reflexivity ];
      (eapply lem in E;
       [ rewrite E | unfold settled; congruence | ]; [ | lia ]);
      simpl in *; auto
  end.

Lemma tokenizer_loop_mono n :
  forall m input curr tokens r,
    tokenizer_loop n input curr tokens = r -> settled r -> n <= m ->
    tokenizer_loop m input curr tokens = r.
Proof.
  induction n as [|n IH]; intros m input curr tokens r H Hr Hle.
  - simpl in H. subst r. exfalso. apply Hr. reflexivity.
  - destruct m as [|m]; [lia|]. simpl in *.
    destruct (curr <? length input)%nat; auto.
    destruct (char_is (char_at input curr) LPAREN || char_is (char_at input curr) RPAREN)%bool.
    { apply IH; auto; lia. }
    destruct (regexp_test WHITESPACE (char_at input curr)).
    { apply IH; auto; lia. }
    destruct (regexp_test NUMBERS (char_at input curr)).
    { mono_bind scan_number_mono. destruct a. apply IH; auto; lia. }
    destruct (char_is (char_at input curr) DQUOTE || char_is (char_at input curr) SQUOTE)%bool.
    { mono_bind scan_string_mono. destruct a. apply IH; auto; lia. }
    destruct (regexp_test LETTERS (char_at input curr)); auto.
    mono_bind scan_name_mono. destruct a. apply IH; auto; lia.
Qed.

Lemma tokenizer_mono n m input r :
  tokenizer n input = r -> settled r -> n <= m -> tokenizer m input = r.
Proof. unfold tokenizer. apply tokenizer_loop_mono. Qed.

Lemma walk_mono n :
  (forall m tokens curr r,
      walk n tokens curr = r -> settled r -> n <= m -> walk m tokens curr = r)
  /\ (forall m tokens curr token params r,
        walk_params n tokens curr token params = r -> settled r -> n <= m ->
        walk_params m tokens curr token params = r).
Proof.
  induction n as [|n [IHw IHp]]; split; intros.
  - simpl in *. subst. exfalso. apply H0. reflexivity.
  - simpl in *. subst. exfalso. apply H0. reflexivity.
  - destruct m as [|m]; [lia|]. simpl in *.
    destruct (token_at tokens curr) as [token|]; auto.
    destruct (type token =? "number")%string; auto.
    destruct (type token =? "string")%string; auto.
    destruct ((type token =? "parenthesis")%string && jseqb (value token) [LPAREN])%bool; auto.
    destruct (token_at tokens (S curr)) as [token1|]; auto.
    mono_bind IHp.
  - destruct m as [|m]; [lia|]. simpl in *.
    destruct token as [t|]; auto.
    destruct (negb (type t =? "parenthesis")%string
              || (type t =? "parenthesis")%string && negb (jseqb (value t) [RPAREN]))%bool; auto.
    mono_bind IHw. destruct a. apply IHp; auto; lia.
Qed.

Lemma parser_loop_mono n :
  forall m tokens curr body r,
    parser_loop n tokens curr body = r -> settled r -> n <= m ->
    parser_loop m tokens curr body = r.
Proof.
  induction n as [|n IH]; intros m tokens curr body r H Hr Hle.
  - simpl in H. subst r. exfalso. apply Hr. reflexivity.
  - destruct m as [|m]; [lia|]. simpl in *.
    destruct (curr <? length tokens)%nat; auto.
    pose proof (proj1 (walk_mono n)) as Hw.
    mono_bind Hw. destruct a. apply IH; auto; lia.
Qed.

Lemma parser_mono n m tokens r :
  parser n tokens = r -> settled r -> n <= m -> parser m tokens = r.
Proof. unfold parser. apply parser_loop_mono. Qed.

Lemma map_outcome_mono {A B : Type} (f g : A -> outcome B) :
  (forall x r, f x = r -> settled r -> g x = r) ->
  forall arr r, map_outcome f arr = r -> settled r -> map_outcome g arr = r.
Proof.
  intros Hfg. induction arr as [|x rest IH]; intros r H Hr; simpl in *; auto.
  pose proof (bind_settled _ _ _ H Hr) as Hs.
  destruct (f x) eqn:E; [ | | exfalso; apply Hs; reflexivity ];
    (rewrite (Hfg _ _ E) by (unfold settled; congruence)); simpl in *; auto.
  pose proof (bind_settled _ _ _ H Hr) as Hs'.
  destruct (map_outcome f rest) eqn:E'; [ | | exfalso; apply Hs'; reflexivity ];
    (rewrite (IH _ eq_refl) by (unfold settled; congruence)); simpl in *; auto.
Qed.

Lemma codeGenerator_mono n :
  forall m h node r,
    codeGenerator n h node = r -> settled r -> n <= m ->
    codeGenerator m h node = r.
Proof.
  induction n as [|n IH]; intros m h node r H Hr Hle.
  - simpl in H. subst r. exfalso. apply Hr. reflexivity.
  - destruct m as [|m]; [lia|].
    assert (Hstep : forall x r, codeGenerator n h x = r -> settled r ->
                                codeGenerator m h x = r)
      by (intros; apply IH; auto; lia).
    pose proof (map_outcome_mono _ _ Hstep) as Hmap.
    simpl in *. destruct node; auto.
    + pose proof (bind_settled _ _ _ H Hr) as Hs.
      destruct (map_outcome (codeGenerator n h) (cells h body)) eqn:E;
        [ | | exfalso; apply Hs; reflexivity ];
        (rewrite (Hmap _ _ E) by (unfold settled; congruence)); auto.
    + pose proof (bind_settled _ _ _ H Hr) as Hs.
      destruct (codeGenerator n h node) eqn:E;
        [ | | exfalso; apply Hs; reflexivity ];
        (rewrite (Hstep _ _ E) by (unfold settled; congruence)); auto.
    + pose proof (bind_settled _ _ _ H Hr) as Hs.
      destruct (codeGenerator n h node) eqn:E;
        [ | | exfalso; apply Hs; reflexivity ];
        (rewrite (Hstep _ _ E) by (unfold settled; congruence)); auto.
      simpl in *.
      pose proof (bind_settled _ _ _ H Hr) as Hs'.
      destruct (map_outcome (codeGenerator n h) (cells h arguments)) eqn:E';
        [ | | exfalso; apply Hs'; reflexivity ];
        (rewrite (Hmap _ _ E') by (unfold settled; congruence)); auto.
Qed.

(** The whole compiler: once a run has settled, every run on more fuel gives
    the same outcome. *)
Lemma compile_mono n m input r :
  compile n input = r -> settled r -> n <= m -> compile m input = r.
Proof.
  unfold compile. intros H Hr Hle.
  pose proof (bind_settled _ _ _ H Hr) as Hs.
  destruct (tokenizer n input) as [tokens| |] eqn:E;
    [ | | exfalso; apply Hs; reflexivity ];
    (rewrite (tokenizer_mono _ _ _ _ E) by (auto; unfold settled; congruence));
    simpl in *; auto.
  pose proof (bind_settled _ _ _ H Hr) as Hs'.
  destruct (parser n tokens) as [ast| |] eqn:E';
    [ | | exfalso; apply Hs'; reflexivity ];
    (rewrite (parser_mono _ _ _ _ E') by (auto; unfold settled; congruence));
    simpl in *; auto.
  destruct (transform ast) as [[h newAST]| |]; simpl in *; auto.
  apply codeGenerator_mono with (n := n); auto.
Qed.

(** A run that has settled on some fuel settles the outcome for good. *)
Lemma eventually_at {A : Type} (f : nat -> outcome A) n r :
  (forall n m r, f n = r -> settled r -> n <= m -> f m = r) ->
  f n = r -> settled r -> eventually f r.
Proof. intros Hmono H Hr. exists n. intros fuel Hle. eapply Hmono; eauto. Qed.

Lemma eventually_unique {A : Type} (f : nat -> outcome A) r1 r2 :
  eventually f r1 -> eventually f r2 -> r1 = r2.
Proof.
  intros [n1 H1] [n2 H2].
  rewrite <- (H1 (Nat.max n1 n2)) by lia. apply H2. lia.
Qed.

Lemma compile_returns_at n input output :
  compile n input = Returns output -> compile_returns input output.
Proof.
  intros H. apply eventually_at with (n := n); auto.
  - intros. eapply compile_mono; eauto.
  - unfold settled. congruence.
Qed.

Lemma compile_throws_at n input e :
  compile n input = Throws e -> compile_throws input e.
Proof.
  intros H. apply eventually_at with (n := n); auto.
  - intros. eapply compile_mono; eauto.
  - unfold settled. congruence.
Qed.

Lemma tokenizer_returns_at n input tokens :
  tokenizer n input = Returns tokens -> tokenizer_returns input tokens.
Proof.
  intros H. apply eventually_at with (n := n); auto.
  - intros. eapply tokenizer_mono; eauto.
  - unfold settled. congruence.
Qed.

Lemma parser_returns_at n tokens ast :
  parser n tokens = Returns ast -> parser_returns tokens ast.
Proof.
  intros H. apply eventually_at with (n := n); auto.
  - intros. eapply parser_mono; eauto.
  - unfold settled. congruence.
Qed.

Lemma parser_throws_at n tokens e :
  parser n tokens = Throws e -> parser_throws tokens e.
Proof.
  intros H. apply eventually_at with (n := n); auto.
  - intros. eapply parser_mono; eauto.
  - unfold settled. congruence.
Qed.

(** ** Character classes *)

Lemma in_range_spec lo hi u :
  in_range lo hi u = true <-> (lo <= u /\ u <= hi)%N.
Proof.
  unfold in_range. rewrite andb_true_iff, !N.leb_le. tauto.
Qed.

Lemma NUMBERS_spec u : NUMBERS u = true <-> (48 <= u /\ u <= 57)%N.
Proof. apply in_range_spec. Qed.

Lemma LETTERS_spec u :
  LETTERS u = true <-> ((65 <= u /\ u <= 90) \/ (97 <= u /\ u <= 122))%N.
Proof.
  unfold LETTERS. rewrite orb_true_iff, !in_range_spec. tauto.
Qed.

Lemma WHITESPACE_spec u :
  WHITESPACE u = true <->
  ((9 <= u /\ u <= 13) \/ u = 32 \/ u = 160 \/ u = 5760
   \/ (8192 <= u /\ u <= 8202) \/ u = 8232 \/ u = 8233 \/ u = 8239
   \/ u = 8287 \/ u = 12288 \/ u = 65279)%N.
Proof.
  unfold WHITESPACE.
  rewrite !orb_true_iff, !in_range_spec, !N.eqb_eq. tauto.
Qed.

(** Decide a fact about the class of a code unit by arithmetic. *)
Ltac class_facts :=
  repeat match goal with
    | H : NUMBERS _ = true |- _ => apply NUMBERS_spec in H
    | H : LETTERS _ = true |- _ => apply LETTERS_spec in H
    | H : WHITESPACE _ = true |- _ => apply WHITESPACE_spec in H
    end.

Ltac class_false :=
  match goal with
  | |- ?b = false =>
      let E := fresh "E" in
      destruct b eqn:E; [ exfalso | reflexivity ];
      unfold char_is, LPAREN, RPAREN, DQUOTE, SQUOTE in *;
      try rewrite orb_true_iff in E;
      try rewrite !N.eqb_eq in E;
      class_facts; lia
  end.

Lemma regexp_test_some class u : regexp_test class (Some u) = class u.
Proof. unfold regexp_test. simpl. apply orb_false_r. Qed.

Lemma char_at_middle pre c k : char_at (pre ++ c :: k) (length pre) = Some c.
Proof.
  unfold char_at. rewrite nth_error_app2 by lia.
  rewrite Nat.sub_diag. reflexivity.
Qed.

Lemma char_at_end pre : char_at pre (length pre) = None.
Proof. unfold char_at. apply nth_error_None. lia. Qed.

Lemma in_bounds {A : Type} (pre : list A) c k :
  (length pre <? length (pre ++ c :: k))%nat = true.
Proof. apply Nat.ltb_lt. rewrite length_app. simpl. lia. Qed.

Lemma length_snoc {A : Type} (pre : list A) c : length (pre ++ [c]) = S (length pre).
Proof. rewrite length_app. simpl. lia. Qed.

Lemma snoc_app {A : Type} (pre : list A) c k : pre ++ c :: k = (pre ++ [c]) ++ k.
Proof. rewrite <- app_assoc. reflexivity. Qed.

(** ** The inner loops of the tokenizer on a run of their class *)

Lemma scan_number_run ds :
  forall pre k value,
    all NUMBERS ds -> starts_digit k = false ->
    scan_number (length ds) (pre ++ ds ++ k) (length pre)
      (char_at (pre ++ ds ++ k) (length pre)) value
    = Returns (length (pre ++ ds), value ++ ds).
Proof.
  induction ds as [|d ds IH]; intros pre k value Hds Hk.
  - simpl. rewrite !app_nil_r.
    destruct k as [|c k].
    + rewrite app_nil_r, char_at_end. reflexivity.
    + rewrite char_at_middle, regexp_test_some. simpl in Hk. rewrite Hk. reflexivity.
  - inversion Hds as [|? ? Hd Hds']; subst.
    simpl. rewrite char_at_middle, regexp_test_some, Hd.
    rewrite <- length_snoc with (c := d).
    rewrite (snoc_app pre d (ds ++ k)).
    rewrite IH by assumption.
    rewrite <- !app_assoc. reflexivity.
Qed.

Lemma scan_name_run name :
  forall pre k value,
    all LETTERS name -> starts_nonletter k ->
    scan_name (length name) (pre ++ name ++ k) (length pre)
      (char_at (pre ++ name ++ k) (length pre)) value
    = Returns (length (pre ++ name), value ++ name).
Proof.
  induction name as [|d ds IH]; intros pre k value Hds Hk.
  - simpl. rewrite !app_nil_r.
    destruct Hk as (c & k' & -> & Hc).
    rewrite char_at_middle, regexp_test_some, Hc. reflexivity.
  - inversion Hds as [|? ? Hd Hds']; subst.
    simpl. rewrite char_at_middle, regexp_test_some, Hd.
    rewrite <- length_snoc with (c := d).
    rewrite (snoc_app pre d (ds ++ k)).
    rewrite IH by assumption.
    rewrite <- !app_assoc. reflexivity.
Qed.

Lemma scan_string_run chars :
  forall pre quote k value,
    ~ In quote chars ->
    scan_string (length chars) (pre ++ chars ++ quote :: k) (length pre)
      (Some quote) (char_at (pre ++ chars ++ quote :: k) (length pre)) value
    = Returns (length (pre ++ chars), value ++ chars).
Proof.
  induction chars as [|d ds IH]; intros pre quote k value Hq.
  - simpl. rewrite !app_nil_r.
    rewrite char_at_middle. simpl. rewrite N.eqb_refl. reflexivity.
  - simpl. rewrite char_at_middle. simpl.
    assert (Hd : N.eqb d quote = false).
    { apply N.eqb_neq. intros ->. apply Hq. left. reflexivity. }
    rewrite Hd. simpl.
    rewrite <- length_snoc with (c := d).
    rewrite (snoc_app pre d (ds ++ quote :: k)).
    rewrite IH by (intros Hin; apply Hq; right; exact Hin).
    rewrite <- !app_assoc. reflexivity.
Qed.

(** ** The main loop of the tokenizer, one token at a time *)

(** A run that settles on some fuel either has run out or gives that very
    outcome on any other fuel. *)
Lemma settled_or_out {A : Type} (f : nat -> outcome A) n r :
  (forall n m r, f n = r -> settled r -> n <= m -> f m = r) ->
  f n = r -> settled r -> forall fuel, f fuel = OutOfFuel \/ f fuel = r.
Proof.
  intros Hmono Hn Hr fuel.
  destruct (f fuel) as [a|e|] eqn:E; [ right | right | left; reflexivity ].
  - apply Hmono with (m := Nat.max n fuel) in E; [ | unfold settled; congruence | lia ].
    apply Hmono with (m := Nat.max n fuel) in Hn; [ | assumption | lia ].
    congruence.
  - apply Hmono with (m := Nat.max n fuel) in E; [ | unfold settled; congruence | lia ].
    apply Hmono with (m := Nat.max n fuel) in Hn; [ | assumption | lia ].
    congruence.
Qed.

Lemma token_step_behaves input curr tokens curr' tokens' v :
  token_step input curr tokens curr' tokens' ->
  behaves input curr' tokens' v -> behaves input curr tokens v.
Proof.
  intros [[n Hn] Hall] Hv.
  assert (Hev : forall r, eventually (loop_from input curr' tokens') r ->
                          eventually (loop_from input curr tokens) r).
  { intros r [m Hm]. exists (S (Nat.max n m)). intros fuel Hle.
    destruct fuel as [|fuel]; [lia|]. unfold loop_from in *.
    rewrite Hn by lia. apply Hm. lia. }
  destruct v; cbn [behaves] in *.
  - destruct Hv as [result Hv]. exists result. auto.
  - auto.
  - intros [|fuel]; [reflexivity|]. unfold loop_from in *.
    destruct (Hall fuel) as [H|H]; rewrite H; auto.
  - intros [|fuel]; [reflexivity|]. unfold loop_from in *.
    destruct (Hall fuel) as [H|H]; rewrite H; auto.
Qed.

Lemma step_paren pre c k tokens :
  is_paren c = true ->
  token_step (pre ++ c :: k) (length pre) tokens
    (length (pre ++ [c])) (tokens ++ [mkToken "parenthesis" [c]]).
Proof.
  intros Hc.
  assert (H : forall fuel,
             tokenizer_loop (S fuel) (pre ++ c :: k) (length pre) tokens
             = tokenizer_loop fuel (pre ++ c :: k) (length (pre ++ [c]))
                 (tokens ++ [mkToken "parenthesis" [c]])).
  { intros fuel. cbn [tokenizer_loop]. rewrite in_bounds, char_at_middle, length_snoc.
    unfold is_paren in Hc. cbn [char_is ToString]. rewrite Hc. reflexivity. }
  split; [exists 0; intros; apply H | intros; right; apply H].
Qed.

Lemma step_space pre c k tokens :
  WHITESPACE c = true ->
  token_step (pre ++ c :: k) (length pre) tokens (length (pre ++ [c])) tokens.
Proof.
  intros Hc.
  assert (H : forall fuel,
             tokenizer_loop (S fuel) (pre ++ c :: k) (length pre) tokens
             = tokenizer_loop fuel (pre ++ c :: k) (length (pre ++ [c])) tokens).
  { intros fuel. cbn [tokenizer_loop]. rewrite in_bounds, char_at_middle, length_snoc.
    replace (char_is (Some c) LPAREN || char_is (Some c) RPAREN)%bool with false
      by (symmetry; class_false).
    rewrite regexp_test_some, Hc. reflexivity. }
  split; [exists 0; intros; apply H | intros; right; apply H].
Qed.

(** A turn of the main loop that runs an inner loop: the inner loop either
    runs out of fuel or returns what it returns on enough fuel. *)
Lemma step_inner input curr tokens curr' tokens'
    (scan : nat -> outcome (nat * jsstring)) (k : nat * jsstring -> nat)
    (t : nat * jsstring -> Token) n x :
  (forall n m r, scan n = r -> settled r -> n <= m -> scan m = r) ->
  scan n = Returns x -> k x = curr' -> tokens ++ [t x] = tokens' ->
  (forall fuel,
      tokenizer_loop (S fuel) input curr tokens
      = (y <- scan fuel ;; tokenizer_loop fuel input (k y) (tokens ++ [t y]))) ->
  token_step input curr tokens curr' tokens'.
Proof.
  intros Hmono Hn <- <- Hloop. split.
  - exists n. intros fuel Hle. rewrite Hloop.
    rewrite (Hmono n fuel (Returns x)); auto. unfold settled. congruence.
  - intros fuel. rewrite Hloop.
    destruct (settled_or_out scan n (Returns x) Hmono Hn
                ltac:(unfold settled; congruence) fuel) as [H|H];
      rewrite H; auto.
Qed.

Lemma step_number pre digits k tokens :
  digits <> [] -> all NUMBERS digits -> starts_digit k = false ->
  token_step (pre ++ digits ++ k) (length pre) tokens
    (length (pre ++ digits)) (tokens ++ [mkToken "number" digits]).
Proof.
  intros Hne Hds Hk.
  pose proof (scan_number_run digits pre k [] Hds Hk) as Hrun.
  destruct digits as [|d ds]; [congruence|].
  inversion Hds as [|? ? Hd Hds']; subst.
  eapply step_inner with
    (scan := fun fuel => scan_number fuel (pre ++ (d :: ds) ++ k) (length pre)
                           (char_at (pre ++ (d :: ds) ++ k) (length pre)) [])
    (k := fst) (t := fun y => mkToken "number" (snd y)).
  - intros. eapply scan_number_mono; eauto.
  - exact Hrun.
  - reflexivity.
  - reflexivity.
  - intros fuel. cbn [tokenizer_loop app].
    rewrite in_bounds, char_at_middle.
    replace (char_is (Some d) LPAREN || char_is (Some d) RPAREN)%bool with false
      by (symmetry; class_false).
    rewrite !regexp_test_some.
    replace (WHITESPACE d) with false by (symmetry; class_false).
    rewrite Hd.
    destruct (scan_number fuel (pre ++ d :: ds ++ k) (length pre) (Some d) [])
      as [[curr' value]| |]; reflexivity.
Qed.

Lemma step_name pre name k tokens :
  name <> [] -> all LETTERS name -> starts_nonletter k ->
  token_step (pre ++ name ++ k) (length pre) tokens
    (length (pre ++ name)) (tokens ++ [mkToken "name" name]).
Proof.
  intros Hne Hds Hk.
  pose proof (scan_name_run name pre k [] Hds Hk) as Hrun.
  destruct name as [|d ds]; [congruence|].
  inversion Hds as [|? ? Hd Hds']; subst.
  eapply step_inner with
    (scan := fun fuel => scan_name fuel (pre ++ (d :: ds) ++ k) (length pre)
                           (char_at (pre ++ (d :: ds) ++ k) (length pre)) [])
    (k := fst) (t := fun y => mkToken "name" (snd y)).
  - intros. eapply scan_name_mono; eauto.
  - exact Hrun.
  - reflexivity.
  - reflexivity.
  - intros fuel. cbn [tokenizer_loop app].
    rewrite in_bounds, char_at_middle.
    replace (char_is (Some d) LPAREN || char_is (Some d) RPAREN)%bool with false
      by (symmetry; class_false).
    rewrite !regexp_test_some.
    replace (WHITESPACE d) with false by (symmetry; class_false).
    replace (NUMBERS d) with false by (symmetry; class_false).
    replace (char_is (Some d) DQUOTE || char_is (Some d) SQUOTE)%bool with false
      by (symmetry; class_false).
    rewrite Hd.
    destruct (scan_name fuel (pre ++ d :: ds ++ k) (length pre) (Some d) [])
      as [[curr' value]| |]; reflexivity.
Qed.

Lemma quote_tests quote :
  is_quote quote = true ->
  (char_is (Some quote) LPAREN || char_is (Some quote) RPAREN)%bool = false
  /\ WHITESPACE quote = false /\ NUMBERS quote = false
  /\ (char_is (Some quote) DQUOTE || char_is (Some quote) SQUOTE)%bool = true.
Proof.
  unfold is_quote. intros H. apply orb_true_iff in H as [H|H];
    apply N.eqb_eq in H; subst; repeat split; reflexivity.
Qed.

Lemma step_string pre quote chars k tokens :
  is_quote quote = true -> ~ In quote chars ->
  token_step (pre ++ quote :: chars ++ quote :: k) (length pre) tokens
    (length (pre ++ quote :: chars ++ [quote]))
    (tokens ++ [mkToken "string" chars]).
Proof.
  intros Hq Hnq.
  destruct (quote_tests quote Hq) as (Hp & Hw & Hn & Hqq).
  pose proof (scan_string_run chars (pre ++ [quote]) quote k [] Hnq) as Hrun.
  rewrite length_snoc in Hrun. rewrite <- !app_assoc in Hrun. cbn [app] in Hrun.
  eapply step_inner with
    (scan := fun fuel =>
               scan_string fuel (pre ++ quote :: chars ++ quote :: k) (S (length pre))
                 (Some quote)
                 (char_at (pre ++ quote :: chars ++ quote :: k) (S (length pre))) [])
    (k := fun y => S (fst y)) (t := fun y => mkToken "string" (snd y)).
  - intros. eapply scan_string_mono; eauto.
  - exact Hrun.
  - cbn [fst]. rewrite !length_app. cbn [length]. rewrite !length_app. cbn [length]. lia.
  - reflexivity.
  - intros fuel. cbn [tokenizer_loop].
    rewrite in_bounds, char_at_middle, Hp, !regexp_test_some, Hw, Hn, Hqq.
    destruct (scan_string fuel (pre ++ quote :: chars ++ quote :: k) (S (length pre))
                (Some quote)
                (char_at (pre ++ quote :: chars ++ quote :: k) (S (length pre))) [])
      as [[curr' value]| |]; reflexivity.
Qed.

(** The same turns, for a run that returns. *)
Lemma lexes_step input curr tokens curr' tokens' result :
  token_step input curr tokens curr' tokens' ->
  lexes input curr' tokens' result -> lexes input curr tokens result.
Proof.
  intros [[n Hn] _] [fuel H]. exists (S (Nat.max n fuel)).
  rewrite Hn by lia.
  apply tokenizer_loop_mono with (n := fuel); [ exact H | | lia ].
  unfold settled. congruence.
Qed.

Lemma lexes_end input tokens : lexes input (length input) tokens tokens.
Proof. exists 1. simpl. rewrite Nat.ltb_irrefl. reflexivity. Qed.

Lemma lexes_paren input pre c k tokens result :
  input = pre ++ c :: k -> c = LPAREN \/ c = RPAREN ->
  lexes input (length (pre ++ [c])) (tokens ++ [mkToken "parenthesis" [c]]) result ->
  lexes input (length pre) tokens result.
Proof.
  intros -> Hc. apply lexes_step, step_paren.
  destruct Hc as [-> | ->]; reflexivity.
Qed.

Lemma lexes_space input pre c k tokens result :
  input = pre ++ c :: k -> WHITESPACE c = true ->
  lexes input (length (pre ++ [c])) tokens result ->
  lexes input (length pre) tokens result.
Proof. intros -> Hc. apply lexes_step, step_space. exact Hc. Qed.

Lemma lexes_gap gap :
  forall input pre k tokens result,
    input = pre ++ gap ++ k -> all WHITESPACE gap ->
    lexes input (length (pre ++ gap)) tokens result ->
    lexes input (length pre) tokens result.
Proof.
  induction gap as [|c gap IH]; intros input pre k tokens result Hin Hg H.
  - rewrite app_nil_r in H. exact H.
  - inversion Hg as [|? ? Hc Hg']; subst.
    apply lexes_space with (c := c) (k := gap ++ k); auto.
    apply IH with (k := k); auto.
    + rewrite <- app_assoc. reflexivity.
    + rewrite <- app_assoc. exact H.
Qed.

Lemma lexes_number input pre digits k tokens result :
  input = pre ++ digits ++ k -> digits <> [] -> all NUMBERS digits ->
  starts_digit k = false ->
  lexes input (length (pre ++ digits)) (tokens ++ [mkToken "number" digits]) result ->
  lexes input (length pre) tokens result.
Proof. intros -> Hne Hds Hk. apply lexes_step, step_number; assumption. Qed.

Lemma lexes_name input pre name k tokens result :
  input = pre ++ name ++ k -> name <> [] -> all LETTERS name ->
  starts_nonletter k ->
  lexes input (length (pre ++ name)) (tokens ++ [mkToken "name" name]) result ->
  lexes input (length pre) tokens result.
Proof. intros -> Hne Hds Hk. apply lexes_step, step_name; assumption. Qed.

Lemma lexes_string input pre quote chars k tokens result :
  input = pre ++ [quote] ++ chars ++ [quote] ++ k ->
  quote = DQUOTE \/ quote = SQUOTE -> ~ In quote chars ->
  lexes input (length (pre ++ [quote] ++ chars ++ [quote]))
    (tokens ++ [mkToken "string" chars]) result ->
  lexes input (length pre) tokens result.
Proof.
  intros -> Hq Hnq. apply lexes_step.
  apply (step_string pre quote chars k tokens); [ | assumption ].
  destruct Hq as [-> | ->]; reflexivity.
Qed.

(** ** The tokenizer on the text of a well-formed tree *)

Lemma starts_digit_app a b :
  starts_digit a = false -> starts_digit b = false -> starts_digit (a ++ b) = false.
Proof. destruct a; simpl; auto. Qed.

Lemma starts_digit_gap gap k :
  all WHITESPACE gap -> starts_digit k = false -> starts_digit (gap ++ k) = false.
Proof.
  intros Hg Hk. destruct gap as [|c gap]; simpl; auto.
  inversion Hg as [|? ? Hc ?]; subst. unfold NUMBERS. fold (NUMBERS c). class_false.
Qed.

Lemma starts_nonletter_gap gap k :
  all WHITESPACE gap -> starts_nonletter k -> starts_nonletter (gap ++ k).
Proof.
  intros Hg Hk. destruct gap as [|c gap]; simpl; auto.
  inversion Hg as [|? ? Hc ?]; subst.
  exists c, (gap ++ k). split; [reflexivity | class_false].
Qed.

Lemma starts_nonletter_expr e k : wf_expr e -> starts_nonletter (text_expr e ++ k).
Proof.
  intros Hwf. inversion Hwf as [ds Hne Hds | q cs Hq Hnq | g name args g' ]; subst.
  - destruct ds as [|d ds]; [congruence|].
    inversion Hds as [|? ? Hd ?]; subst.
    exists d, (ds ++ k). split; [reflexivity | class_false].
  - exists q, ((cs ++ [q]) ++ k). split; [reflexivity|].
    destruct Hq as [-> | ->]; reflexivity.
  - exists LPAREN. eexists. split; [reflexivity | reflexivity].
Qed.

Lemma starts_nonletter_seq s k :
  wf_seq s -> starts_nonletter k -> starts_nonletter (text_seq s ++ k).
Proof.
  intros Hwf Hk. inversion Hwf as [| g e rest Hg He Hrest Hsep]; subst; simpl; auto.
  rewrite <- app_assoc. apply starts_nonletter_gap; auto.
  rewrite <- app_assoc. apply starts_nonletter_expr; auto.
Qed.

Lemma starts_nonletter_rparen k : starts_nonletter (RPAREN :: k).
Proof. exists RPAREN, k. split; reflexivity. Qed.

(** Equalities of texts and token lists up to the bracketing of [++]. *)
Ltac list_eq :=
  cbn [text_expr text_seq tokens_expr tokens_seq ast_expr ast_seq];
  rewrite <- ?app_assoc; cbn [app]; reflexivity.

Ltac lexes_exact H :=
  match type of H with
  | lexes _ ?n ?t _ =>
      match goal with
      | |- lexes _ ?n' ?t' _ =>
          replace n' with n by (f_equal; list_eq);
          replace t' with t by list_eq;
          exact H
      end
  end.

Lemma lex_syntax :
  (forall e, wf_expr e ->
     forall input pre k tokens result,
       input = pre ++ text_expr e ++ k ->
       (is_number e = true -> starts_digit k = false) ->
       lexes input (length (pre ++ text_expr e)) (tokens ++ tokens_expr e) result ->
       lexes input (length pre) tokens result)
  /\ (forall s, wf_seq s ->
        forall input pre k tokens result,
          input = pre ++ text_seq s ++ k ->
          starts_digit k = false ->
          lexes input (length (pre ++ text_seq s)) (tokens ++ tokens_seq s) result ->
          lexes input (length pre) tokens result).
Proof.
  apply wf_ind.
  - (* number *)
    intros ds Hne Hds input pre k tokens result Hin Hk H.
    apply lexes_number with (digits := ds) (k := k); auto.
  - (* string *)
    intros q cs Hq Hnq input pre k tokens result Hin Hk H.
    apply lexes_string with (quote := q) (chars := cs) (k := k); auto.
    subst input. list_eq.
  - (* call *)
    intros g name args g' Hg Hne Hname Hargs IHargs Hg' input pre k tokens result Hin Hk H.
    apply lexes_paren with (c := LPAREN)
      (k := g ++ name ++ text_seq args ++ g' ++ [RPAREN] ++ k);
      [ subst input; list_eq | left; reflexivity | ].
    apply lexes_gap with (gap := g)
      (k := name ++ text_seq args ++ g' ++ [RPAREN] ++ k);
      [ subst input; list_eq | assumption | ].
    apply lexes_name with (name := name)
      (k := text_seq args ++ g' ++ [RPAREN] ++ k);
      [ subst input; list_eq | assumption | assumption | | ].
    { apply starts_nonletter_seq; auto.
      apply starts_nonletter_gap; auto. apply starts_nonletter_rparen. }
    apply IHargs with (k := g' ++ [RPAREN] ++ k);
      [ subst input; list_eq | | ].
    { apply starts_digit_gap; auto. }
    apply lexes_gap with (gap := g') (k := [RPAREN] ++ k);
      [ subst input; list_eq | assumption | ].
    apply lexes_paren with (c := RPAREN) (k := k);
      [ subst input; list_eq | right; reflexivity | ].
    lexes_exact H.
  - (* empty sequence *)
    intros input pre k tokens result Hin Hk H.
    simpl in H. rewrite !app_nil_r in H. exact H.
  - (* one more expression *)
    intros g e rest Hg He IHe Hrest IHrest Hsep input pre k tokens result Hin Hk H.
    apply lexes_gap with (gap := g) (k := text_expr e ++ text_seq rest ++ k);
      [ subst input; list_eq | assumption | ].
    apply IHe with (k := text_seq rest ++ k);
      [ subst input; list_eq | | ].
    { intros Hnum. apply starts_digit_app; auto. }
    apply IHrest with (k := k); [ subst input; list_eq | assumption | ].
    lexes_exact H.
Qed.

(** The tokenizer returns the tokens of a well-formed program. *)
Lemma tokenizer_program p :
  wf_program p -> tokenizer_returns (text p) (tokens_seq (top p)).
Proof.
  intros [Hseq Htrail].
  assert (H : lexes (text p) 0 [] (tokens_seq (top p))).
  { apply (proj2 lex_syntax (top p) Hseq (text p) [] (trailing p));
      [ reflexivity
      | rewrite <- (app_nil_r (trailing p)); apply starts_digit_gap; auto | ].
    apply lexes_gap with (pre := [] ++ text_seq (top p)) (gap := trailing p) (k := []);
      [ unfold text; cbn [app]; rewrite app_nil_r; reflexivity | assumption | ].
    replace (length (([] ++ text_seq (top p)) ++ trailing p)) with (length (text p))
      by (unfold text; f_equal).
    apply lexes_end. }
  destruct H as [fuel H]. apply tokenizer_returns_at with (n := fuel). exact H.
Qed.

(** ** The parser on the tokens of a tree *)

Lemma token_at_middle pre t k : token_at (pre ++ t :: k) (length pre) = Some t.
Proof.
  unfold token_at. rewrite nth_error_app2 by lia.
  rewrite Nat.sub_diag. reflexivity.
Qed.

Lemma jseqb_refl a : jseqb a a = true.
Proof. unfold jseqb. destruct (list_eq_dec N.eq_dec a a); congruence. Qed.

(** The first token of an expression opens it: the loop that collects the
    parameters of a call goes on. *)
Lemma tokens_expr_first e :
  exists t ts,
    tokens_expr e = t :: ts
    /\ (negb (type t =? "parenthesis")%string
        || ((type t =? "parenthesis")%string
            && negb (jseqb (value t) [RPAREN])))%bool = true.
Proof.
  destruct e; simpl; eexists; eexists; split; try reflexivity.
Qed.

Lemma walk_syntax :
  (forall e tokens pre k,
      tokens = pre ++ tokens_expr e ++ k ->
      exists fuel,
        walk fuel tokens (length pre)
        = Returns (ast_expr e, length (pre ++ tokens_expr e)))
  /\ (forall s tokens pre k params,
        tokens = pre ++ tokens_seq s ++ mkToken "parenthesis" [RPAREN] :: k ->
        exists fuel,
          walk_params fuel tokens (length pre) (token_at tokens (length pre)) params
          = Returns (params ++ ast_seq s, length (pre ++ tokens_seq s))).
Proof.
  apply syntax_ind.
  - intros ds tokens pre k ->. exists 1.
    cbn [walk tokens_expr app]. rewrite token_at_middle. cbn.
    rewrite length_snoc. reflexivity.
  - intros q cs tokens pre k ->. exists 1.
    cbn [walk tokens_expr app]. rewrite token_at_middle. cbn.
    rewrite length_snoc. reflexivity.
  - intros g name args IHargs g' tokens pre k ->.
    destruct (IHargs
                (pre ++ tokens_expr (SCall g name args g') ++ k)
                (pre ++ [mkToken "parenthesis" [LPAREN]; mkToken "name" name])
                k [] ltac:(list_eq)) as [fuel Hargs].
    exists (S fuel). cbn [walk tokens_expr app].
    rewrite token_at_middle. cbn [type value String.eqb Ascii.eqb Bool.eqb andb].
    rewrite jseqb_refl.
    rewrite (snoc_app pre (mkToken "parenthesis" [LPAREN])).
    rewrite <- length_snoc with (c := mkToken "parenthesis" [LPAREN]).
    rewrite token_at_middle.
    rewrite <- length_snoc with (c := mkToken "name" name).
    match type of Hargs with
    | walk_params _ ?t ?n _ _ = Returns (_, ?n') =>
        match goal with
        | |- context [walk_params _ ?t' ?m (token_at ?t' ?m) _] =>
            replace t' with t by list_eq;
            replace m with n by (f_equal; list_eq)
        end
    end.
    rewrite Hargs. cbn [bind app value].
    f_equal. f_equal.
    rewrite <- length_snoc with (c := mkToken "parenthesis" [RPAREN]).
    f_equal. list_eq.
  - intros tokens pre k params ->. exists 1.
    cbn [walk_params tokens_seq app]. rewrite token_at_middle.
    cbn [type value String.eqb Ascii.eqb Bool.eqb andb negb orb].
    rewrite jseqb_refl. cbn. rewrite !app_nil_r. reflexivity.
  - intros g e IHe rest IHrest tokens pre k params ->.
    destruct (tokens_expr_first e) as (t & ts & Hts & Hopen).
    destruct (IHe (pre ++ tokens_seq (SCons g e rest) ++ mkToken "parenthesis" [RPAREN] :: k)
                pre (tokens_seq rest ++ mkToken "parenthesis" [RPAREN] :: k)
                ltac:(list_eq)) as [f1 H1].
    destruct (IHrest
                (pre ++ tokens_seq (SCons g e rest) ++ mkToken "parenthesis" [RPAREN] :: k)
                (pre ++ tokens_expr e) k (params ++ [ast_expr e])
                ltac:(list_eq)) as [f2 H2].
    exists (S (Nat.max f1 f2)).
    apply (proj1 (walk_mono f1)) with (m := Nat.max f1 f2) in H1;
      [ | unfold settled; congruence | lia ].
    apply (proj2 (walk_mono f2)) with (m := Nat.max f1 f2) in H2;
      [ | unfold settled; congruence | lia ].
    cbn [walk_params].
    replace (token_at (pre ++ tokens_seq (SCons g e rest)
                         ++ mkToken "parenthesis" [RPAREN] :: k) (length pre))
      with (Some t).
    2:{ cbn [tokens_seq]. rewrite Hts. rewrite <- !app_assoc. cbn [app].
        rewrite token_at_middle. reflexivity. }
    rewrite Hopen, H1. cbn [bind]. rewrite H2.
    f_equal. f_equal; [ | f_equal ]; list_eq.
Qed.

(** The top-level loop of the parser on the tokens of a sequence. *)
Lemma parser_loop_seq s :
  forall tokens pre body,
    tokens = pre ++ tokens_seq s ->
    exists fuel,
      parser_loop fuel tokens (length pre) body
      = Returns (Program (body ++ ast_seq s)).
Proof.
  induction s as [|g e rest IH]; intros tokens pre body ->.
  - exists 1. cbn [parser_loop tokens_seq ast_seq].
    rewrite !app_nil_r, Nat.ltb_irrefl. reflexivity.
  - destruct (tokens_expr_first e) as (t & ts & Hts & _).
    destruct (proj1 walk_syntax e (pre ++ tokens_seq (SCons g e rest)) pre
                (tokens_seq rest) ltac:(list_eq)) as [f1 H1].
    destruct (IH (pre ++ tokens_seq (SCons g e rest)) (pre ++ tokens_expr e)
                (body ++ [ast_expr e]) ltac:(list_eq)) as [f2 H2].
    exists (S (Nat.max f1 f2)).
    apply (proj1 (walk_mono f1)) with (m := Nat.max f1 f2) in H1;
      [ | unfold settled; congruence | lia ].
    apply parser_loop_mono with (m := Nat.max f1 f2) in H2;
      [ | unfold settled; congruence | lia ].
    cbn [parser_loop].
    replace (length pre <? length (pre ++ tokens_seq (SCons g e rest)))%nat with true.
    2:{ symmetry. apply Nat.ltb_lt. cbn [tokens_seq]. rewrite Hts.
        rewrite !length_app. simpl. lia. }
    rewrite H1. cbn [bind]. rewrite H2. f_equal. f_equal. list_eq.
Qed.

(** The parser returns the tree of a program from its tokens. *)
Lemma parser_program p :
  parser_returns (tokens_seq (top p)) (Program (ast_seq (top p))).
Proof.
  destruct (parser_loop_seq (top p) (tokens_seq (top p)) [] [] eq_refl) as [fuel H].
  apply parser_returns_at with (n := fuel). exact H.
Qed.

(** ** The traversal *)

(** The handler found under the type of a node meets a node of the shape it
    reads: a number for [NumberLiteral_enter], a call for
    [CallExpression_enter]; [StringLiteral_enter] is found for no node. *)
Lemma visitor_shape node enter :
  visitor (node_type node) = Some enter ->
  (exists value, node = NumberLiteral value /\ enter = NumberLiteral_enter)
  \/ (exists name params,
        node = CallExpression name params /\ enter = CallExpression_enter).
Proof.
  destruct node as [body|value|value|name params]; cbn; intros H;
    try discriminate H; injection H as <-.
  - left. exists value. split; reflexivity.
  - right. exists name, params. split; reflexivity.
Qed.

Lemma nodeTraversal_CallExpression h name params _context parent :
  nodeTraversal h (CallExpression name params) _context parent
  = ('(h1, context1) <-
       CallExpression_enter h (CallExpression name params) _context parent ;;
     arrayTraversal h1 params (Some (mkParent "CallExpression" context1))).
Proof.
  cbn [nodeTraversal node_type].
  change (visitor "CallExpression") with (Some CallExpression_enter).
  change (switch "CallExpression") with case_CallExpression.
  destruct (CallExpression_enter h (CallExpression name params) _context parent)
    as [[h1 context1]| |]; cbn [bind]; auto.
  generalize h1. induction params as [|child rest IH]; intros h2; cbn; auto.
  destruct (nodeTraversal h2 child None _); cbn [bind]; auto.
Qed.

Lemma nodeTraversal_Program h body _context parent :
  nodeTraversal h (Program body) _context parent
  = arrayTraversal h body (Some (mkParent "Program" _context)).
Proof.
  cbn [nodeTraversal node_type].
  change (visitor "Program") with (@None handler).
  change (switch "Program") with case_Program.
  cbn [bind].
  generalize h. induction body as [|child rest IH]; intros h2; cbn; auto.
  destruct (nodeTraversal h2 child None _); cbn [bind]; auto.
Qed.

Lemma nodeTraversal_NumberLiteral h value _context parent :
  nodeTraversal h (NumberLiteral value) _context parent
  = Returns (push_parent h parent (TNumberLiteral value)).
Proof. reflexivity. Qed.

Lemma nodeTraversal_stringLiteral h value _context parent :
  nodeTraversal h (stringLiteral value) _context parent
  = Throws (TypeError (js "stringLiteral")).
Proof. reflexivity. Qed.

(** ** The generator on the heap the traversal leaves *)

Lemma stable_weaken lo hi lo' hi' h node out :
  lo' <= lo -> hi <= hi' -> stable lo hi h node out -> stable lo' hi' h node out.
Proof.
  intros Hlo Hhi Hst h' Hag. apply Hst. intros r Hr. apply Hag. lia.
Qed.

Lemma stable_transfer lo hi h1 h2 node out :
  (forall r, lo <= r < hi -> cells h2 r = cells h1 r) ->
  stable lo hi h1 node out -> stable lo hi h2 node out.
Proof.
  intros Heq Hst h' Hag. apply Hst. intros r Hr.
  rewrite (Hag r Hr). apply Heq. exact Hr.
Qed.

Lemma gen_map h nodes outs :
  Forall2 (gen h) nodes outs ->
  exists fuel, map_outcome (codeGenerator fuel h) nodes = Returns outs.
Proof.
  induction 1 as [|node out nodes outs [f1 H1] _ [f2 H2]].
  - exists 0. reflexivity.
  - exists (Nat.max f1 f2). cbn [map_outcome].
    rewrite (codeGenerator_mono f1 (Nat.max f1 f2) h node (Returns out))
      by (auto; unfold settled; try congruence; lia).
    cbn [bind].
    rewrite (map_outcome_mono (codeGenerator f2 h) (codeGenerator (Nat.max f1 f2) h))
      with (r := Returns outs); auto.
    + intros x r Hx Hr. apply codeGenerator_mono with (n := f2); auto. lia.
    + unfold settled. congruence.
Qed.

Lemma gen_call h name arguments nodes outs :
  cells h arguments = nodes -> Forall2 (gen h) nodes outs ->
  gen h (TCallExpression (Identifier name) arguments)
    (name ++ js "(" ++ join (js ", ") outs ++ js ")").
Proof.
  intros Hcells Hall. destruct (gen_map _ _ _ Hall) as [fuel H].
  exists (S (S fuel)). cbn [codeGenerator bind]. rewrite Hcells.
  rewrite (map_outcome_mono (codeGenerator fuel h) (codeGenerator (S fuel) h))
    with (r := Returns outs); auto.
  - intros x r Hx Hr. apply codeGenerator_mono with (n := fuel); auto.
  - unfold settled. congruence.
Qed.

Lemma gen_statement h node out :
  gen h node out -> gen h (ExpressionStatement node) (out ++ js ";").
Proof.
  intros [fuel H]. exists (S fuel). cbn [codeGenerator]. rewrite H. reflexivity.
Qed.

Lemma gen_program h body nodes outs :
  cells h body = nodes -> Forall2 (gen h) nodes outs ->
  gen h (TProgram body) (join [NEWLINE] outs).
Proof.
  intros Hcells Hall. destruct (gen_map _ _ _ Hall) as [fuel H].
  exists (S fuel). cbn [codeGenerator]. rewrite Hcells, H. reflexivity.
Qed.

Lemma emit_in_call s : map (emit_in "CallExpression") (exprs s) = emit_seq s.
Proof.
  induction s as [|g e rest IH]; cbn [exprs map emit_seq]; [reflexivity|].
  rewrite IH. destruct e; reflexivity.
Qed.

Lemma emit_in_program e : emit_in "Program" e = emit_statement e.
Proof. destruct e; reflexivity. Qed.

(** ** The traversal of a tree without strings

    The new node of the expression is appended to the array of the parent,
    the other arrays that existed are untouched, and what the generator
    makes of the new node only depends on arrays allocated meanwhile. *)
Lemma traversal_syntax :
  (forall e, has_string e = false ->
     forall h p_type r, r < next h ->
       exists h' node,
         nodeTraversal h (ast_expr e) None (Some (mkParent p_type (Some r)))
         = Returns h'
         /\ next h <= next h'
         /\ cells h' r = cells h r ++ [node]
         /\ (forall r', r' < next h -> r' <> r -> cells h' r' = cells h r')
         /\ stable (next h) (next h') h' node (emit_in p_type e))
  /\ (forall s, has_string_seq s = false ->
        forall h p_type r, r < next h ->
          exists h' nodes,
            arrayTraversal h (ast_seq s) (Some (mkParent p_type (Some r)))
            = Returns h'
            /\ next h <= next h'
            /\ cells h' r = cells h r ++ nodes
            /\ (forall r', r' < next h -> r' <> r -> cells h' r' = cells h r')
            /\ Forall2 (stable (next h) (next h') h') nodes
                 (map (emit_in p_type) (exprs s))).
Proof.
  apply syntax_ind.
  - (* number *)
    intros ds _ h pt r Hr.
    exists (push h r (TNumberLiteral ds)), (TNumberLiteral ds).
    cbn [ast_expr]. rewrite nodeTraversal_NumberLiteral.
    cbn [push_parent p_context push cells next].
    repeat split; auto.
    + rewrite Nat.eqb_refl. reflexivity.
    + intros r' _ Hne. apply Nat.eqb_neq in Hne. rewrite Hne. reflexivity.
    + intros h' _. exists 1. reflexivity.
  - (* string *)
    intros q cs Hs. discriminate Hs.
  - (* call *)
    intros g name args IHargs g' Hs h pt r Hr.
    cbn [has_string] in Hs.
    set (a := next h).
    set (call := TCallExpression (Identifier name) a).
    set (node := if negb (pt =? "CallExpression")%string
                 then ExpressionStatement call else call).
    set (h2 := push (snd (alloc h)) r node).
    destruct (IHargs Hs h2 "CallExpression"%string a) as
      (h3 & nodes & Htrav & Hnext & Hcells & Hothers & Hall).
    { subst h2 a. cbn. lia. }
    exists h3, node.
    assert (Ha : (a =? r)%nat = false) by (apply Nat.eqb_neq; subst a; lia).
    assert (Hra : (r =? a)%nat = false) by (apply Nat.eqb_neq; subst a; lia).
    assert (Hnext2 : next h2 = S (next h)) by reflexivity.
    assert (Hargs : cells h3 a = nodes).
    { rewrite Hcells. subst h2. cbn [push cells alloc snd].
      rewrite Ha. fold a. rewrite Nat.eqb_refl. reflexivity. }
    cbn [ast_expr]. rewrite nodeTraversal_CallExpression.
    cbn [CallExpression_enter alloc p_type bind push_parent p_context].
    fold a. fold call. fold node.
    change (push (mkHeap (fun r0 => if (r0 =? a)%nat then [] else cells h r0) (S a)) r node)
      with h2.
    split; [exact Htrav|].
    split; [subst a; lia|].
    split.
    { rewrite Hothers by (subst a; lia).
      subst h2. cbn [push cells alloc snd]. rewrite Nat.eqb_refl.
      fold a. rewrite Hra. reflexivity. }
    split.
    { intros r' Hr' Hne. rewrite Hothers by (subst a; lia).
      subst h2. cbn [push cells alloc snd].
      apply Nat.eqb_neq in Hne. rewrite Hne. fold a.
      replace (r' =? a)%nat with false
        by (symmetry; apply Nat.eqb_neq; subst a; lia).
      reflexivity. }
    intros h' Hag.
    assert (Hcall : gen h' call
                      (name ++ js "(" ++ join (js ", ") (emit_seq args) ++ js ")")).
    { apply gen_call with (nodes := nodes).
      - rewrite (Hag a) by (subst a; lia). exact Hargs.
      - rewrite <- emit_in_call.
        eapply Forall2_impl; [ | exact Hall ].
        intros n o Hst. apply Hst. intros x Hx. apply Hag. lia. }
    subst node. cbn [emit_in emit_expr].
    destruct (negb (pt =? "CallExpression")%string); auto.
    apply gen_statement. exact Hcall.
  - (* empty sequence *)
    intros _ h pt r Hr. exists h, [].
    cbn. rewrite app_nil_r. repeat split; auto.
  - (* one more expression *)
    intros g e IHe rest IHrest Hs h pt r Hr.
    cbn [has_string_seq] in Hs. apply orb_false_iff in Hs as [Hse Hsr].
    destruct (IHe Hse h pt r Hr) as (h1 & node & Ht1 & Hn1 & Hc1 & Ho1 & Hst1).
    destruct (IHrest Hsr h1 pt r ltac:(lia))
      as (h2 & nodes & Ht2 & Hn2 & Hc2 & Ho2 & Hst2).
    exists h2, (node :: nodes).
    cbn [ast_seq arrayTraversal exprs map]. rewrite Ht1. cbn [bind]. rewrite Ht2.
    split; [reflexivity|].
    split; [lia|].
    split.
    { rewrite Hc2, Hc1, <- app_assoc. reflexivity. }
    split.
    { intros r' Hr' Hne. rewrite Ho2 by (auto; lia). apply Ho1; auto. }
    constructor.
    + apply stable_weaken with (lo := next h) (hi := next h1); [lia | lia | ].
      apply stable_transfer with (h1 := h1); auto.
      intros x Hx. apply Ho2; lia.
    + eapply Forall2_impl; [ | exact Hst2 ].
      intros n o Hst. apply stable_weaken with (lo := next h1) (hi := next h2); auto.
Qed.

(** ** The traversal of a tree with a string *)

Lemma traversal_string :
  (forall e, has_string e = true ->
     forall h p_type r, r < next h ->
       nodeTraversal h (ast_expr e) None (Some (mkParent p_type (Some r)))
       = Throws (TypeError (js "stringLiteral")))
  /\ (forall s, has_string_seq s = true ->
        forall h p_type r, r < next h ->
          arrayTraversal h (ast_seq s) (Some (mkParent p_type (Some r)))
          = Throws (TypeError (js "stringLiteral"))).
Proof.
  apply syntax_ind.
  - intros ds Hs. discriminate Hs.
  - intros q cs _ h pt r _. apply nodeTraversal_stringLiteral.
  - intros g name args IHargs g' Hs h pt r Hr.
    cbn [has_string] in Hs.
    cbn [ast_expr]. rewrite nodeTraversal_CallExpression.
    cbn [CallExpression_enter alloc p_type bind push_parent p_context].
    apply IHargs; auto; cbn; lia.
  - intros Hs. discriminate Hs.
  - intros g e IHe rest IHrest Hs h pt r Hr.
    cbn [has_string_seq] in Hs. cbn [ast_seq arrayTraversal].
    destruct (has_string e) eqn:He.
    + rewrite IHe by auto. reflexivity.
    + destruct (proj1 traversal_syntax e He h pt r Hr) as (h1 & node & Ht1 & Hn1 & _).
      rewrite Ht1. cbn [bind]. apply IHrest; auto. lia.
Qed.

(** ** The transformer and the generator on the tree of a program *)

Lemma transform_plain s :
  has_string_seq s = false ->
  exists h,
    transform (Program (ast_seq s)) = Returns (h, TProgram 0)
    /\ gen h (TProgram 0) (join [NEWLINE] (map emit_statement (exprs s))).
Proof.
  intros Hs.
  destruct (proj2 traversal_syntax s Hs (snd (alloc empty_heap)) "Program"%string 0)
    as (h & nodes & Ht & Hn & Hc & _ & Hall); [cbn; lia|].
  exists h. unfold transform.
  change (alloc empty_heap) with (0, snd (alloc empty_heap)). cbv beta iota.
  rewrite nodeTraversal_Program, Ht. cbn [bind].
  split; [reflexivity|].
  apply gen_program with (nodes := nodes).
  - rewrite Hc. reflexivity.
  - replace (map emit_statement (exprs s)) with (map (emit_in "Program") (exprs s))
      by (apply map_ext; intros; apply emit_in_program).
    eapply Forall2_impl; [ | exact Hall ].
    intros n o Hst. apply Hst. intros x Hx. reflexivity.
Qed.

Lemma transform_string s :
  has_string_seq s = true ->
  transform (Program (ast_seq s)) = Throws (TypeError (js "stringLiteral")).
Proof.
  intros Hs. unfold transform.
  change (alloc empty_heap) with (0, snd (alloc empty_heap)). cbv beta iota.
  rewrite nodeTraversal_Program.
  rewrite (proj2 traversal_string s Hs); [reflexivity | cbn; lia].
Qed.

(** ** The compiler on the text of a well-formed program *)

Lemma compile_stages input tokens ast :
  tokenizer_returns input tokens -> parser_returns tokens ast ->
  forall r, (exists fuel,
                ('(h, newAST) <- transform ast ;; codeGenerator fuel h newAST) = r)
            -> settled r ->
            eventually (fun fuel => compile fuel input) r.
Proof.
  intros [n1 H1] [n2 H2] r [n3 H3] Hr.
  apply eventually_at with (n := Nat.max n1 (Nat.max n2 n3)); auto.
  - intros. eapply compile_mono; eauto.
  - unfold compile. rewrite H1 by lia. cbn [bind]. rewrite H2 by lia. cbn [bind].
    destruct (transform ast) as [[h newAST]| |]; cbn [bind] in *; auto.
    apply codeGenerator_mono with (n := n3); auto. lia.
Qed.

(** The sample programs are the texts they stand for. *)
Lemma nested_sample_text : text nested_sample = js "(add 2 (subtract 4 2))".
Proof. reflexivity. Qed.

Lemma two_calls_sample_text : text two_calls_sample = js "(a 1) (b 2)".
Proof. reflexivity. Qed.

Lemma concat_sample_text :
  text concat_sample
  = js "(concat " ++ quoted (js "foo") ++ js " " ++ quoted (js "bar") ++ js ")".
Proof. reflexivity. Qed.

Lemma digits_sample_text :
  text digits_sample = js "(add 007 12345678901234567890)".
Proof. reflexivity. Qed.

(** A well-formed program without strings compiles to the text the
    specification gives for it. *)
Lemma compile_plain p :
  wf_program p -> has_string_seq (top p) = false ->
  compile_returns (text p) (emit p).
Proof.
  intros Hwf Hs.
  destruct (transform_plain (top p) Hs) as (h & Ht & [fuel Hgen]).
  apply compile_stages with (tokens := tokens_seq (top p))
                            (ast := Program (ast_seq (top p))).
  - apply tokenizer_program; auto.
  - apply parser_program.
  - exists fuel. rewrite Ht. cbn [bind]. exact Hgen.
  - unfold settled. congruence.
Qed.

(** A well-formed program with a string anywhere in it does not compile: the
    traversal throws on the node of the string. *)
Lemma compile_string p :
  wf_program p -> has_string_seq (top p) = true ->
  compile_throws (text p) (TypeError (js "stringLiteral")).
Proof.
  intros Hwf Hs.
  apply compile_stages with (tokens := tokens_seq (top p))
                            (ast := Program (ast_seq (top p))).
  - apply tokenizer_program; auto.
  - apply parser_program.
  - exists 0. rewrite (transform_string _ Hs). reflexivity.
  - unfold settled. congruence.
Qed.

(** ** The lines of the emitted text *)

Lemma lines_from_app current s t :
  ~ In NEWLINE s ->
  lines_from current (s ++ t) = lines_from (current ++ s) t.
Proof.
  revert current. induction s as [|c s IH]; intros current Hs; cbn [app lines_from].
  - rewrite app_nil_r. reflexivity.
  - destruct (N.eqb_spec c NEWLINE) as [->|Hc].
    + exfalso. apply Hs. left. reflexivity.
    + rewrite IH by (intros Hin; apply Hs; right; exact Hin).
      rewrite <- app_assoc. reflexivity.
Qed.

Lemma lines_join parts :
  parts <> [] -> Forall (fun part => ~ In NEWLINE part) parts ->
  lines (join [NEWLINE] parts) = parts.
Proof.
  unfold lines. intros Hne Hall.
  induction Hall as [|part rest Hpart Hrest IH]; [congruence|].
  destruct rest as [|part' rest'].
  - cbn [join]. rewrite <- (app_nil_r part) at 1.
    rewrite lines_from_app by assumption. reflexivity.
  - change (join [NEWLINE] (part :: part' :: rest'))
      with (part ++ NEWLINE :: join [NEWLINE] (part' :: rest')).
    rewrite lines_from_app by assumption.
    cbn [lines_from app]. rewrite N.eqb_refl.
    rewrite IH by congruence. reflexivity.
Qed.

Lemma all_not_in class s x : class x = false -> all class s -> ~ In x s.
Proof.
  intros Hx Hall Hin. unfold all in Hall. rewrite Forall_forall in Hall.
  apply Hall in Hin. congruence.
Qed.

Lemma not_in_app {A : Type} (x : A) a b : ~ In x a -> ~ In x b -> ~ In x (a ++ b).
Proof. intros Ha Hb Hin. apply in_app_or in Hin. tauto. Qed.

Lemma not_in_join (x : N) sep parts :
  ~ In x sep -> Forall (fun part => ~ In x part) parts -> ~ In x (join sep parts).
Proof.
  intros Hsep Hall. induction Hall as [|part rest Hpart Hrest IH]; cbn [join]; auto.
  destruct rest as [|part' rest']; auto.
  apply not_in_app; auto. apply not_in_app; auto.
Qed.

(** A character that is no digit, no letter and none of the punctuation of a
    call does not occur in the text emitted for an expression without
    strings. *)
Lemma emit_avoids x :
  NUMBERS x = false -> LETTERS x = false -> ~ In x (js "(, )") ->
  (forall e, wf_expr e -> has_string e = false -> ~ In x (emit_expr e))
  /\ (forall s, wf_seq s -> has_string_seq s = false ->
        Forall (fun part => ~ In x part) (emit_seq s)).
Proof.
  intros Hnum Hlet Hpunct. apply wf_ind.
  - intros ds _ Hds _. apply all_not_in with (class := NUMBERS); auto.
  - intros q cs _ _ Hs. discriminate Hs.
  - intros g name args g' _ _ Hname _ IHargs _ Hs. cbn [has_string] in Hs.
    cbn [emit_expr]. apply not_in_app.
    { apply all_not_in with (class := LETTERS); auto. }
    apply not_in_app.
    { intros [H|[]]. apply Hpunct. left. exact H. }
    apply not_in_app.
    { apply not_in_join; auto.
      intros [H|[H|[]]]; apply Hpunct; cbn; auto. }
    intros [H|[]]. apply Hpunct. cbn. auto.
  - intros _. constructor.
  - intros g e rest _ _ IHe _ IHrest _ Hs.
    cbn [has_string_seq] in Hs. apply orb_false_iff in Hs as [Hse Hsr].
    cbn [emit_seq]. constructor; auto.
Qed.

Lemma emit_no_newline e :
  wf_expr e -> has_string e = false -> ~ In NEWLINE (emit_expr e).
Proof.
  apply (proj1 (emit_avoids NEWLINE eq_refl eq_refl
                  ltac:(cbn; intros [H|[H|[H|[H|[]]]]]; discriminate H))).
Qed.

Lemma emit_no_semicolon e :
  wf_expr e -> has_string e = false -> ~ In SEMICOLON (emit_expr e).
Proof.
  apply (proj1 (emit_avoids SEMICOLON eq_refl eq_refl
                  ltac:(cbn; intros [H|[H|[H|[H|[]]]]]; discriminate H))).
Qed.

Lemma emit_statement_no_newline e :
  wf_expr e -> has_string e = false -> ~ In NEWLINE (emit_statement e).
Proof.
  intros Hwf Hs. pose proof (emit_no_newline e Hwf Hs) as H.
  destruct e; auto. unfold emit_statement. apply not_in_app; auto.
  cbn. intros [H'|[]]. discriminate H'.
Qed.

Lemma emit_statement_nonempty e : wf_expr e -> emit_statement e <> [].
Proof.
  intros Hwf. destruct Hwf as [ds Hne Hds | q cs Hq Hnq | g name args g' Hg Hne Hn Ha Hg'];
    cbn; auto; try discriminate.
  destruct name; [congruence | discriminate].
Qed.

Lemma exprs_wf s :
  wf_seq s -> has_string_seq s = false ->
  Forall (fun e => wf_expr e /\ has_string e = false) (exprs s).
Proof.
  induction s as [|g e rest IH]; intros Hwf Hs; cbn [exprs]; constructor;
    inversion Hwf; subst;
    cbn [has_string_seq] in Hs; apply orb_false_iff in Hs as [Hse Hsr]; auto.
Qed.

(** The lines of what a program without strings emits are its statements, one
    for each top-level expression and in their order; none is empty. *)
Lemma lines_emit p :
  wf_program p -> has_string_seq (top p) = false -> exprs (top p) <> [] ->
  lines (emit p) = map emit_statement (exprs (top p))
  /\ Forall (fun line => line <> []) (lines (emit p)).
Proof.
  intros [Hwf _] Hs Hne.
  pose proof (exprs_wf _ Hwf Hs) as Hall.
  assert (Hlines : lines (emit p) = map emit_statement (exprs (top p))).
  { unfold emit. apply lines_join.
    - destruct (exprs (top p)); [congruence | discriminate].
    - apply Forall_map. eapply Forall_impl; [ | exact Hall ].
      intros e [He Hse]. apply emit_statement_no_newline; auto. }
  split; auto. rewrite Hlines. apply Forall_map.
  eapply Forall_impl; [ | exact Hall ].
  intros e [He _]. apply emit_statement_nonempty; auto.
Qed.

(** ** The well-formedness check is sound *)

Lemma forallb_all class s : forallb class s = true -> all class s.
Proof.
  intros H. apply Forall_forall. intros u Hu.
  rewrite forallb_forall in H. auto.
Qed.

Lemma wf_check_sound :
  (forall e, wf_exprb e = true -> wf_expr e)
  /\ (forall s, wf_seqb s = true -> wf_seq s).
Proof.
  apply syntax_ind.
  - intros ds H. cbn [wf_exprb] in H. apply andb_true_iff in H as [Hne Hds].
    constructor.
    + destruct ds; [discriminate | congruence].
    + apply forallb_all; auto.
  - intros q cs H. cbn [wf_exprb] in H. apply andb_true_iff in H as [Hq Hnq].
    constructor.
    + apply orb_true_iff in Hq as [Hq | Hq]; apply N.eqb_eq in Hq; auto.
    + intros Hin. apply negb_true_iff in Hnq.
      assert (existsb (N.eqb q) cs = true)
        by (apply existsb_exists; exists q; split; auto; apply N.eqb_refl).
      congruence.
  - intros g name args IHargs g' H. cbn [wf_exprb] in H.
    repeat (apply andb_true_iff in H as [H ?]).
    constructor; auto using forallb_all.
    destruct name; [discriminate | congruence].
  - intros _. constructor.
  - intros g e IHe rest IHrest H. cbn [wf_seqb] in H.
    repeat (apply andb_true_iff in H as [H ?]).
    constructor; auto using forallb_all.
    intros Hnum. rewrite Hnum in *. cbn in *. apply negb_true_iff. assumption.
Qed.

Lemma wf_programb_sound p : wf_programb p = true -> wf_program p.
Proof.
  unfold wf_programb. intros H. apply andb_true_iff in H as [Hs Ht].
  split; [apply (proj2 wf_check_sound); auto | apply forallb_all; auto].
Qed.

(** ** The loop on a name that reaches the end of the input *)

Lemma scan_name_past_end fuel :
  forall input curr value,
    length input <= curr -> scan_name fuel input curr None value = OutOfFuel.
Proof.
  induction fuel as [|fuel IH]; intros input curr value Hle; [reflexivity|].
  cbn [scan_name].
  change (regexp_test LETTERS None) with true. cbv iota.
  replace (char_at input (S curr)) with (@None N)
    by (symmetry; apply nth_error_None; lia).
  apply IH. lia.
Qed.

Lemma scan_name_to_end word :
  forall fuel pre value,
    all LETTERS word ->
    scan_name fuel (pre ++ word) (length pre) (char_at (pre ++ word) (length pre)) value
    = OutOfFuel.
Proof.
  induction word as [|d ds IH]; intros fuel pre value Hword.
  - rewrite app_nil_r, char_at_end. apply scan_name_past_end. lia.
  - inversion Hword as [|? ? Hd Hds]; subst.
    rewrite char_at_middle.
    destruct fuel as [|fuel]; cbn [scan_name]; rewrite regexp_test_some, Hd;
      [reflexivity|].
    rewrite <- length_snoc with (c := d).
    rewrite (snoc_app pre d ds). apply IH. assumption.
Qed.

(** ** The tokenizer on an arbitrary input *)

(** The longest run of a class at the head of a text. *)
Lemma longest_run class s :
  exists run k,
    s = run ++ k /\ all class run
    /\ match k with
       | [] => True
       | c :: _ => class c = false
       end.
Proof.
  induction s as [|c s (run & k & -> & Hrun & Hk)].
  - exists [], []. repeat split. constructor.
  - destruct (class c) eqn:Hc.
    + exists (c :: run), k. repeat split; auto. constructor; auto.
    + exists [], (c :: run ++ k). repeat split; auto. constructor.
Qed.

(** The first later occurrence of a character, if there is one. *)
Lemma first_occurrence (x : N) s :
  (exists before after, s = before ++ x :: after /\ ~ In x before) \/ ~ In x s.
Proof.
  induction s as [|c s [(before & after & -> & Hb) | Hnone]].
  - right. intros [].
  - destruct (N.eq_dec c x) as [->|Hc].
    + left. exists [], (before ++ x :: after). split; [reflexivity | intros []].
    + left. exists (c :: before), after. split; [reflexivity|].
      intros [H|H]; [congruence | auto].
  - destruct (N.eq_dec c x) as [->|Hc].
    + left. exists [], s. split; [reflexivity | intros []].
    + right. intros [H|H]; [congruence | auto].
Qed.

Lemma verdict_digits digits k :
  all NUMBERS digits -> scan_verdict None (digits ++ k) = scan_verdict None k.
Proof.
  induction 1 as [|d ds Hd Hds IH]; [reflexivity|].
  cbn [app scan_verdict]. rewrite Hd, orb_true_r. exact IH.
Qed.

Lemma verdict_letters name c k :
  all LETTERS name -> LETTERS c = false ->
  scan_verdict None (name ++ c :: k) = scan_verdict None (c :: k).
Proof.
  induction 1 as [|d ds Hd Hds IH]; intros Hc; [reflexivity|].
  rewrite <- (IH Hc). clear IH.
  cbn [app]. generalize (ds ++ c :: k) (app_cons_not_nil ds k c).
  intros rest Hrest. cbn [scan_verdict].
  replace (is_paren d || WHITESPACE d || NUMBERS d)%bool with false.
  2:{ symmetry. unfold is_paren.
      replace (N.eqb d LPAREN || N.eqb d RPAREN)%bool with false
        by (symmetry; class_false).
      replace (WHITESPACE d) with false by (symmetry; class_false).
      replace (NUMBERS d) with false by (symmetry; class_false).
      reflexivity. }
  replace (is_quote d) with false by (symmetry; unfold is_quote; class_false).
  rewrite Hd. destruct rest; [congruence | reflexivity].
Qed.

Lemma verdict_letters_end name :
  name <> [] -> all LETTERS name -> scan_verdict None name = OpenName.
Proof.
  intros Hne Hname. induction Hname as [|d ds Hd Hds IH]; [congruence|].
  cbn [scan_verdict].
  replace (is_paren d || WHITESPACE d || NUMBERS d)%bool with false.
  2:{ symmetry. unfold is_paren.
      replace (N.eqb d LPAREN || N.eqb d RPAREN)%bool with false
        by (symmetry; class_false).
      replace (WHITESPACE d) with false by (symmetry; class_false).
      replace (NUMBERS d) with false by (symmetry; class_false).
      reflexivity. }
  replace (is_quote d) with false by (symmetry; unfold is_quote; class_false).
  rewrite Hd. destruct ds as [|d' ds']; [reflexivity|].
  apply IH. discriminate.
Qed.

Lemma verdict_string_closed quote chars k :
  ~ In quote chars ->
  scan_verdict (Some quote) (chars ++ quote :: k) = scan_verdict None k.
Proof.
  induction chars as [|c cs IH]; intros Hnq; cbn [app scan_verdict].
  - rewrite N.eqb_refl. reflexivity.
  - replace (N.eqb c quote) with false.
    + apply IH. intros Hin. apply Hnq. right. exact Hin.
    + symmetry. apply N.eqb_neq. intros ->. apply Hnq. left. reflexivity.
Qed.

Lemma verdict_string_open quote chars :
  ~ In quote chars -> scan_verdict (Some quote) chars = OpenString.
Proof.
  induction chars as [|c cs IH]; intros Hnq; cbn [scan_verdict]; [reflexivity|].
  replace (N.eqb c quote) with false.
  - apply IH. intros Hin. apply Hnq. right. exact Hin.
  - symmetry. apply N.eqb_neq. intros ->. apply Hnq. left. reflexivity.
Qed.

(** The loop on a string that is never closed. *)
Lemma scan_string_past_end fuel :
  forall input curr quote value,
    length input <= curr ->
    scan_string fuel input curr (Some quote) None value = OutOfFuel.
Proof.
  induction fuel as [|fuel IH]; intros input curr quote value Hle; [reflexivity|].
  cbn [scan_string loose_neq].
  replace (char_at input (S curr)) with (@None N)
    by (symmetry; apply nth_error_None; lia).
  apply IH. lia.
Qed.

Lemma scan_string_to_end chars :
  forall fuel pre quote value,
    ~ In quote chars ->
    scan_string fuel (pre ++ chars) (length pre) (Some quote)
      (char_at (pre ++ chars) (length pre)) value
    = OutOfFuel.
Proof.
  induction chars as [|c cs IH]; intros fuel pre quote value Hnq.
  - rewrite app_nil_r, char_at_end. apply scan_string_past_end. lia.
  - rewrite char_at_middle.
    assert (Hc : N.eqb c quote = false).
    { apply N.eqb_neq. intros ->. apply Hnq. left. reflexivity. }
    destruct fuel as [|fuel]; cbn [scan_string loose_neq]; rewrite Hc; cbn [negb];
      [reflexivity|].
    rewrite <- length_snoc with (c := c).
    rewrite (snoc_app pre c cs). apply IH.
    intros Hin. apply Hnq. right. exact Hin.
Qed.

Lemma behaves_open_string pre quote chars tokens :
  is_quote quote = true -> ~ In quote chars ->
  behaves (pre ++ quote :: chars) (length pre) tokens OpenString.
Proof.
  intros Hq Hnq [|fuel]; [reflexivity|].
  destruct (quote_tests quote Hq) as (Hp & Hw & Hn & Hqq).
  unfold loop_from. cbn [tokenizer_loop].
  rewrite in_bounds, char_at_middle, Hp, !regexp_test_some, Hw, Hn, Hqq.
  pose proof (scan_string_to_end chars fuel (pre ++ [quote]) quote [] Hnq) as Hrun.
  rewrite length_snoc in Hrun. rewrite <- !app_assoc in Hrun. cbn [app] in Hrun.
  rewrite Hrun. reflexivity.
Qed.

Lemma behaves_open_name pre name tokens :
  name <> [] -> all LETTERS name ->
  behaves (pre ++ name) (length pre) tokens OpenName.
Proof.
  intros Hne Hname [|fuel]; [reflexivity|].
  destruct name as [|d ds]; [congruence|].
  pose proof (scan_name_to_end (d :: ds) fuel pre [] Hname) as Hrun.
  inversion Hname as [|? ? Hd Hds]; subst.
  rewrite char_at_middle in Hrun.
  unfold loop_from. cbn [tokenizer_loop].
  rewrite in_bounds, char_at_middle.
  replace (char_is (Some d) LPAREN || char_is (Some d) RPAREN)%bool with false
    by (symmetry; class_false).
  rewrite !regexp_test_some.
  replace (WHITESPACE d) with false by (symmetry; class_false).
  replace (NUMBERS d) with false by (symmetry; class_false).
  replace (char_is (Some d) DQUOTE || char_is (Some d) SQUOTE)%bool with false
    by (symmetry; class_false).
  rewrite Hd, Hrun. reflexivity.
Qed.

Lemma behaves_bad_char pre c k tokens :
  is_paren c = false -> WHITESPACE c = false -> NUMBERS c = false ->
  is_quote c = false -> LETTERS c = false ->
  behaves (pre ++ c :: k) (length pre) tokens (BadChar c).
Proof.
  intros Hp Hw Hn Hq Hl. exists 1. intros [|fuel] Hle; [lia|].
  unfold loop_from. cbn [tokenizer_loop].
  rewrite in_bounds, char_at_middle, !regexp_test_some, Hw, Hn, Hl.
  unfold is_paren, is_quote in *. cbn [char_is]. rewrite Hp, Hq. reflexivity.
Qed.

Lemma behaves_end input tokens : behaves input (length input) tokens Lexes.
Proof.
  exists tokens, 1. intros [|fuel] Hle; [lia|].
  unfold loop_from. cbn [tokenizer_loop]. rewrite Nat.ltb_irrefl. reflexivity.
Qed.

(** From any position between two tokens the main loop ends as the verdict
    of the rest of the input says. *)
Lemma tokenizer_loop_verdict n :
  forall suffix, length suffix <= n ->
    forall pre tokens,
      behaves (pre ++ suffix) (length pre) tokens (scan_verdict None suffix).
Proof.
  induction n as [|n IH]; intros suffix Hlen pre tokens.
  { destruct suffix; [ | cbn in Hlen; lia ].
    rewrite app_nil_r. apply behaves_end. }
  destruct suffix as [|c rest]; [rewrite app_nil_r; apply behaves_end|].
  cbn [length] in Hlen.
  destruct (is_paren c) eqn:Hp.
  { cbn [scan_verdict]. rewrite Hp. cbn [orb].
    eapply token_step_behaves; [apply step_paren; assumption|].
    rewrite snoc_app. apply IH. lia. }
  destruct (WHITESPACE c) eqn:Hw.
  { cbn [scan_verdict]. rewrite Hp, Hw. cbn [orb].
    eapply token_step_behaves; [apply step_space; assumption|].
    rewrite snoc_app. apply IH. lia. }
  destruct (NUMBERS c) eqn:Hn.
  { destruct (longest_run NUMBERS rest) as (run & k & -> & Hrun & Hk).
    change (c :: run ++ k) with ((c :: run) ++ k).
    rewrite verdict_digits by (constructor; assumption).
    eapply token_step_behaves.
    - apply step_number with (digits := c :: run); [discriminate | constructor; auto | ].
      destruct k; auto.
    - rewrite app_assoc. apply IH.
      rewrite length_app in Hlen. lia. }
  destruct (is_quote c) eqn:Hq.
  { cbn [scan_verdict]. rewrite Hp, Hw, Hn, Hq. cbn [orb].
    destruct (first_occurrence c rest) as [(chars & k & -> & Hnq) | Hnq].
    - rewrite verdict_string_closed by assumption.
      eapply token_step_behaves; [apply step_string; assumption|].
      replace (pre ++ c :: chars ++ c :: k) with ((pre ++ c :: chars ++ [c]) ++ k)
        by (rewrite <- !app_assoc; cbn [app]; rewrite <- !app_assoc; reflexivity).
      apply IH. rewrite length_app in Hlen. cbn [length] in Hlen. lia.
    - rewrite verdict_string_open by assumption.
      apply behaves_open_string; assumption. }
  destruct (LETTERS c) eqn:Hl.
  { destruct (longest_run LETTERS rest) as (run & k & -> & Hrun & Hk).
    change (c :: run ++ k) with ((c :: run) ++ k).
    destruct k as [|c' k'].
    - rewrite app_nil_r.
      rewrite verdict_letters_end by (try discriminate; constructor; assumption).
      apply behaves_open_name; [discriminate | constructor; assumption].
    - rewrite verdict_letters by (try assumption; constructor; assumption).
      eapply token_step_behaves.
      + apply step_name with (name := c :: run);
          [discriminate | constructor; auto | exists c', k'; auto].
      + rewrite app_assoc. apply IH.
        rewrite length_app in Hlen. cbn [length] in *. lia. }
  cbn [scan_verdict]. rewrite Hp, Hw, Hn, Hq, Hl. cbn [orb].
  apply behaves_bad_char; assumption.
Qed.

(** How the tokenizer ends on any input: it returns the tokens, it throws
    the syntax error at the first character it rejects, or it never comes
    back, caught in a string that is not closed or in a name at the end of
    the input. *)
Theorem tokenizer_verdict input :
  match scan_verdict None input with
  | Lexes => exists tokens, tokenizer_returns input tokens
  | BadChar c => tokenizer_throws input (TypeError (js "Syntax error : " ++ [c]))
  | OpenString | OpenName => tokenizer_diverges input
  end.
Proof.
  pose proof (tokenizer_loop_verdict (length input) input (le_n _) [] []) as H.
  destruct (scan_verdict None input); exact H.
Qed.

(** An input that ends in a name has all its quotes matched. *)
Lemma verdict_quotes_matched s :
  forall opened,
    scan_verdict opened s = OpenName -> quotes_matched_from opened s = true.
Proof.
  induction s as [|c rest IH]; intros opened Hv.
  - destruct opened; discriminate Hv.
  - cbn [scan_verdict quotes_matched_from] in *.
    destruct opened as [quote|].
    + destruct (N.eqb c quote); auto.
    + fold (is_quote c).
      destruct (is_quote c) eqn:Hq.
      * replace (is_paren c || WHITESPACE c || NUMBERS c)%bool with false in Hv; auto.
        symmetry. unfold is_quote, is_paren in *.
        apply orb_true_iff in Hq as [Hq|Hq]; apply N.eqb_eq in Hq; subst; reflexivity.
      * destruct (is_paren c || WHITESPACE c || NUMBERS c)%bool; auto.
        destruct (LETTERS c); [ | discriminate Hv ].
        destruct rest; [reflexivity | auto].
Qed.

(** An input that leaves a string open has an unmatched quote. *)
Lemma verdict_open_string_unmatched s :
  forall opened,
    scan_verdict opened s = OpenString -> quotes_matched_from opened s = false.
Proof.
  induction s as [|c rest IH]; intros opened Hv.
  - destruct opened; [reflexivity | discriminate Hv].
  - cbn [scan_verdict quotes_matched_from] in *.
    destruct opened as [quote|].
    + destruct (N.eqb c quote); auto.
    + fold (is_quote c).
      destruct (is_quote c) eqn:Hq.
      * replace (is_paren c || WHITESPACE c || NUMBERS c)%bool with false in Hv; auto.
        symmetry. unfold is_quote, is_paren in *.
        apply orb_true_iff in Hq as [Hq|Hq]; apply N.eqb_eq in Hq; subst; reflexivity.
      * destruct (is_paren c || WHITESPACE c || NUMBERS c)%bool; auto.
        destruct (LETTERS c); [ | discriminate Hv ].
        destruct rest; [discriminate Hv | auto].
Qed.

(** On an input whose quotes are matched and that does not end in a name,
    the tokenizer terminates: it returns the tokens or throws the syntax
    error. *)
Theorem tokenizer_settles input :
  quotes_matched input = true -> scan_verdict None input <> OpenName ->
  exists r, settled r /\ eventually (fun fuel => tokenizer fuel input) r.
Proof.
  intros Hq Hname. pose proof (tokenizer_verdict input) as H.
  destruct (scan_verdict None input) as [|c| |] eqn:Hv.
  - destruct H as [tokens H]. exists (Returns tokens). split; [ | exact H ].
    unfold settled. congruence.
  - eexists. split; [ | exact H ]. unfold settled. congruence.
  - apply verdict_open_string_unmatched in Hv. unfold quotes_matched in Hq. congruence.
  - congruence.
Qed.

(** ** The call at an opening parenthesis *)

(** At an opening parenthesis, [walk] reads the next token, whatever it is,
    for the name of the call, and collects the parameters after it. *)
Lemma walk_open fuel pre t k :
  walk (S fuel) (pre ++ mkToken "parenthesis" [LPAREN] :: t :: k) (length pre)
  = ('(params, curr') <-
       walk_params fuel (pre ++ mkToken "parenthesis" [LPAREN] :: t :: k)
         (S (S (length pre)))
         (token_at (pre ++ mkToken "parenthesis" [LPAREN] :: t :: k)
            (S (S (length pre)))) [] ;;
     Returns (CallExpression (value t) params, S curr')).
Proof.
  cbn [walk]. rewrite token_at_middle.
  cbn [type value String.eqb Ascii.eqb Bool.eqb andb].
  rewrite jseqb_refl.
  replace (token_at (pre ++ mkToken "parenthesis" [LPAREN] :: t :: k) (S (length pre)))
    with (Some t); [reflexivity|].
  rewrite (snoc_app pre (mkToken "parenthesis" [LPAREN])).
  rewrite <- length_snoc with (c := mkToken "parenthesis" [LPAREN]).
  rewrite token_at_middle. reflexivity.
Qed.

Lemma walk_any_callee t args pre k :
  eventually
    (fun fuel =>
       walk fuel
         (pre ++ mkToken "parenthesis" [LPAREN] :: t
              :: tokens_seq args ++ mkToken "parenthesis" [RPAREN] :: k)
         (length pre))
    (Returns (CallExpression (value t) (ast_seq args),
              length pre + 2 + length (tokens_seq args) + 1)).
Proof.
  set (tokens := pre ++ mkToken "parenthesis" [LPAREN] :: t
                     :: tokens_seq args ++ mkToken "parenthesis" [RPAREN] :: k).
  destruct (proj2 walk_syntax args tokens
              (pre ++ [mkToken "parenthesis" [LPAREN]; t]) k [])
    as [fuel Hargs]; [subst tokens; list_eq|].
  assert (Hlen : length (pre ++ [mkToken "parenthesis" [LPAREN]; t])
                 = S (S (length pre)))
    by (rewrite length_app; cbn [length]; lia).
  rewrite Hlen in Hargs.
  assert (Hrun : walk (S fuel) tokens (length pre)
                 = Returns (CallExpression (value t) (ast_seq args),
                            length pre + 2 + length (tokens_seq args) + 1)).
  { subst tokens. rewrite walk_open. rewrite Hargs. cbn [bind app].
    f_equal. f_equal. rewrite !length_app. cbn [length]. lia. }
  exists (S fuel). intros fuel' Hle.
  apply (proj1 (walk_mono (S fuel))); [exact Hrun | unfold settled; congruence | exact Hle].
Qed.

Lemma parser_any_callee t args :
  parser_returns
    (mkToken "parenthesis" [LPAREN] :: t
       :: tokens_seq args ++ [mkToken "parenthesis" [RPAREN]])
    (Program [CallExpression (value t) (ast_seq args)]).
Proof.
  destruct (walk_any_callee t args [] []) as [n Hwalk].
  apply parser_returns_at with (n := S (S n)).
  unfold parser. cbn [parser_loop app length] in *.
  rewrite (Hwalk (S n)) by lia. cbn [bind app].
  replace (0 + 2 + length (tokens_seq args) + 1)
    with (S (S (length (tokens_seq args ++ [mkToken "parenthesis" [RPAREN]]))))
    by (rewrite length_app; cbn [length]; lia).
  rewrite Nat.ltb_irrefl. reflexivity.
Qed.

(** ** The output of a well-formed program that compiles *)

(** A well-formed program that compiles has no string, and its output is
    what it emits. *)
Lemma compile_returns_plain p output :
  wf_program p -> compile_returns (text p) output ->
  has_string_seq (top p) = false /\ output = emit p.
Proof.
  intros Hwf Hout.
  destruct (has_string_seq (top p)) eqn:Hs.
  - pose proof (compile_string p Hwf Hs) as Hthrow.
    pose proof (eventually_unique _ _ _ Hout Hthrow) as Heq. discriminate Heq.
  - pose proof (compile_plain p Hwf Hs) as Hret.
    pose proof (eventually_unique _ _ _ Hout Hret) as Heq.
    split; [reflexivity | congruence].
Qed.

(** * The claims of the specification *)

(** C1.  The specification expects [(concat "foo" "bar")] to compile to
    [concat("foo", "bar");].  The compiler does not return on that input:
    the parser tags a string node [stringLiteral], the traversal only knows
    [StringLiteral], and the traversal throws a TypeError whose message is
    [stringLiteral].  So it does on every well-formed program with a string
    literal in it. *)
Theorem concat_strings_throws :
  compile_throws
    (js "(concat " ++ quoted (js "foo") ++ js " " ++ quoted (js "bar") ++ js ")")
    (TypeError (js "stringLiteral"))
  /\ (forall p,
        wf_program p -> has_string_seq (top p) = true ->
        compile_throws (text p) (TypeError (js "stringLiteral"))).
Proof.
  split.
  - apply compile_throws_at with (n := 40). vm_compute. reflexivity.
  - intros p Hwf Hs. apply compile_string; assumption.
Qed.

Lemma concat_strings_throws_witness :
  compile_throws (text concat_sample) (TypeError (js "stringLiteral")).
Proof.
  apply (proj2 concat_strings_throws concat_sample).
  - apply wf_programb_sound. reflexivity.
  - reflexivity.
Defined.

(** C2.  The specification expects the traversal never to meet a node type
    it does not handle on a tree built by the parser.  It does: for a single
    string token, whatever its text, the parser returns a program whose one
    statement is a [stringLiteral] node, and the transformer throws at the
    [default] case of its switch on that tree. *)
Theorem parsed_string_unhandled (chars : jsstring) :
  parser_returns [mkToken "string" chars] (Program [stringLiteral chars])
  /\ transform (Program [stringLiteral chars])
     = Throws (TypeError (js "stringLiteral")).
Proof.
  split.
  - apply parser_returns_at with (n := 2). reflexivity.
  - reflexivity.
Qed.

(** C3, as stated, fails: on [(add 2] no [throw] statement of the program is
    reached, so the error of the run is not one the parser reports. *)
Lemma unbalanced_call_not_reported :
  ~ exists e, compile_throws (js "(add 2") e /\ thrown_by_program e.
Proof.
  intros (e & He & message & ->).
  assert (H : compile_throws (js "(add 2") (UndefinedRead "type"))
    by (apply compile_throws_at with (n := 20); vm_compute; reflexivity).
  pose proof (eventually_unique _ _ _ He H) as Heq. discriminate Heq.
Qed.

(** C3, amended.  On the unbalanced input [(add 2] the tokenizer returns the
    three tokens, and the parser fails: in the loop that collects the
    parameters of the call the cursor passes the last token, the token read
    there is undefined, and reading its [type] raises the TypeError of the
    runtime.  The compiler fails with that error. *)
Theorem unbalanced_call_undefined_read :
  tokenizer_returns (js "(add 2")
    [mkToken "parenthesis" (js "("); mkToken "name" (js "add");
     mkToken "number" (js "2")]
  /\ parser_throws
       [mkToken "parenthesis" (js "("); mkToken "name" (js "add");
        mkToken "number" (js "2")]
       (UndefinedRead "type")
  /\ compile_throws (js "(add 2") (UndefinedRead "type").
Proof.
  split; [ | split ].
  - apply tokenizer_returns_at with (n := 20). vm_compute. reflexivity.
  - apply parser_throws_at with (n := 20). vm_compute. reflexivity.
  - apply compile_throws_at with (n := 20). vm_compute. reflexivity.
Qed.

(** C4.  The specification expects the tokenizer to return on every input
    whose quotes are matched.  It does not when a name touches the end of the
    input, although every quote of such an input is matched: the loop that
    collects the name tests [LETTERS] on the character past the end, which is
    undefined and is converted to the text [undefined], a match; the loop
    never ends.  ([tokenizer_verdict] gives the outcome on every input.) *)
Theorem name_at_end_diverges (input : jsstring) :
  scan_verdict None input = OpenName ->
  quotes_matched input = true /\ tokenizer_diverges input.
Proof.
  intros Hv. split.
  - apply (verdict_quotes_matched input None). exact Hv.
  - pose proof (tokenizer_verdict input) as H. rewrite Hv in H. exact H.
Qed.

Lemma name_at_end_diverges_witness :
  quotes_matched (js "(add") = true /\ tokenizer_diverges (js "(add").
Proof.
  apply (name_at_end_diverges (js "(add")). reflexivity.
Defined.

(** C5, as stated, fails: the empty text is a well-formed program (no
    expression at all) and compiles to the empty string, so it is not true
    that every well-formed program compiles to a non-empty string. *)
Lemma empty_program_compiles_to_empty :
  ~ (forall p, wf_program p ->
       exists output,
         compile_returns (text p) output /\ output <> []
         /\ length (lines output) = length (exprs (top p))).
Proof.
  intros Hclaim.
  destruct (Hclaim (mkProgram SNil [])) as (output & Hout & Hne & _).
  - split; constructor.
  - assert (H : compile_returns [] [])
      by (apply compile_returns_at with (n := 2); reflexivity).
    pose proof (eventually_unique _ _ _ Hout H) as Heq.
    apply Hne. congruence.
Qed.

(** C5, amended.  For every well-formed program with at least one top-level
    expression and no string literal, the compiler terminates and returns a
    non-empty text whose lines are the statements of the top-level
    expressions, one non-empty line for each, in order. *)
Theorem plain_program_one_line_each (p : program) :
  wf_program p -> has_string_seq (top p) = false -> exprs (top p) <> [] ->
  exists output,
    compile_returns (text p) output
    /\ output <> []
    /\ lines output = map emit_statement (exprs (top p))
    /\ length (lines output) = length (exprs (top p))
    /\ Forall (fun line => line <> []) (lines output).
Proof.
  intros Hwf Hs Hne. exists (emit p).
  destruct (lines_emit p Hwf Hs Hne) as [Hlines Hnonempty].
  split; [apply compile_plain; assumption|].
  split.
  { intros Hempty. rewrite Hempty in Hlines.
    destruct (exprs (top p)) as [|e rest] eqn:He; [congruence|].
    cbn in Hlines. injection Hlines as Hline _.
    rewrite Hempty in Hnonempty. cbn in Hnonempty.
    inversion Hnonempty as [|? ? Hfirst _]. congruence. }
  split; [assumption|].
  split; [rewrite Hlines; apply length_map | assumption].
Qed.

Lemma plain_program_one_line_each_witness :
  exists output,
    compile_returns (text two_calls_sample) output
    /\ output <> []
    /\ lines output = map emit_statement (exprs (top two_calls_sample))
    /\ length (lines output) = length (exprs (top two_calls_sample))
    /\ Forall (fun line => line <> []) (lines output).
Proof.
  apply (plain_program_one_line_each two_calls_sample).
  - apply wf_programb_sound. reflexivity.
  - reflexivity.
  - discriminate.
Defined.

(** C7.  The parser takes as the name of a call the text of the token that
    follows the opening parenthesis, whatever that token is: at an opening
    parenthesis followed by a token [t], [walk] does nothing but collect the
    parameters from the token after [t] and return the [CallExpression]
    named by the value of [t]; so for every token [t], of any type and
    value, followed by the tokens of arguments and a closing parenthesis,
    [walk] returns the call named by the value of [t], and the parser
    returns the program of that call.  In particular the call parsed from
    [(2 3)] is named [2], and [(2 3)] compiles to [2(3);]. *)
Theorem callee_is_next_token :
  (forall fuel pre t k,
      walk (S fuel) (pre ++ mkToken "parenthesis" [LPAREN] :: t :: k) (length pre)
      = ('(params, curr') <-
           walk_params fuel (pre ++ mkToken "parenthesis" [LPAREN] :: t :: k)
             (S (S (length pre)))
             (token_at (pre ++ mkToken "parenthesis" [LPAREN] :: t :: k)
                (S (S (length pre)))) [] ;;
         Returns (CallExpression (value t) params, S curr')))
  /\ (forall t args pre k,
        eventually
          (fun fuel =>
             walk fuel
               (pre ++ mkToken "parenthesis" [LPAREN] :: t
                    :: tokens_seq args ++ mkToken "parenthesis" [RPAREN] :: k)
               (length pre))
          (Returns (CallExpression (value t) (ast_seq args),
                    length pre + 2 + length (tokens_seq args) + 1)))
  /\ (forall t args,
        parser_returns
          (mkToken "parenthesis" [LPAREN] :: t
             :: tokens_seq args ++ [mkToken "parenthesis" [RPAREN]])
          (Program [CallExpression (value t) (ast_seq args)]))
  /\ tokenizer_returns (js "(2 3)")
       [mkToken "parenthesis" (js "("); mkToken "number" (js "2");
        mkToken "number" (js "3"); mkToken "parenthesis" (js ")")]
  /\ parser_returns
       [mkToken "parenthesis" (js "("); mkToken "number" (js "2");
        mkToken "number" (js "3"); mkToken "parenthesis" (js ")")]
       (Program [CallExpression (js "2") [NumberLiteral (js "3")]])
  /\ compile_returns (js "(2 3)") (js "2(3);").
Proof.
  split; [ | split; [ | split; [ | split; [ | split ] ] ] ].
  - intros fuel pre t k. apply walk_open.
  - intros t args pre k. apply walk_any_callee.
  - intros t args. apply parser_any_callee.
  - apply tokenizer_returns_at with (n := 20). vm_compute. reflexivity.
  - apply parser_returns_at with (n := 20). vm_compute. reflexivity.
  - apply compile_returns_at with (n := 20). vm_compute. reflexivity.
Qed.

Lemma callee_is_next_token_witness :
  parser_returns
    [mkToken "parenthesis" (js "("); mkToken "string" (js "f");
     mkToken "number" (js "3"); mkToken "parenthesis" (js ")")]
    (Program [CallExpression (js "f") [NumberLiteral (js "3")]]).
Proof.
  apply (proj1 (proj2 (proj2 callee_is_next_token))
           (mkToken "string" (js "f")) (SCons [] (SNumber (js "3")) SNil)).
Defined.

(** C8.  The statements of a program are emitted one per line, joined by a
    single newline, in the order of the source: whenever a well-formed
    program compiles, the output is the statements of its top-level
    expressions, in their order, joined by one newline each, and the lines
    of the output are those statements; and a well-formed program without
    strings does compile.  In particular [(a 1) (b 2)] compiles to [a(1);],
    a newline, [b(2);]. *)
Theorem statements_joined_by_newline :
  compile_returns (js "(a 1) (b 2)") (js "a(1);" ++ [NEWLINE] ++ js "b(2);")
  /\ (forall p,
        wf_program p ->
        (has_string_seq (top p) = false ->
         compile_returns (text p)
           (join [NEWLINE] (map emit_statement (exprs (top p)))))
        /\ (forall output,
              compile_returns (text p) output ->
              output = join [NEWLINE] (map emit_statement (exprs (top p)))
              /\ (exprs (top p) <> [] ->
                  lines output = map emit_statement (exprs (top p))))).
Proof.
  split.
  - apply compile_returns_at with (n := 20). vm_compute. reflexivity.
  - intros p Hwf. split; [apply compile_plain; assumption|].
    intros output Hout.
    destruct (compile_returns_plain p output Hwf Hout) as [Hs ->].
    split; [reflexivity|].
    intros Hne. apply (lines_emit p Hwf Hs Hne).
Qed.

Lemma statements_joined_by_newline_witness :
  js "a(1);" ++ [NEWLINE] ++ js "b(2);"
  = join [NEWLINE] (map emit_statement (exprs (top two_calls_sample)))
  /\ (exprs (top two_calls_sample) <> [] ->
      lines (js "a(1);" ++ [NEWLINE] ++ js "b(2);")
      = map emit_statement (exprs (top two_calls_sample))).
Proof.
  apply (proj2 (proj2 statements_joined_by_newline two_calls_sample
                  ltac:(apply wf_programb_sound; reflexivity))).
  apply compile_returns_at with (n := 20). vm_compute. reflexivity.
Defined.

(** C9.  Numeric literals are preserved: the tokenizer records a run of
    digits as the value of the number token, unchanged; the generator prints
    the value of a number node as it is; and whenever a well-formed program
    compiles, the output is its emitted text, in which each number is the
    run of digits it has in the input. *)
Theorem digits_preserved :
  (forall input pre digits k value,
      input = pre ++ digits ++ k -> all NUMBERS digits ->
      starts_digit k = false ->
      scan_number (length digits) input (length pre)
        (char_at input (length pre)) value
      = Returns (length (pre ++ digits), value ++ digits))
  /\ (forall fuel h digits,
        codeGenerator (S fuel) h (TNumberLiteral digits) = Returns digits)
  /\ (forall digits,
        text_expr (SNumber digits) = digits
        /\ emit_expr (SNumber digits) = digits)
  /\ (forall p,
        wf_program p ->
        (has_string_seq (top p) = false -> compile_returns (text p) (emit p))
        /\ (forall output, compile_returns (text p) output -> output = emit p)).
Proof.
  split; [ | split; [ | split ] ].
  - intros input pre digits k value -> Hds Hk. apply scan_number_run; assumption.
  - reflexivity.
  - intros digits. split; reflexivity.
  - intros p Hwf. split; [apply compile_plain; assumption|].
    intros output Hout.
    destruct (has_string_seq (top p)) eqn:Hs.
    + pose proof (compile_string p Hwf Hs) as Hthrow.
      pose proof (eventually_unique _ _ _ Hout Hthrow) as Heq. discriminate Heq.
    + pose proof (compile_plain p Hwf Hs) as Hret.
      pose proof (eventually_unique _ _ _ Hout Hret) as Heq. congruence.
Qed.

Lemma digits_preserved_witness :
  compile_returns (js "(add 007 12345678901234567890)")
    (js "add(007, 12345678901234567890);")
  /\ js "add(007, 12345678901234567890);" = emit digits_sample.
Proof.
  destruct (proj2 (proj2 (proj2 digits_preserved)) digits_sample) as [Hret Hout].
  - apply wf_programb_sound. reflexivity.
  - split.
    + apply Hret. reflexivity.
    + apply Hout. apply compile_returns_at with (n := 60). vm_compute. reflexivity.
Defined.

(** C10.  On the empty input, and on every input made of white space only,
    the tokenizer returns no token, the parser returns a program with an
    empty body, and the compiler returns the empty string. *)
Theorem blank_input_compiles_to_empty (input : jsstring) :
  all WHITESPACE input ->
  tokenizer_returns input []
  /\ parser_returns [] (Program [])
  /\ compile_returns input [].
Proof.
  intros Hblank.
  assert (Hwf : wf_program (mkProgram SNil input)) by (split; [constructor | assumption]).
  split; [ | split ].
  - apply (tokenizer_program (mkProgram SNil input) Hwf).
  - apply parser_returns_at with (n := 1). reflexivity.
  - apply (compile_plain (mkProgram SNil input) Hwf). reflexivity.
Qed.

Lemma blank_input_compiles_to_empty_witness :
  tokenizer_returns [32; 9; 10; 13; 160]%N []
  /\ parser_returns [] (Program [])
  /\ compile_returns [32; 9; 10; 13; 160]%N [].
Proof.
  apply (blank_input_compiles_to_empty [32; 9; 10; 13; 160]%N).
  apply forallb_all. reflexivity.
Defined.

(** * Further properties of the code *)

(** ** The parser terminates *)

Lemma token_at_in tokens curr t : token_at tokens curr = Some t -> In t tokens.
Proof. apply nth_error_In. Qed.

Lemma token_at_bound tokens curr t :
  token_at tokens curr = Some t -> curr < length tokens.
Proof.
  intros H. apply nth_error_Some. unfold token_at in H. congruence.
Qed.

Lemma token_at_past tokens curr :
  length tokens <= curr -> token_at tokens curr = None.
Proof. apply nth_error_None. Qed.

Lemma walk_settles k :
  forall tokens,
    (forall curr, length tokens - curr <= k ->
       exists fuel r, walk fuel tokens curr = r /\ walk_post tokens curr r)
    /\ (forall curr params, length tokens - curr <= k ->
          exists fuel r,
            walk_params fuel tokens curr (token_at tokens curr) params = r
            /\ params_post tokens curr params r).
Proof.
  induction k as [|k IH]; intros tokens.
  - split.
    + intros curr Hk. exists 1. eexists. split; [reflexivity|].
      cbn [walk]. rewrite token_at_past by lia. left. reflexivity.
    + intros curr params Hk. exists 1. eexists. split; [reflexivity|].
      cbn [walk_params]. rewrite token_at_past by lia. left. reflexivity.
  - destruct (IH tokens) as [_ IHp].
    assert (Hwalk : forall curr, length tokens - curr <= S k ->
              exists fuel r, walk fuel tokens curr = r /\ walk_post tokens curr r).
    { intros curr Hk.
      destruct (token_at tokens curr) as [token|] eqn:Ht.
      2:{ exists 1. eexists. split; [reflexivity|].
          cbn [walk]. rewrite Ht. left. reflexivity. }
      pose proof (token_at_bound _ _ _ Ht) as Hb.
      destruct (type token =? "number")%string eqn:Hnum.
      { exists 1. eexists. split; [reflexivity|].
        cbn [walk]. rewrite Ht, Hnum. cbn [walk_post].
        split; [lia | exists (SNumber (value token)); reflexivity]. }
      destruct (type token =? "string")%string eqn:Hstr.
      { exists 1. eexists. split; [reflexivity|].
        cbn [walk]. rewrite Ht, Hnum, Hstr. cbn [walk_post].
        split; [lia | exists (SString DQUOTE (value token)); reflexivity]. }
      destruct ((type token =? "parenthesis")%string
                && jseqb (value token) [LPAREN])%bool eqn:Hopen.
      2:{ exists 1. eexists. split; [reflexivity|].
          cbn [walk]. rewrite Ht, Hnum, Hstr, Hopen.
          right. right. exists token.
          split; [eapply token_at_in; eauto|].
          split; [apply String.eqb_neq; exact Hnum|].
          split; [apply String.eqb_neq; exact Hstr | reflexivity]. }
      destruct (token_at tokens (S curr)) as [token1|] eqn:Ht1.
      2:{ exists 1. eexists. split; [reflexivity|].
          cbn [walk]. rewrite Ht, Hnum, Hstr, Hopen, Ht1. right. left. reflexivity. }
      pose proof (token_at_bound _ _ _ Ht1) as Hb1.
      destruct (IHp (S (S curr)) [] ltac:(lia)) as (fuel & r & Hr & Hpost).
      exists (S fuel). eexists. split; [reflexivity|].
      cbn [walk]. rewrite Ht, Hnum, Hstr, Hopen, Ht1, Hr.
      destruct r as [[params curr']| |]; cbn [bind params_post walk_post] in *; auto.
      destruct Hpost as [Hc [s ->]].
      split; [lia | exists (SCall [] (value token1) s []); reflexivity]. }
    split; [exact Hwalk|].
    intros curr params Hk.
    destruct (token_at tokens curr) as [t|] eqn:Ht.
    2:{ exists 1. eexists. split; [reflexivity|]. left. reflexivity. }
    pose proof (token_at_bound _ _ _ Ht) as Hb.
    destruct (negb (type t =? "parenthesis")%string
              || ((type t =? "parenthesis")%string
                  && negb (jseqb (value t) [RPAREN])))%bool eqn:Hopen.
    2:{ exists 1. eexists. split; [reflexivity|].
        cbn [walk_params]. rewrite Hopen. cbn [params_post].
        split; [lia | exists SNil; cbn; rewrite app_nil_r; reflexivity]. }
    destruct (Hwalk curr Hk) as (f1 & r1 & Hr1 & Hpost1).
    destruct r1 as [[node curr1]|e|]; cbn [walk_post] in Hpost1; [ | | contradiction ].
    + destruct Hpost1 as [Hc1 [e ->]].
      destruct (IHp curr1 (params ++ [ast_expr e]) ltac:(lia))
        as (f2 & r2 & Hr2 & Hpost2).
      assert (Hset2 : settled r2) by (destruct r2; cbn in Hpost2;
                                      unfold settled; try congruence; contradiction).
      exists (S (Nat.max f1 f2)), r2. split.
      * cbn [walk_params]. rewrite Hopen.
        rewrite (proj1 (walk_mono f1) (Nat.max f1 f2) tokens curr _ Hr1)
          by (try lia; unfold settled; congruence).
        cbn [bind].
        apply (proj2 (walk_mono f2)); auto. lia.
      * destruct r2 as [[params' curr']| |]; cbn [params_post] in *; auto.
        destruct Hpost2 as [Hc2 [s ->]].
        split; [lia|]. exists (SCons [] e s). cbn [ast_seq].
        rewrite <- app_assoc. reflexivity.
    + exists (S f1). eexists. split; [reflexivity|].
      cbn [walk_params]. rewrite Hopen, Hr1. exact Hpost1.
Qed.

Lemma parser_loop_settles k :
  forall tokens curr body, length tokens - curr <= k ->
    exists fuel r,
      parser_loop fuel tokens curr body = r
      /\ match r with
         | Returns ast => exists s, ast = Program (body ++ ast_seq s)
         | Throws e => parser_error tokens e
         | OutOfFuel => False
         end.
Proof.
  induction k as [|k IH]; intros tokens curr body Hk.
  - exists 1. eexists. split; [reflexivity|]. cbn [parser_loop].
    replace (curr <? length tokens)%nat with false
      by (symmetry; apply Nat.ltb_ge; lia).
    exists SNil. cbn. rewrite app_nil_r. reflexivity.
  - destruct (curr <? length tokens)%nat eqn:Hlt.
    2:{ exists 1. eexists. split; [reflexivity|]. cbn [parser_loop]. rewrite Hlt.
        exists SNil. cbn. rewrite app_nil_r. reflexivity. }
    destruct (proj1 (walk_settles (length tokens - curr) tokens) curr (le_n _))
      as (f1 & r1 & Hr1 & Hpost1).
    destruct r1 as [[node curr1]|e|]; cbn [walk_post] in Hpost1; [ | | contradiction ].
    + destruct Hpost1 as [Hc1 [e ->]].
      destruct (IH tokens curr1 (body ++ [ast_expr e]) ltac:(lia))
        as (f2 & r2 & Hr2 & Hpost2).
      assert (Hset2 : settled r2) by (destruct r2; unfold settled;
                                      try congruence; contradiction).
      exists (S (Nat.max f1 f2)), r2. split.
      * cbn [parser_loop]. rewrite Hlt.
        rewrite (proj1 (walk_mono f1) (Nat.max f1 f2) tokens curr _ Hr1)
          by (try lia; unfold settled; congruence).
        cbn [bind]. apply parser_loop_mono with (n := f2); auto. lia.
      * destruct r2 as [ast| |]; auto.
        destruct Hpost2 as [s ->]. exists (SCons [] e s). cbn [ast_seq].
        rewrite <- app_assoc. reflexivity.
    + exists (S f1). eexists. split; [reflexivity|].
      cbn [parser_loop]. rewrite Hlt, Hr1. exact Hpost1.
Qed.

Lemma parser_settles (tokens : list Token) :
  (exists s, parser_returns tokens (Program (ast_seq s)))
  \/ (exists e, parser_throws tokens e /\ parser_error tokens e).
Proof.
  destruct (parser_loop_settles (length tokens) tokens 0 [] ltac:(lia))
    as (fuel & r & Hr & Hpost).
  destruct r as [ast|e|]; [ | | contradiction ].
  - destruct Hpost as [s ->]. left. exists s.
    apply parser_returns_at with (n := fuel). exact Hr.
  - right. exists e. split; [ | exact Hpost ].
    apply parser_throws_at with (n := fuel). exact Hr.
Qed.

(** X1.  The parser terminates on every sequence of tokens, whatever they
    are: it returns a program whose statements are expression trees
    (numbers, strings, calls of those), or it throws, and then the error is
    a read of [type] or [value] on a token past the end, or the parser's own
    TypeError, whose message is the type of one of the tokens, which is
    neither a number nor a string token. *)
Theorem parser_terminates (tokens : list Token) :
  (exists s, parser_returns tokens (Program (ast_seq s)))
  \/ (exists e, parser_throws tokens e /\ parser_error tokens e).
Proof. exact (parser_settles tokens). Qed.

(** ** The compiler terminates when the tokenizer does *)

Lemma compile_tokenizer_throws input e :
  tokenizer_throws input e -> compile_throws input e.
Proof.
  intros [n H]. exists n. intros fuel Hle. unfold compile.
  rewrite H by assumption. reflexivity.
Qed.

Lemma compile_tokenizer_diverges input :
  tokenizer_diverges input -> compile_diverges input.
Proof. intros H fuel. unfold compile. rewrite H. reflexivity. Qed.

Lemma compile_parser_throws input tokens e :
  tokenizer_returns input tokens -> parser_throws tokens e ->
  compile_throws input e.
Proof.
  intros [n1 H1] [n2 H2]. exists (Nat.max n1 n2). intros fuel Hle.
  unfold compile. rewrite H1 by lia. cbn [bind]. rewrite H2 by lia. reflexivity.
Qed.

Lemma compile_settles_after_lexing input tokens :
  tokenizer_returns input tokens ->
  exists r, settled r /\ eventually (fun fuel => compile fuel input) r.
Proof.
  intros Htok.
  destruct (parser_settles tokens) as [[s Hparse] | (e & Hthrow & _)].
  - destruct (has_string_seq s) eqn:Hs.
    + exists (Throws (TypeError (js "stringLiteral"))).
      split; [unfold settled; congruence|].
      apply compile_stages with (tokens := tokens) (ast := Program (ast_seq s)); auto.
      * exists 0. rewrite (transform_string _ Hs). reflexivity.
      * unfold settled. congruence.
    + destruct (transform_plain s Hs) as (h & Ht & [fuel Hgen]).
      exists (Returns (join [NEWLINE] (map emit_statement (exprs s)))).
      split; [ | apply compile_stages with (tokens := tokens)
                   (ast := Program (ast_seq s)); auto ].
      * unfold settled. congruence.
      * exists fuel. rewrite Ht. cbn [bind]. exact Hgen.
      * unfold settled. congruence.
  - exists (Throws e). split; [unfold settled; congruence|].
    apply compile_parser_throws with (tokens := tokens); assumption.
Qed.

(** X2.  Once the tokenizer has returned, the compiler always ends: the
    parser, the transformer and the generator terminate on every list of
    tokens, with a result or an exception.  An exception of the tokenizer is
    the exception of the compiler, and the compiler returns an output only
    on an input that the tokenizer turns into tokens. *)
Theorem compile_ends_once_tokenized (input : jsstring) :
  (forall tokens,
      tokenizer_returns input tokens ->
      exists r, settled r /\ eventually (fun fuel => compile fuel input) r)
  /\ (forall e, tokenizer_throws input e -> compile_throws input e)
  /\ (forall output,
        compile_returns input output ->
        exists tokens, tokenizer_returns input tokens).
Proof.
  split; [ | split ].
  - intros tokens. apply compile_settles_after_lexing.
  - intros e. apply compile_tokenizer_throws.
  - intros output Hout.
    pose proof (tokenizer_verdict input) as H.
    destruct (scan_verdict None input) as [|c| |].
    + exact H.
    + pose proof (compile_tokenizer_throws _ _ H) as Hthrow.
      pose proof (eventually_unique _ _ _ Hout Hthrow) as Heq. discriminate Heq.
    + destruct Hout as [n Hn]. specialize (Hn n (le_n _)).
      rewrite (compile_tokenizer_diverges _ H n) in Hn. discriminate Hn.
    + destruct Hout as [n Hn]. specialize (Hn n (le_n _)).
      rewrite (compile_tokenizer_diverges _ H n) in Hn. discriminate Hn.
Qed.

Lemma compile_ends_once_tokenized_witness :
  exists r, settled r /\ eventually (fun fuel => compile fuel (js "(add 2")) r.
Proof.
  apply (proj1 (compile_ends_once_tokenized (js "(add 2"))
           [mkToken "parenthesis" (js "("); mkToken "name" (js "add");
            mkToken "number" (js "2")]).
  apply tokenizer_returns_at with (n := 20). vm_compute. reflexivity.
Defined.

(** ** What the tokens hold *)

Lemma scan_number_value fuel :
  forall input curr char value curr' v,
    scan_number fuel input curr char value = Returns (curr', v) ->
    exists digits,
      v = value ++ digits /\ all NUMBERS digits
      /\ (regexp_test NUMBERS char = true -> digits <> []).
Proof.
  induction fuel as [|fuel IH]; intros input curr char value curr' v H;
    cbn [scan_number] in H;
    destruct (regexp_test NUMBERS char) eqn:Htest; try discriminate H.
  - injection H as <- <-. exists []. rewrite app_nil_r.
    repeat split; [constructor | discriminate].
  - destruct char as [d|]; [ | discriminate Htest ].
    rewrite regexp_test_some in Htest.
    destruct (IH _ _ _ _ _ _ H) as (ds & -> & Hds & _).
    exists (d :: ds). rewrite <- app_assoc.
    repeat split; [constructor; assumption | discriminate].
  - injection H as <- <-. exists []. rewrite app_nil_r.
    repeat split; [constructor | discriminate].
Qed.

Lemma scan_name_value fuel :
  forall input curr value curr' v,
    scan_name fuel input curr (char_at input curr) value = Returns (curr', v) ->
    exists letters,
      v = value ++ letters /\ all LETTERS letters
      /\ (regexp_test LETTERS (char_at input curr) = true -> letters <> []).
Proof.
  induction fuel as [|fuel IH]; intros input curr value curr' v H.
  - cbn [scan_name] in H.
    destruct (regexp_test LETTERS (char_at input curr)) eqn:Htest;
      [discriminate H|].
    injection H as <- <-. exists []. rewrite app_nil_r.
    repeat split; [constructor | discriminate].
  - destruct (char_at input curr) as [d|] eqn:Hchar.
    2:{ rewrite scan_name_past_end in H; [discriminate H|].
        apply nth_error_None. exact Hchar. }
    cbn [scan_name] in H. rewrite regexp_test_some in *.
    destruct (LETTERS d) eqn:Hd.
    + destruct (IH _ _ _ _ _ H) as (ds & -> & Hds & _).
      exists (d :: ds). cbn [ToString]. rewrite <- app_assoc.
      repeat split; [constructor; assumption | discriminate].
    + injection H as <- <-. exists []. rewrite app_nil_r.
      repeat split; [constructor | discriminate].
Qed.

Lemma tokenizer_loop_tokens fuel :
  forall input curr tokens result,
    tokenizer_loop fuel input curr tokens = Returns result ->
    exists more, result = tokens ++ more /\ Forall token_ok more.
Proof.
  induction fuel as [|fuel IH]; intros input curr tokens result H;
    [discriminate H|].
  cbn [tokenizer_loop] in H.
  assert (Hstep : forall curr' t,
            tokenizer_loop fuel input curr' (tokens ++ [t]) = Returns result ->
            token_ok t ->
            exists more, result = tokens ++ more /\ Forall token_ok more).
  { intros curr' t Hrun Ht.
    destruct (IH _ _ _ _ Hrun) as (more & -> & Hmore).
    exists (t :: more). rewrite <- app_assoc. split; [reflexivity|].
    constructor; assumption. }
  destruct (curr <? length input)%nat.
  2:{ injection H as <-. exists []. rewrite app_nil_r. split; [reflexivity | constructor]. }
  destruct (char_is (char_at input curr) LPAREN || char_is (char_at input curr) RPAREN)%bool
    eqn:Hparen.
  { apply (Hstep _ _ H). left. split; [reflexivity|].
    destruct (char_at input curr) as [c|]; [ | discriminate Hparen ].
    cbn [char_is] in Hparen. apply orb_true_iff in Hparen as [Hc|Hc];
      apply N.eqb_eq in Hc; subst c; cbn; auto. }
  destruct (regexp_test WHITESPACE (char_at input curr)).
  { apply (IH _ _ _ _ H). }
  destruct (regexp_test NUMBERS (char_at input curr)) eqn:Hnum.
  { destruct (scan_number fuel input curr (char_at input curr) [])
      as [[curr' v]| |] eqn:Hscan; cbn [bind] in H; try discriminate H.
    apply (Hstep _ _ H).
    destruct (scan_number_value _ _ _ _ _ _ _ Hscan) as (ds & -> & Hds & Hne).
    right. left. cbn. auto. }
  destruct (char_is (char_at input curr) DQUOTE || char_is (char_at input curr) SQUOTE)%bool.
  { destruct (scan_string fuel input (S curr) (char_at input curr)
                (char_at input (S curr)) [])
      as [[curr' v]| |]; cbn [bind] in H; try discriminate H.
    apply (Hstep _ _ H). right. right. left. reflexivity. }
  destruct (regexp_test LETTERS (char_at input curr)) eqn:Hlet; [ | discriminate H ].
  destruct (scan_name fuel input curr (char_at input curr) [])
    as [[curr' v]| |] eqn:Hscan; cbn [bind] in H; try discriminate H.
  apply (Hstep _ _ H).
  destruct (scan_name_value _ _ _ _ _ _ Hscan) as (ds & -> & Hds & Hne).
  right. right. right. cbn. auto.
Qed.

Lemma tokenizer_tokens_ok (input : jsstring) (tokens : list Token) :
  tokenizer_returns input tokens -> Forall token_ok tokens.
Proof.
  intros [n H]. specialize (H n (le_n _)). unfold tokenizer in H.
  destruct (tokenizer_loop_tokens _ _ _ _ _ H) as (more & -> & Hmore). exact Hmore.
Qed.

(** ** Where the tokens come from *)

Lemma skipn_char input :
  forall curr c,
    char_at input curr = Some c -> skipn curr input = c :: skipn (S curr) input.
Proof.
  unfold char_at.
  induction input as [|d input IH]; intros [|curr] c H; try discriminate H.
  - injection H as ->. reflexivity.
  - cbn [nth_error] in H. apply (IH _ _ H).
Qed.

Lemma scan_number_slice fuel :
  forall input curr value curr' v,
    scan_number fuel input curr (char_at input curr) value = Returns (curr', v) ->
    exists digits,
      v = value ++ digits /\ skipn curr input = digits ++ skipn curr' input.
Proof.
  induction fuel as [|fuel IH]; intros input curr value curr' v H;
    cbn [scan_number] in H;
    destruct (regexp_test NUMBERS (char_at input curr)) eqn:Htest;
    try discriminate H.
  - injection H as <- <-. exists []. rewrite app_nil_r. split; reflexivity.
  - destruct (char_at input curr) as [d|] eqn:Hchar; [ | discriminate Htest ].
    destruct (IH _ _ _ _ _ H) as (ds & -> & Hrest).
    exists (d :: ds). cbn [ToString]. rewrite <- app_assoc. split; [reflexivity|].
    rewrite (skipn_char _ _ _ Hchar), Hrest. reflexivity.
  - injection H as <- <-. exists []. rewrite app_nil_r. split; reflexivity.
Qed.

Lemma scan_name_slice fuel :
  forall input curr value curr' v,
    scan_name fuel input curr (char_at input curr) value = Returns (curr', v) ->
    exists letters,
      v = value ++ letters /\ skipn curr input = letters ++ skipn curr' input.
Proof.
  induction fuel as [|fuel IH]; intros input curr value curr' v H.
  - cbn [scan_name] in H.
    destruct (regexp_test LETTERS (char_at input curr)); [discriminate H|].
    injection H as <- <-. exists []. rewrite app_nil_r. split; reflexivity.
  - destruct (char_at input curr) as [d|] eqn:Hchar.
    2:{ rewrite scan_name_past_end in H; [discriminate H|].
        apply nth_error_None. exact Hchar. }
    cbn [scan_name] in H.
    destruct (regexp_test LETTERS (Some d)).
    + destruct (IH _ _ _ _ _ H) as (ds & -> & Hrest).
      exists (d :: ds). cbn [ToString]. rewrite <- app_assoc. split; [reflexivity|].
      rewrite (skipn_char _ _ _ Hchar), Hrest. reflexivity.
    + injection H as <- <-. exists []. rewrite app_nil_r. split; reflexivity.
Qed.

(** The loop on a string returns at the closing quote, with the characters
    before it, none of which is the quote. *)
Lemma scan_string_slice fuel :
  forall input curr quote value curr' v,
    scan_string fuel input curr (Some quote) (char_at input curr) value
    = Returns (curr', v) ->
    exists chars,
      v = value ++ chars /\ ~ In quote chars
      /\ skipn curr input = chars ++ quote :: skipn (S curr') input.
Proof.
  induction fuel as [|fuel IH]; intros input curr quote value curr' v H.
  - cbn [scan_string] in H.
    destruct (char_at input curr) as [d|] eqn:Hchar; [ | discriminate H ].
    cbn [loose_neq] in H.
    destruct (N.eqb d quote) eqn:Hd; cbn [negb] in H; [ | discriminate H ].
    apply N.eqb_eq in Hd. subst d. injection H as <- <-.
    exists []. rewrite app_nil_r. repeat split; [intros [] | ].
    apply skipn_char. exact Hchar.
  - destruct (char_at input curr) as [d|] eqn:Hchar.
    2:{ rewrite scan_string_past_end in H; [discriminate H|].
        apply nth_error_None. exact Hchar. }
    cbn [scan_string loose_neq] in H.
    destruct (N.eqb d quote) eqn:Hd; cbn [negb] in H.
    + apply N.eqb_eq in Hd. subst d. injection H as <- <-.
      exists []. rewrite app_nil_r. repeat split; [intros [] | ].
      apply skipn_char. exact Hchar.
    + destruct (IH _ _ _ _ _ _ H) as (cs & -> & Hnq & Hrest).
      exists (d :: cs). cbn [ToString]. rewrite <- app_assoc.
      split; [reflexivity|]. split.
      * intros [Heq | Hin]; [ | exact (Hnq Hin) ].
        apply N.eqb_neq in Hd. congruence.
      * rewrite (skipn_char _ _ _ Hchar), Hrest. reflexivity.
Qed.

Lemma tokenizer_loop_slices fuel :
  forall input curr tokens result,
    tokenizer_loop fuel input curr tokens = Returns result ->
    exists more, result = tokens ++ more /\ Forall (token_in input) more.
Proof.
  induction fuel as [|fuel IH]; intros input curr tokens result H;
    [discriminate H|].
  cbn [tokenizer_loop] in H.
  assert (Hstep : forall curr' t,
            tokenizer_loop fuel input curr' (tokens ++ [t]) = Returns result ->
            token_in input t ->
            exists more, result = tokens ++ more /\ Forall (token_in input) more).
  { intros curr' t Hrun Ht.
    destruct (IH _ _ _ _ Hrun) as (more & -> & Hmore).
    exists (t :: more). rewrite <- app_assoc. split; [reflexivity|].
    constructor; assumption. }
  assert (Hpiece : forall ty v rest,
            ty <> "string"%string -> skipn curr input = v ++ rest ->
            token_in input (mkToken ty v)).
  { intros ty v rest Hty Hrest. exists (firstn curr input), rest. right.
    split; [exact Hty|]. cbn [value].
    rewrite <- Hrest. symmetry. apply firstn_skipn. }
  destruct (curr <? length input)%nat.
  2:{ injection H as <-. exists []. rewrite app_nil_r. split; [reflexivity | constructor]. }
  destruct (char_is (char_at input curr) LPAREN || char_is (char_at input curr) RPAREN)%bool
    eqn:Hparen.
  { apply (Hstep _ _ H).
    destruct (char_at input curr) as [c|] eqn:Hchar; [ | discriminate Hparen ].
    apply Hpiece with (rest := skipn (S curr) input); [discriminate|].
    apply skipn_char. exact Hchar. }
  destruct (regexp_test WHITESPACE (char_at input curr)).
  { apply (IH _ _ _ _ H). }
  destruct (regexp_test NUMBERS (char_at input curr)) eqn:Hnum.
  { destruct (scan_number fuel input curr (char_at input curr) [])
      as [[curr' v]| |] eqn:Hscan; cbn [bind] in H; try discriminate H.
    apply (Hstep _ _ H).
    destruct (scan_number_slice _ _ _ _ _ _ Hscan) as (ds & -> & Hrest).
    apply Hpiece with (rest := skipn curr' input); [discriminate | exact Hrest]. }
  destruct (char_is (char_at input curr) DQUOTE || char_is (char_at input curr) SQUOTE)%bool
    eqn:Hquote.
  { destruct (char_at input curr) as [quote|] eqn:Hchar; [ | discriminate Hquote ].
    destruct (scan_string fuel input (S curr) (Some quote)
                (char_at input (S curr)) [])
      as [[curr' v]| |] eqn:Hscan; cbn [bind] in H; try discriminate H.
    apply (Hstep _ _ H).
    destruct (scan_string_slice _ _ _ _ _ _ _ Hscan) as (cs & -> & Hnq & Hrest).
    exists (firstn curr input), (skipn (S curr') input). left.
    split; [reflexivity|]. exists quote. cbn [value app].
    split; [exact Hquote|]. split; [exact Hnq|].
    rewrite <- Hrest, <- (skipn_char _ _ _ Hchar). symmetry. apply firstn_skipn. }
  destruct (regexp_test LETTERS (char_at input curr)) eqn:Hlet; [ | discriminate H ].
  destruct (scan_name fuel input curr (char_at input curr) [])
    as [[curr' v]| |] eqn:Hscan; cbn [bind] in H; try discriminate H.
  apply (Hstep _ _ H).
  destruct (scan_name_slice _ _ _ _ _ _ Hscan) as (ds & -> & Hrest).
  apply Hpiece with (rest := skipn curr' input); [discriminate | exact Hrest].
Qed.

Lemma tokenizer_tokens_in (input : jsstring) (tokens : list Token) :
  tokenizer_returns input tokens -> Forall (token_in input) tokens.
Proof.
  intros [n H]. specialize (H n (le_n _)). unfold tokenizer in H.
  destruct (tokenizer_loop_slices _ _ _ _ _ H) as (more & -> & Hmore). exact Hmore.
Qed.

(** X3.  Every token the tokenizer returns is of one of four kinds, and its
    value is a piece of the input: a parenthesis whose value is [(] or [)];
    a number whose value is a non-empty run of digits; a string whose value
    stands in the input between two occurrences of one quote character and
    holds no occurrence of it; a name whose value is a non-empty run of
    letters.  So no token has an empty number or name, and no value holds
    anything read past the end of the input: the text [undefined] is in a
    returned token only where it is in the input. *)
Theorem tokens_are_lexical (input : jsstring) (tokens : list Token) :
  tokenizer_returns input tokens ->
  Forall (fun t => token_ok t /\ token_in input t) tokens.
Proof.
  intros H.
  pose proof (tokenizer_tokens_ok input tokens H) as Hok.
  pose proof (tokenizer_tokens_in input tokens H) as Hin.
  clear H. induction Hok as [|t rest Ht Hrest IH]; [constructor|].
  inversion Hin as [|? ? Ht' Hrest']; subst.
  constructor; [split; assumption | apply IH; assumption].
Qed.

Lemma tokens_are_lexical_witness :
  Forall (fun t => token_ok t /\ token_in (js "(add 'x y' 2") t)
    [mkToken "parenthesis" (js "("); mkToken "name" (js "add");
     mkToken "string" (js "x y"); mkToken "number" (js "2")].
Proof.
  apply (tokens_are_lexical (js "(add 'x y' 2")).
  apply tokenizer_returns_at with (n := 20). vm_compute. reflexivity.
Defined.



(** ** The front end on a well-formed program *)

(** X5.  On the text of a well-formed program, string literals of either
    quote style included, the tokenizer returns the tokens of the program in
    order, without the white space and without the quotes, and the parser
    returns from them the tree of the program: one statement for each
    top-level expression, the arguments of each call in order. *)
Theorem front_end_correct (p : program) :
  wf_program p ->
  tokenizer_returns (text p) (tokens_seq (top p))
  /\ parser_returns (tokens_seq (top p)) (Program (ast_seq (top p))).
Proof.
  intros Hwf. split; [apply tokenizer_program; assumption | apply parser_program].
Qed.

Lemma front_end_correct_witness :
  tokenizer_returns (text loose_sample)
    [mkToken "parenthesis" (js "("); mkToken "name" (js "add");
     mkToken "string" (js "x");
     mkToken "parenthesis" (js "("); mkToken "name" (js "f");
     mkToken "parenthesis" (js ")");
     mkToken "number" (js "12"); mkToken "parenthesis" (js ")")]
  /\ parser_returns (tokens_seq (top loose_sample))
       (Program
          [CallExpression (js "add")
             [stringLiteral (js "x"); CallExpression (js "f") [];
              NumberLiteral (js "12")]]).
Proof.
  apply (front_end_correct loose_sample).
  apply wf_programb_sound. reflexivity.
Defined.

(** ** The layout of the text does not matter *)

Lemma emit_of_tree :
  (forall e e', ast_expr e = ast_expr e' ->
     emit_expr e = emit_expr e' /\ emit_statement e = emit_statement e'
     /\ has_string e = has_string e')
  /\ (forall s s', ast_seq s = ast_seq s' ->
        emit_seq s = emit_seq s'
        /\ map emit_statement (exprs s) = map emit_statement (exprs s')
        /\ has_string_seq s = has_string_seq s').
Proof.
  apply syntax_ind.
  - intros ds e' H. destruct e'; try discriminate H. injection H as <-.
    repeat split.
  - intros q cs e' H. destruct e'; try discriminate H. injection H as <-.
    repeat split.
  - intros g name args IH g' e' H. destruct e' as [| |g1 name1 args1 g1'];
      try discriminate H.
    injection H as <- Hargs. destruct (IH _ Hargs) as (Hemit & _ & Hstr).
    cbn [emit_statement emit_expr has_string]. rewrite Hemit. repeat split. exact Hstr.
  - intros s' H. destruct s'; [repeat split | discriminate H].
  - intros g e IHe rest IHrest s' H. destruct s' as [|g1 e1 rest1]; [discriminate H|].
    injection H as He Hrest.
    destruct (IHe _ He) as (H1 & H2 & H3).
    destruct (IHrest _ Hrest) as (H4 & H5 & H6).
    cbn [emit_seq exprs map has_string_seq].
    rewrite H1, H2, H3, H4, H5, H6. repeat split.
Qed.

Lemma loose_nested_sample_tree :
  ast_seq (top loose_nested_sample) = ast_seq (top nested_sample).
Proof. reflexivity. Qed.

(** X6.  The compiler only sees the tree of a program: two well-formed
    texts with the same tree (they differ in white space and in the quote
    style of strings only) end in the same way, with the same output or with
    the same exception. *)
Theorem layout_independent (p q : program) :
  wf_program p -> wf_program q -> ast_seq (top p) = ast_seq (top q) ->
  exists r,
    settled r
    /\ eventually (fun fuel => compile fuel (text p)) r
    /\ eventually (fun fuel => compile fuel (text q)) r.
Proof.
  intros Hp Hq Htree.
  destruct (proj2 emit_of_tree _ _ Htree) as (_ & Hemit & Hstr).
  destruct (has_string_seq (top p)) eqn:Hs.
  - exists (Throws (TypeError (js "stringLiteral"))).
    split; [unfold settled; congruence|].
    split; apply compile_string; congruence.
  - exists (Returns (emit p)). split; [unfold settled; congruence|].
    split; [apply compile_plain; assumption|].
    unfold emit. rewrite Hemit. apply compile_plain; congruence.
Qed.

Lemma layout_independent_witness :
  exists r,
    settled r
    /\ eventually (fun fuel => compile fuel (text loose_nested_sample)) r
    /\ eventually (fun fuel => compile fuel (text nested_sample)) r.
Proof.
  apply (layout_independent loose_nested_sample nested_sample).
  - apply wf_programb_sound. reflexivity.
  - apply wf_programb_sound. reflexivity.
  - reflexivity.
Defined.

(** ** The tokenizer on calls that are left open *)

Ltac text_eq :=
  cbn [text_expr text_seq tokens_expr tokens_seq text_opened tokens_opened];
  rewrite <- ?app_assoc; cbn [app]; rewrite <- ?app_assoc; reflexivity.

Ltac lexes_exact' H :=
  match type of H with
  | lexes _ ?n ?t _ =>
      match goal with
      | |- lexes _ ?n' ?t' _ =>
          replace n' with n by (f_equal; text_eq);
          replace t' with t by text_eq;
          exact H
      end
  end.

Lemma starts_nonletter_seq_cons g e rest k :
  wf_seq (SCons g e rest) -> starts_nonletter (text_seq (SCons g e rest) ++ k).
Proof.
  intros Hwf. inversion Hwf as [| ? ? ? Hg He Hrest Hsep]; subst.
  cbn [text_seq]. rewrite <- app_assoc. apply starts_nonletter_gap; auto.
  rewrite <- app_assoc. apply starts_nonletter_expr; auto.
Qed.

Lemma starts_nonletter_args args k :
  wf_seq args -> (args = SNil -> starts_nonletter k) ->
  starts_nonletter (text_seq args ++ k).
Proof.
  intros Hwf Hk. destruct args as [|g e rest].
  - apply Hk. reflexivity.
  - apply starts_nonletter_seq_cons. assumption.
Qed.

Lemma starts_nonletter_opened o k : starts_nonletter (text_opened o ++ k).
Proof. destruct o; exists LPAREN; eexists; split; reflexivity. Qed.

Lemma starts_digit_opened o k : starts_digit (text_opened o ++ k) = false.
Proof. destruct o; reflexivity. Qed.

Lemma lex_opened o :
  forall input pre k tokens result,
    wf_opened o ->
    input = pre ++ text_opened o ++ k ->
    starts_digit k = false ->
    (last_args o = SNil -> starts_nonletter k) ->
    lexes input (length (pre ++ text_opened o)) (tokens ++ tokens_opened o) result ->
    lexes input (length pre) tokens result.
Proof.
  induction o as [g name args | g name args g' inner IH];
    intros input pre k tokens result Hwf Hin Hk Hlast H.
  - destruct Hwf as (Hg & Hne & Hname & Hargs). cbn [last_args] in Hlast.
    apply lexes_paren with (c := LPAREN) (k := g ++ name ++ text_seq args ++ k);
      [ subst input; text_eq | left; reflexivity | ].
    apply lexes_gap with (gap := g) (k := name ++ text_seq args ++ k);
      [ subst input; text_eq | assumption | ].
    apply lexes_name with (name := name) (k := text_seq args ++ k);
      [ subst input; text_eq | assumption | assumption | | ].
    { apply starts_nonletter_args; assumption. }
    apply (proj2 lex_syntax args Hargs) with (k := k);
      [ subst input; text_eq | assumption | ].
    lexes_exact' H.
  - destruct Hwf as (Hg & Hne & Hname & Hargs & Hg' & Hinner).
    cbn [last_args] in Hlast.
    apply lexes_paren with (c := LPAREN)
      (k := g ++ name ++ text_seq args ++ g' ++ text_opened inner ++ k);
      [ subst input; text_eq | left; reflexivity | ].
    apply lexes_gap with (gap := g)
      (k := name ++ text_seq args ++ g' ++ text_opened inner ++ k);
      [ subst input; text_eq | assumption | ].
    apply lexes_name with (name := name)
      (k := text_seq args ++ g' ++ text_opened inner ++ k);
      [ subst input; text_eq | assumption | assumption | | ].
    { apply starts_nonletter_seq; auto.
      apply starts_nonletter_gap; auto. apply starts_nonletter_opened. }
    apply (proj2 lex_syntax args Hargs) with (k := g' ++ text_opened inner ++ k);
      [ subst input; text_eq | | ].
    { apply starts_digit_gap; auto. apply starts_digit_opened. }
    apply lexes_gap with (gap := g') (k := text_opened inner ++ k);
      [ subst input; text_eq | assumption | ].
    apply IH with (k := k); [ assumption | subst input; text_eq | assumption | assumption | ].
    lexes_exact' H.
Qed.

(** ** The parser on calls that are left open *)

(** The loop on the parameters goes through the tokens of a sequence of
    expressions and carries on after them. *)
Lemma walk_params_through s :
  forall tokens pre k params r,
    tokens = pre ++ tokens_seq s ++ k ->
    settled r ->
    (exists fuel,
        walk_params fuel tokens (length (pre ++ tokens_seq s))
          (token_at tokens (length (pre ++ tokens_seq s))) (params ++ ast_seq s)
        = r) ->
    exists fuel,
      walk_params fuel tokens (length pre) (token_at tokens (length pre)) params = r.
Proof.
  induction s as [|g e rest IH]; intros tokens pre k params r Hin Hr [fuel H].
  - cbn [tokens_seq ast_seq] in H. rewrite !app_nil_r in H. exists fuel. exact H.
  - destruct (tokens_expr_first e) as (t & ts & Hts & Hopen).
    destruct (proj1 walk_syntax e tokens pre (tokens_seq rest ++ k))
      as [f1 H1]; [ subst tokens; text_eq | ].
    destruct (IH tokens (pre ++ tokens_expr e) k (params ++ [ast_expr e]) r)
      as [f2 H2]; [ subst tokens; text_eq | assumption | | ].
    { exists fuel. rewrite <- H. f_equal.
      - f_equal. text_eq.
      - f_equal. f_equal. text_eq.
      - cbn [ast_seq]. rewrite <- app_assoc. reflexivity. }
    exists (S (Nat.max f1 f2)).
    apply (proj1 (walk_mono f1)) with (m := Nat.max f1 f2) in H1;
      [ | unfold settled; congruence | lia ].
    apply (proj2 (walk_mono f2)) with (m := Nat.max f1 f2) in H2;
      [ | assumption | lia ].
    cbn [walk_params].
    replace (token_at tokens (length pre)) with (Some t).
    2:{ subst tokens. cbn [tokens_seq]. rewrite Hts. rewrite <- !app_assoc.
        cbn [app]. rewrite token_at_middle. reflexivity. }
    rewrite Hopen, H1. cbn [bind]. exact H2.
Qed.

(** The same for the top-level loop. *)
Lemma parser_loop_through s :
  forall tokens pre k body r,
    tokens = pre ++ tokens_seq s ++ k ->
    settled r ->
    (exists fuel,
        parser_loop fuel tokens (length (pre ++ tokens_seq s)) (body ++ ast_seq s)
        = r) ->
    exists fuel, parser_loop fuel tokens (length pre) body = r.
Proof.
  induction s as [|g e rest IH]; intros tokens pre k body r Hin Hr [fuel H].
  - cbn [tokens_seq ast_seq] in H. rewrite !app_nil_r in H. exists fuel. exact H.
  - destruct (tokens_expr_first e) as (t & ts & Hts & _).
    destruct (proj1 walk_syntax e tokens pre (tokens_seq rest ++ k))
      as [f1 H1]; [ subst tokens; text_eq | ].
    destruct (IH tokens (pre ++ tokens_expr e) k (body ++ [ast_expr e]) r)
      as [f2 H2]; [ subst tokens; text_eq | assumption | | ].
    { exists fuel. rewrite <- H. f_equal.
      - f_equal. text_eq.
      - cbn [ast_seq]. rewrite <- app_assoc. reflexivity. }
    exists (S (Nat.max f1 f2)).
    apply (proj1 (walk_mono f1)) with (m := Nat.max f1 f2) in H1;
      [ | unfold settled; congruence | lia ].
    apply parser_loop_mono with (m := Nat.max f1 f2) in H2; [ | assumption | lia ].
    cbn [parser_loop].
    replace (length pre <? length tokens)%nat with true.
    2:{ symmetry. apply Nat.ltb_lt. subst tokens. cbn [tokens_seq]. rewrite Hts.
        rewrite !length_app. cbn [length]. lia. }
    rewrite H1. cbn [bind]. exact H2.
Qed.

(** [walk] on calls left open throws what the loop on the parameters of the
    innermost one throws after its last argument. *)
Lemma walk_opened_throws o :
  forall tokens pre k e,
    tokens = pre ++ tokens_opened o ++ k ->
    (forall params, exists fuel,
        walk_params fuel tokens (length (pre ++ tokens_opened o))
          (token_at tokens (length (pre ++ tokens_opened o))) params
        = Throws e) ->
    exists fuel, walk fuel tokens (length pre) = Throws e.
Proof.
  induction o as [g name args | g name args g' inner IH];
    intros tokens pre k e Hin Hend.
  - destruct (walk_params_through args tokens
                (pre ++ [mkToken "parenthesis" [LPAREN]; mkToken "name" name])
                k [] (Throws e)) as [fuel H];
      [ subst tokens; text_eq | unfold settled; congruence | | ].
    { destruct (Hend ([] ++ ast_seq args)) as [fuel H]. exists fuel.
      rewrite <- H. f_equal; [ f_equal; text_eq | f_equal; f_equal; text_eq ]. }
    exists (S fuel). cbn [walk].
    replace (token_at tokens (length pre)) with (Some (mkToken "parenthesis" [LPAREN]))
      by (subst tokens; cbn [tokens_opened app]; rewrite token_at_middle; reflexivity).
    cbn [type value String.eqb Ascii.eqb Bool.eqb andb]. rewrite jseqb_refl.
    replace (token_at tokens (S (length pre))) with (Some (mkToken "name" name)).
    2:{ subst tokens. cbn [tokens_opened app].
        rewrite (snoc_app pre), <- (length_snoc pre (mkToken "parenthesis" [LPAREN])).
        rewrite token_at_middle. reflexivity. }
    replace (S (S (length pre)))
      with (length (pre ++ [mkToken "parenthesis" [LPAREN]; mkToken "name" name]))
      by (rewrite length_app; cbn [length]; lia).
    rewrite H. reflexivity.
  - destruct (IH tokens
                (pre ++ [mkToken "parenthesis" [LPAREN]; mkToken "name" name]
                     ++ tokens_seq args) k e) as [f1 H1];
      [ subst tokens; text_eq | | ].
    { intros params. destruct (Hend params) as [fuel H]. exists fuel.
      rewrite <- H. f_equal; [ f_equal; text_eq | f_equal; f_equal; text_eq ]. }
    destruct (walk_params_through args tokens
                (pre ++ [mkToken "parenthesis" [LPAREN]; mkToken "name" name])
                (tokens_opened inner ++ k) [] (Throws e)) as [fuel H];
      [ subst tokens; text_eq | unfold settled; congruence | | ].
    { exists (S f1). cbn [walk_params].
      replace (token_at tokens
                 (length ((pre ++ [mkToken "parenthesis" [LPAREN]; mkToken "name" name])
                          ++ tokens_seq args)))
        with (Some (mkToken "parenthesis" [LPAREN])).
      2:{ subst tokens.
          replace (pre ++ tokens_opened (ONest g name args g' inner) ++ k)
            with (((pre ++ [mkToken "parenthesis" [LPAREN]; mkToken "name" name])
                   ++ tokens_seq args) ++ tokens_opened inner ++ k) by text_eq.
          destruct inner; cbn [tokens_opened app]; rewrite token_at_middle; reflexivity. }
      cbn [type value String.eqb Ascii.eqb Bool.eqb andb negb orb].
      replace (jseqb [LPAREN] [RPAREN]) with false by reflexivity. cbn [negb].
      replace (length ((pre ++ [mkToken "parenthesis" [LPAREN]; mkToken "name" name])
                       ++ tokens_seq args))
        with (length (pre ++ [mkToken "parenthesis" [LPAREN]; mkToken "name" name]
                          ++ tokens_seq args)) by (f_equal; text_eq).
      rewrite H1. reflexivity. }
    exists (S fuel). cbn [walk].
    replace (token_at tokens (length pre)) with (Some (mkToken "parenthesis" [LPAREN]))
      by (subst tokens; cbn [tokens_opened app]; rewrite token_at_middle; reflexivity).
    cbn [type value String.eqb Ascii.eqb Bool.eqb andb]. rewrite jseqb_refl.
    replace (token_at tokens (S (length pre))) with (Some (mkToken "name" name)).
    2:{ subst tokens. cbn [tokens_opened app].
        rewrite (snoc_app pre), <- (length_snoc pre (mkToken "parenthesis" [LPAREN])).
        rewrite token_at_middle. reflexivity. }
    replace (S (S (length pre)))
      with (length (pre ++ [mkToken "parenthesis" [LPAREN]; mkToken "name" name]))
      by (rewrite length_app; cbn [length]; lia).
    rewrite H. reflexivity.
Qed.

(** The top-level loop throws what [walk] throws after a sequence of
    complete expressions. *)
Lemma parser_throws_after s tokens k e :
  tokens = tokens_seq s ++ k -> k <> [] ->
  (exists fuel, walk fuel tokens (length (tokens_seq s)) = Throws e) ->
  parser_throws tokens e.
Proof.
  intros Hin Hk [f1 H1].
  assert (Hlt : (length (tokens_seq s) <? length tokens)%nat = true).
  { apply Nat.ltb_lt. subst tokens. rewrite length_app.
    destruct k; [congruence | cbn [length]; lia]. }
  destruct (parser_loop_through s tokens [] k [] (Throws e)) as [fuel H];
    [ subst tokens; reflexivity | unfold settled; congruence | | ].
  { exists (S f1). cbn [parser_loop app]. rewrite Hlt, H1. reflexivity. }
  apply parser_throws_at with (n := fuel). exact H.
Qed.

(** ** The compiler on unbalanced and on stray tokens *)

(** The tokenizer goes on from a token boundary through a rest that can be
    cut into tokens. *)
Lemma lexes_rest input pre rest tokens :
  input = pre ++ rest -> scan_verdict None rest = Lexes ->
  exists more, lexes input (length pre) tokens (tokens ++ more).
Proof.
  intros -> Hv.
  pose proof (tokenizer_loop_verdict (length rest) rest (le_n _) pre tokens) as H.
  rewrite Hv in H. destruct H as [result [n H]].
  specialize (H n (le_n _)). unfold loop_from in H.
  destruct (tokenizer_loop_tokens _ _ _ _ _ H) as (more & -> & _).
  exists more, n. exact H.
Qed.

Lemma all_whitespace_nonletter gap :
  all WHITESPACE gap -> gap <> [] -> starts_nonletter gap.
Proof.
  intros Hg Hne. destruct gap as [|c gap]; [congruence|].
  inversion Hg as [|? ? Hc ?]; subst.
  exists c, gap. split; [reflexivity | class_false].
Qed.

Lemma tokens_opened_nonempty o : tokens_opened o <> [].
Proof. destruct o; discriminate. Qed.

(** X7.  An input in which calls are still open at the end fails in the
    parser, whatever the depth and whatever came before: after complete
    top-level expressions, one or more calls opened inside each other and
    left without their closing parentheses make the compiler throw the
    TypeError the runtime raises on reading [type] of the token past the
    end.  (The text must not end in the name of the innermost call, on which
    the tokenizer never returns.) *)
Theorem unclosed_calls_throw (s0 : sseq) (g0 : jsstring) (o : opened)
    (trailing : jsstring) :
  wf_seq s0 -> all WHITESPACE g0 -> wf_opened o -> all WHITESPACE trailing ->
  (last_args o = SNil -> trailing <> []) ->
  compile_throws (text_seq s0 ++ g0 ++ text_opened o ++ trailing)
    (UndefinedRead "type").
Proof.
  intros Hs0 Hg0 Ho Htrail Hlast.
  set (input := text_seq s0 ++ g0 ++ text_opened o ++ trailing).
  set (tokens := tokens_seq s0 ++ tokens_opened o).
  assert (Hlex : lexes input 0 [] tokens).
  { apply (proj2 lex_syntax s0 Hs0 input [] (g0 ++ text_opened o ++ trailing));
      [ reflexivity | apply starts_digit_gap; auto; apply starts_digit_opened | ].
    apply lexes_gap with (gap := g0) (k := text_opened o ++ trailing);
      [ subst input; text_eq | assumption | ].
    apply lex_opened with (o := o) (k := trailing);
      [ assumption | subst input; text_eq
      | rewrite <- (app_nil_r trailing); apply starts_digit_gap; auto
      | intros Hnil; apply all_whitespace_nonletter; auto | ].
    apply lexes_gap with (gap := trailing) (k := []);
      [ subst input; cbn [app]; rewrite <- !app_assoc, app_nil_r; reflexivity
      | assumption | ].
    replace (length (((([] ++ text_seq s0) ++ g0) ++ text_opened o) ++ trailing))
      with (length input)
      by (f_equal; subst input; cbn [app]; rewrite <- !app_assoc; reflexivity).
    replace ([] ++ tokens_seq s0 ++ tokens_opened o) with tokens by reflexivity.
    replace (([] ++ tokens_seq s0) ++ tokens_opened o) with tokens by reflexivity.
    apply lexes_end. }
  destruct Hlex as [fuel Hlex].
  apply compile_parser_throws with (tokens := tokens).
  - apply tokenizer_returns_at with (n := fuel). exact Hlex.
  - apply parser_throws_after with (s := s0) (k := tokens_opened o);
      [ reflexivity | apply tokens_opened_nonempty | ].
    apply walk_opened_throws with (o := o) (k := []);
      [ subst tokens; rewrite app_nil_r; reflexivity | ].
    intros params. exists 1. cbn [walk_params].
    rewrite token_at_past; [reflexivity|].
    subst tokens. lia.
Qed.

Lemma unclosed_calls_throw_witness :
  compile_throws (js "(x 1) (a 1 (b ") (UndefinedRead "type").
Proof.
  apply (unclosed_calls_throw
           (SCons [] (SCall [] (js "x") (SCons (js " ") (SNumber (js "1")) SNil) [])
              SNil)
           (js " ") open_sample (js " ")).
  - apply (proj2 wf_check_sound). reflexivity.
  - apply forallb_all. reflexivity.
  - cbn. repeat split; try (apply forallb_all; reflexivity); try discriminate.
    + apply (proj2 wf_check_sound). reflexivity.
    + constructor.
  - apply forallb_all. reflexivity.
  - discriminate.
Defined.

Lemma starts_digit_name name k :
  name <> [] -> all LETTERS name -> starts_digit (name ++ k) = false.
Proof.
  intros Hne Hname. destruct name as [|c name]; [congruence|].
  inversion Hname as [|? ? Hc ?]; subst. cbn [app starts_digit]. class_false.
Qed.

Lemma starts_nonletter_gap_nonempty gap k :
  all WHITESPACE gap -> gap <> [] -> starts_nonletter (gap ++ k).
Proof.
  intros Hg Hne. destruct gap as [|c gap]; [congruence|].
  inversion Hg as [|? ? Hc ?]; subst.
  exists c, (gap ++ k). split; [reflexivity | class_false].
Qed.

Lemma walk_name_throws tokens pre name more :
  tokens = pre ++ mkToken "name" name :: more ->
  walk 1 tokens (length pre) = Throws (TypeError (js "name")).
Proof. intros ->. cbn [walk]. rewrite token_at_middle. reflexivity. Qed.

(** X8.  A name where an expression is expected makes the parser throw its
    TypeError with the message [name]: at top level after complete
    expressions, or as an argument at any depth inside calls still open,
    provided the name is followed by a character that is no letter and the
    rest of the text can be cut into tokens (what the rest holds is never
    parsed). *)
Theorem name_expression_throws (s0 : sseq) (g0 : jsstring)
    (ctx : option (opened * jsstring)) (name rest : jsstring) :
  wf_seq s0 -> all WHITESPACE g0 -> wf_open_ctx ctx ->
  name <> [] -> all LETTERS name ->
  starts_nonletter rest -> scan_verdict None rest = Lexes ->
  compile_throws (text_seq s0 ++ g0 ++ open_text ctx ++ name ++ rest)
    (TypeError (js "name")).
Proof.
  intros Hs0 Hg0 Hctx Hne Hname Hrest Hv.
  set (input := text_seq s0 ++ g0 ++ open_text ctx ++ name ++ rest).
  destruct ctx as [[o g]|]; cbn [open_text wf_open_ctx] in *.
  - destruct Hctx as (Ho & Hg & Hlast).
    destruct (lexes_rest input
                ((((([] ++ text_seq s0) ++ g0) ++ text_opened o) ++ g) ++ name) rest
                ((([] ++ tokens_seq s0) ++ tokens_opened o) ++ [mkToken "name" name]))
      as [more Hmore]; [ subst input; text_eq | assumption | ].
    set (tokens := tokens_seq s0 ++ tokens_opened o ++ mkToken "name" name :: more).
    assert (Hlex : lexes input 0 [] tokens).
    { apply (proj2 lex_syntax s0 Hs0 input []
               (g0 ++ text_opened o ++ g ++ name ++ rest));
        [ subst input; text_eq
        | apply starts_digit_gap; auto; apply starts_digit_opened | ].
      apply lexes_gap with (gap := g0) (k := text_opened o ++ g ++ name ++ rest);
        [ subst input; text_eq | assumption | ].
      apply lex_opened with (o := o) (k := g ++ name ++ rest);
        [ assumption | subst input; text_eq
        | apply starts_digit_gap; auto; apply starts_digit_name; auto
        | intros Hnil; apply starts_nonletter_gap_nonempty; auto | ].
      apply lexes_gap with (gap := g) (k := name ++ rest);
        [ subst input; text_eq | assumption | ].
      apply lexes_name with (name := name) (k := rest);
        [ subst input; text_eq | assumption | assumption | assumption | ].
      replace tokens
        with (((([] ++ tokens_seq s0) ++ tokens_opened o) ++ [mkToken "name" name])
              ++ more)
        by (subst tokens; text_eq).
      exact Hmore. }
    destruct Hlex as [fuel Hlex].
    apply compile_parser_throws with (tokens := tokens).
    + apply tokenizer_returns_at with (n := fuel). exact Hlex.
    + apply parser_throws_after with (s := s0)
        (k := tokens_opened o ++ mkToken "name" name :: more);
        [ reflexivity
        | intros Hnil; apply app_eq_nil in Hnil as [Hnil _];
          exact (tokens_opened_nonempty o Hnil) | ].
      apply walk_opened_throws with (o := o) (k := mkToken "name" name :: more);
        [ reflexivity | ].
      intros params. exists 2. subst tokens.
      replace (tokens_seq s0 ++ tokens_opened o ++ mkToken "name" name :: more)
        with ((tokens_seq s0 ++ tokens_opened o) ++ mkToken "name" name :: more)
        by (rewrite <- app_assoc; reflexivity).
      cbn [walk_params]. rewrite token_at_middle.
      cbn [type value String.eqb Ascii.eqb Bool.eqb andb negb orb].
      rewrite (walk_name_throws _ (tokens_seq s0 ++ tokens_opened o) name more eq_refl).
      reflexivity.
  - destruct (lexes_rest input ((([] ++ text_seq s0) ++ g0) ++ name) rest
                (([] ++ tokens_seq s0) ++ [mkToken "name" name]))
      as [more Hmore]; [ subst input; text_eq | assumption | ].
    set (tokens := tokens_seq s0 ++ mkToken "name" name :: more).
    assert (Hlex : lexes input 0 [] tokens).
    { apply (proj2 lex_syntax s0 Hs0 input [] (g0 ++ name ++ rest));
        [ subst input; text_eq
        | apply starts_digit_gap; auto; apply starts_digit_name; auto | ].
      apply lexes_gap with (gap := g0) (k := name ++ rest);
        [ subst input; text_eq | assumption | ].
      apply lexes_name with (name := name) (k := rest);
        [ subst input; text_eq | assumption | assumption | assumption | ].
      replace tokens
        with ((([] ++ tokens_seq s0) ++ [mkToken "name" name]) ++ more)
        by (subst tokens; text_eq).
      exact Hmore. }
    destruct Hlex as [fuel Hlex].
    apply compile_parser_throws with (tokens := tokens).
    + apply tokenizer_returns_at with (n := fuel). exact Hlex.
    + apply parser_throws_after with (s := s0) (k := mkToken "name" name :: more);
        [ reflexivity | discriminate | ].
      exists 1. apply walk_name_throws with (name := name) (more := more). reflexivity.
Qed.

Lemma name_expression_throws_witness :
  compile_throws (js "(add x 2)") (TypeError (js "name")).
Proof.
  apply (name_expression_throws SNil [] (Some (open_add, js " "))
           (js "x") (js " 2)")).
  - constructor.
  - constructor.
  - cbn. repeat split; try (apply forallb_all; reflexivity); try discriminate.
    constructor.
  - discriminate.
  - apply forallb_all. reflexivity.
  - exists 32%N, (js "2)"). split; reflexivity.
  - reflexivity.
Defined.

(** X9.  A closing parenthesis that closes nothing makes the parser throw
    its TypeError with the message [parenthesis]: after complete top-level
    expressions, whatever follows it, provided the rest of the text can be
    cut into tokens. *)
Theorem stray_closing_throws (s0 : sseq) (g rest : jsstring) :
  wf_seq s0 -> all WHITESPACE g -> scan_verdict None rest = Lexes ->
  compile_throws (text_seq s0 ++ g ++ [RPAREN] ++ rest)
    (TypeError (js "parenthesis")).
Proof.
  intros Hs0 Hg Hv.
  set (input := text_seq s0 ++ g ++ [RPAREN] ++ rest).
  destruct (lexes_rest input ((([] ++ text_seq s0) ++ g) ++ [RPAREN]) rest
              (([] ++ tokens_seq s0) ++ [mkToken "parenthesis" [RPAREN]]))
    as [more Hmore]; [ subst input; text_eq | assumption | ].
  set (tokens := tokens_seq s0 ++ mkToken "parenthesis" [RPAREN] :: more).
  assert (Hlex : lexes input 0 [] tokens).
  { apply (proj2 lex_syntax s0 Hs0 input [] (g ++ [RPAREN] ++ rest));
      [ subst input; text_eq | apply starts_digit_gap; auto | ].
    apply lexes_gap with (gap := g) (k := [RPAREN] ++ rest);
      [ subst input; text_eq | assumption | ].
    apply lexes_paren with (c := RPAREN) (k := rest);
      [ subst input; text_eq | right; reflexivity | ].
    replace tokens
      with ((([] ++ tokens_seq s0) ++ [mkToken "parenthesis" [RPAREN]]) ++ more)
      by (subst tokens; text_eq).
    exact Hmore. }
  destruct Hlex as [fuel Hlex].
  apply compile_parser_throws with (tokens := tokens).
  - apply tokenizer_returns_at with (n := fuel). exact Hlex.
  - apply parser_throws_after with (s := s0)
      (k := mkToken "parenthesis" [RPAREN] :: more);
      [ reflexivity | discriminate | ].
    exists 1. subst tokens. cbn [walk]. rewrite token_at_middle. reflexivity.
Qed.

Lemma stray_closing_throws_witness :
  compile_throws (js "(add 2 3)) (b 1)") (TypeError (js "parenthesis")).
Proof.
  apply (stray_closing_throws
           (SCons [] (SCall [] (js "add")
                        (SCons (js " ") (SNumber (js "2"))
                           (SCons (js " ") (SNumber (js "3")) SNil)) [])
              SNil)
           [] (js " (b 1)")).
  - apply (proj2 wf_check_sound). reflexivity.
  - constructor.
  - reflexivity.
Defined.

(** ** The output is not an input *)

Lemma output_char_avoided x :
  output_char x = false ->
  NUMBERS x = false /\ LETTERS x = false /\ ~ In x (js "(, )")
  /\ x <> SEMICOLON /\ x <> NEWLINE.
Proof.
  unfold output_char. intros H.
  apply orb_false_iff in H as [H Hnl]. apply orb_false_iff in H as [H Hp].
  apply orb_false_iff in H as [Hn Hl].
  cbn [existsb js] in Hp.
  repeat (apply orb_false_iff in Hp as [? Hp]).
  repeat match goal with
         | H : N.eqb _ _ = false |- _ => apply N.eqb_neq in H
         end.
  repeat split; auto.
  cbn. intros [E|[E|[E|[E|[]]]]]; subst x; cbn in *; congruence.
Qed.

Lemma emit_program_avoids p x :
  wf_program p -> has_string_seq (top p) = false -> output_char x = false ->
  ~ In x (emit p).
Proof.
  intros [Hwf _] Hs Hx.
  destruct (output_char_avoided x Hx) as (Hn & Hl & Hp & Hsemi & Hnl).
  unfold emit. apply not_in_join.
  - intros [E|[]]. apply Hnl. symmetry. exact E.
  - apply Forall_map. eapply Forall_impl; [ | exact (exprs_wf _ Hwf Hs) ].
    intros e [He Hse].
    pose proof (proj1 (emit_avoids x Hn Hl Hp) e He Hse) as Hex.
    destruct e; auto. unfold emit_statement. apply not_in_app; auto.
    intros [E|[]]. apply Hsemi. symmetry. exact E.
Qed.

(** X10.  The output of a program without strings is made of digits,
    letters, parentheses, commas, spaces, semicolons and newlines only: the
    generator never emits a quote, a tab or any other character. *)
Theorem output_alphabet (p : program) :
  wf_program p -> has_string_seq (top p) = false ->
  exists output,
    compile_returns (text p) output
    /\ Forall (fun c => output_char c = true) output.
Proof.
  intros Hwf Hs. exists (emit p). split; [apply compile_plain; assumption|].
  apply Forall_forall. intros c Hc.
  destruct (output_char c) eqn:E; [reflexivity|].
  exfalso. apply (emit_program_avoids p c Hwf Hs E). exact Hc.
Qed.

Lemma output_alphabet_witness :
  exists output,
    compile_returns (text nested_sample) output
    /\ Forall (fun c => output_char c = true) output.
Proof.
  apply (output_alphabet nested_sample).
  - apply wf_programb_sound. reflexivity.
  - reflexivity.
Defined.

Lemma in_join (x : N) sep part parts :
  In part parts -> In x part -> In x (join sep parts).
Proof.
  intros Hpart Hx. induction parts as [|p0 rest IH]; [contradiction|].
  destruct Hpart as [-> | Hpart].
  - destruct rest; cbn [join]; [assumption | apply in_or_app; left; assumption].
  - destruct rest as [|p1 rest']; [contradiction|].
    change (join sep (p0 :: p1 :: rest')) with (p0 ++ sep ++ join sep (p1 :: rest')).
    apply in_or_app. right. apply in_or_app. right. apply IH. assumption.
Qed.

Lemma verdict_plain run c k :
  Forall (fun u => plain_char u = true) run ->
  scan_verdict None (run ++ c :: k) = scan_verdict None (c :: k).
Proof.
  induction 1 as [|d ds Hd Hds IH]; [reflexivity|].
  rewrite <- IH. clear IH. cbn [app].
  generalize (ds ++ c :: k) (app_cons_not_nil ds k c). intros rest Hrest.
  cbn [scan_verdict]. unfold plain_char in Hd.
  destruct (is_paren d || WHITESPACE d || NUMBERS d)%bool eqn:E; [reflexivity|].
  cbn [orb] in Hd.
  replace (is_quote d) with false by (symmetry; unfold is_quote; class_false).
  rewrite Hd. destruct rest; [congruence | reflexivity].
Qed.

(** X11.  Compiling is not idempotent: the output of a program without
    strings that has a call among its top-level expressions is rejected by
    the tokenizer when it is compiled again, with the syntax error on a
    comma or on a semicolon. *)
Theorem output_does_not_compile (p : program) :
  wf_program p -> has_string_seq (top p) = false ->
  (exists e, In e (exprs (top p)) /\ is_call e = true) ->
  exists output,
    compile_returns (text p) output
    /\ (compile_throws output (TypeError (js "Syntax error : ,"))
        \/ compile_throws output (TypeError (js "Syntax error : ;"))).
Proof.
  intros Hwf Hs (e & He & Hcall). exists (emit p).
  split; [apply compile_plain; assumption|].
  assert (Hsemi : In SEMICOLON (emit p)).
  { unfold emit. apply in_join with (part := emit_statement e).
    - apply in_map. exact He.
    - destruct e; try discriminate Hcall. unfold emit_statement.
      apply in_or_app. right. left. reflexivity. }
  destruct (longest_run plain_char (emit p)) as (run & k & Hsplit & Hrun & Hk).
  destruct k as [|c k].
  { exfalso. rewrite app_nil_r in Hsplit. rewrite Hsplit in Hsemi.
    unfold all in Hrun. rewrite Forall_forall in Hrun.
    apply Hrun in Hsemi. discriminate Hsemi. }
  assert (Hc : output_char c = true).
  { destruct (output_char c) eqn:E; [reflexivity|]. exfalso.
    apply (emit_program_avoids p c Hwf Hs E). rewrite Hsplit.
    apply in_or_app. right. left. reflexivity. }
  assert (Hcases : c = 44%N \/ c = SEMICOLON).
  { unfold output_char, plain_char in *.
    destruct (NUMBERS c); [rewrite !orb_true_r in Hk; discriminate Hk|].
    destruct (LETTERS c); [rewrite !orb_true_r in Hk; discriminate Hk|].
    cbn [orb existsb js] in Hc.
    repeat rewrite orb_false_r in Hk. apply orb_false_iff in Hk as [Hparen Hws].
    unfold is_paren in Hparen. apply orb_false_iff in Hparen as [Hlp Hrp].
    repeat (apply orb_true_iff in Hc as [Hc|Hc]);
      try (apply N.eqb_eq in Hc; subst c);
      try discriminate; auto. }
  pose proof (tokenizer_verdict (emit p)) as Hv.
  assert (Hverd : scan_verdict None (emit p) = scan_verdict None (c :: k))
    by (rewrite Hsplit; apply verdict_plain; exact Hrun).
  rewrite Hverd in Hv.
  destruct Hcases as [-> | ->]; cbn in Hv; [left | right];
    apply compile_tokenizer_throws; exact Hv.
Qed.

Lemma output_does_not_compile_witness :
  exists output,
    compile_returns (text nested_sample) output
    /\ (compile_throws output (TypeError (js "Syntax error : ,"))
        \/ compile_throws output (TypeError (js "Syntax error : ;"))).
Proof.
  apply (output_does_not_compile nested_sample).
  - apply wf_programb_sound. reflexivity.
  - reflexivity.
  - eexists. split; [left; reflexivity | reflexivity].
Defined.

(** ** The tree the transformer builds *)

Lemma repr_seq_length h top s nodes :
  repr_seq h top s nodes -> length nodes = length (exprs s).
Proof.
  revert nodes. induction s as [|g e rest IH]; intros nodes H; cbn [repr_seq] in H.
  - subst nodes. reflexivity.
  - destruct H as (node & nodes' & -> & _ & Hrest).
    cbn [length exprs]. f_equal. apply IH. exact Hrest.
Qed.

(** The traversal of a tree without strings, with the shape of the node it
    appends: a shape that only depends on the arrays allocated meanwhile. *)
Lemma traversal_shape :
  (forall e, has_string e = false ->
     forall h p_type r, r < next h ->
       exists h' node,
         nodeTraversal h (ast_expr e) None (Some (mkParent p_type (Some r)))
         = Returns h'
         /\ next h <= next h'
         /\ cells h' r = cells h r ++ [node]
         /\ (forall r', r' < next h -> r' <> r -> cells h' r' = cells h r')
         /\ (forall h'', agree (next h) (next h') h' h'' ->
               repr_in h'' p_type e node))
  /\ (forall s, has_string_seq s = false ->
        forall h p_type r, r < next h ->
          exists h' nodes,
            arrayTraversal h (ast_seq s) (Some (mkParent p_type (Some r)))
            = Returns h'
            /\ next h <= next h'
            /\ cells h' r = cells h r ++ nodes
            /\ (forall r', r' < next h -> r' <> r -> cells h' r' = cells h r')
            /\ (forall h'', agree (next h) (next h') h' h'' ->
                  repr_seq h'' (negb (p_type =? "CallExpression")%string) s nodes)).
Proof.
  apply syntax_ind.
  - (* number *)
    intros ds _ h pt r Hr.
    exists (push h r (TNumberLiteral ds)), (TNumberLiteral ds).
    cbn [ast_expr]. rewrite nodeTraversal_NumberLiteral.
    cbn [push_parent p_context push cells next].
    repeat split; auto.
    + rewrite Nat.eqb_refl. reflexivity.
    + intros r' _ Hne. apply Nat.eqb_neq in Hne. rewrite Hne. reflexivity.
    + intros h'' _. unfold repr_in. cbn [is_call]. rewrite andb_false_r. reflexivity.
  - intros q cs Hs. discriminate Hs.
  - (* call *)
    intros g name args IHargs g' Hs h pt r Hr.
    cbn [has_string] in Hs.
    set (a := next h).
    set (call := TCallExpression (Identifier name) a).
    set (node := if negb (pt =? "CallExpression")%string
                 then ExpressionStatement call else call).
    set (h2 := push (snd (alloc h)) r node).
    destruct (IHargs Hs h2 "CallExpression"%string a) as
      (h3 & nodes & Htrav & Hnext & Hcells & Hothers & Hshape).
    { subst h2 a. cbn. lia. }
    exists h3, node.
    assert (Ha : (a =? r)%nat = false) by (apply Nat.eqb_neq; subst a; lia).
    assert (Hra : (r =? a)%nat = false) by (apply Nat.eqb_neq; subst a; lia).
    assert (Hnext2 : next h2 = S (next h)) by reflexivity.
    assert (Hargs : cells h3 a = nodes).
    { rewrite Hcells. subst h2. cbn [push cells alloc snd].
      rewrite Ha. fold a. rewrite Nat.eqb_refl. reflexivity. }
    cbn [ast_expr]. rewrite nodeTraversal_CallExpression.
    cbn [CallExpression_enter alloc p_type bind push_parent p_context].
    fold a. fold call. fold node.
    change (push (mkHeap (fun r0 => if (r0 =? a)%nat then [] else cells h r0) (S a)) r node)
      with h2.
    split; [exact Htrav|].
    split; [subst a; lia|].
    split.
    { rewrite Hothers by (subst a; lia).
      subst h2. cbn [push cells alloc snd]. rewrite Nat.eqb_refl.
      fold a. rewrite Hra. reflexivity. }
    split.
    { intros r' Hr' Hne. rewrite Hothers by (subst a; lia).
      subst h2. cbn [push cells alloc snd].
      apply Nat.eqb_neq in Hne. rewrite Hne. fold a.
      replace (r' =? a)%nat with false
        by (symmetry; apply Nat.eqb_neq; subst a; lia).
      reflexivity. }
    intros h'' Hag.
    assert (Hcall : repr_expr h'' (SCall g name args g') call).
    { cbn [repr_expr]. exists a. split; [reflexivity|].
      rewrite (Hag a) by (subst a; lia). rewrite Hargs.
      apply Hshape. intros x Hx. apply Hag. lia. }
    unfold repr_in. subst node. cbn [is_call]. rewrite andb_true_r.
    destruct (negb (pt =? "CallExpression")%string); auto.
    exists call. split; [reflexivity | exact Hcall].
  - (* empty sequence *)
    intros _ h pt r Hr. exists h, [].
    cbn. rewrite app_nil_r. repeat split; auto.
  - (* one more expression *)
    intros g e IHe rest IHrest Hs h pt r Hr.
    cbn [has_string_seq] in Hs. apply orb_false_iff in Hs as [Hse Hsr].
    destruct (IHe Hse h pt r Hr) as (h1 & node & Ht1 & Hn1 & Hc1 & Ho1 & Hst1).
    destruct (IHrest Hsr h1 pt r ltac:(lia))
      as (h2 & nodes & Ht2 & Hn2 & Hc2 & Ho2 & Hst2).
    exists h2, (node :: nodes).
    cbn [ast_seq arrayTraversal]. rewrite Ht1. cbn [bind]. rewrite Ht2.
    split; [reflexivity|].
    split; [lia|].
    split.
    { rewrite Hc2, Hc1, <- app_assoc. reflexivity. }
    split.
    { intros r' Hr' Hne. rewrite Ho2 by (auto; lia). apply Ho1; auto. }
    intros h'' Hag. cbn [repr_seq]. exists node, nodes.
    split; [reflexivity|]. split.
    + apply Hst1. intros x Hx. rewrite (Hag x) by lia. apply Ho2; lia.
    + apply Hst2. intros x Hx. apply Hag. lia.
Qed.

(** X12.  On the tree of a program without strings the transformer returns
    a new tree of the same shape: the body of the new program holds one node
    for each statement in order; a number becomes a number node with the
    same digits; a call becomes a call node whose callee is an identifier
    with the name of the call and whose [arguments] array holds the nodes of
    the arguments, as many and in the same order; a call is wrapped in an
    [ExpressionStatement] exactly when it is a statement of the program. *)
Theorem transform_shape (s : sseq) :
  has_string_seq s = false ->
  exists h,
    transform (Program (ast_seq s)) = Returns (h, TProgram 0)
    /\ repr_seq h true s (cells h 0)
    /\ length (cells h 0) = length (ast_seq s).
Proof.
  intros Hs.
  destruct (proj2 traversal_shape s Hs (snd (alloc empty_heap)) "Program"%string 0)
    as (h & nodes & Ht & Hn & Hc & _ & Hshape); [cbn; lia|].
  exists h. unfold transform.
  change (alloc empty_heap) with (0, snd (alloc empty_heap)). cbv beta iota.
  rewrite nodeTraversal_Program, Ht. cbn [bind].
  split; [reflexivity|].
  assert (Hrepr : repr_seq h true s (cells h 0)).
  { rewrite Hc. cbn [app]. apply (Hshape h). intros x Hx. reflexivity. }
  split; [exact Hrepr|].
  rewrite (repr_seq_length _ _ _ _ Hrepr).
  clear. induction s as [|g e rest IH]; cbn [exprs ast_seq length]; auto.
Qed.

Lemma transform_shape_witness :
  exists h,
    transform (Program (ast_seq (top nested_sample))) = Returns (h, TProgram 0)
    /\ repr_seq h true (top nested_sample) (cells h 0)
    /\ length (cells h 0) = length (ast_seq (top nested_sample)).
Proof.
  apply (transform_shape (top nested_sample)). reflexivity.
Defined.

(** ** The generator on a tree of the shape of a program *)

Lemma emit_top_false s : map (emit_top false) (exprs s) = emit_seq s.
Proof.
  induction s as [|g e rest IH]; cbn [exprs map emit_seq]; [reflexivity|].
  rewrite IH. reflexivity.
Qed.

Lemma emit_top_true e : emit_top true e = emit_statement e.
Proof. destruct e; reflexivity. Qed.

Lemma gen_shape :
  (forall e h node, repr_expr h e node -> gen h node (emit_expr e))
  /\ (forall s h top nodes,
        repr_seq h top s nodes ->
        Forall2 (gen h) nodes (map (emit_top top) (exprs s))).
Proof.
  apply syntax_ind.
  - intros ds h node ->. exists 1. reflexivity.
  - intros q cs h node ->. exists 1. reflexivity.
  - intros g name args IHargs g' h node (a & -> & Hargs).
    cbn [emit_expr]. apply gen_call with (nodes := cells h a); [reflexivity|].
    rewrite <- emit_top_false. apply IHargs. exact Hargs.
  - intros h top nodes ->. constructor.
  - intros g e IHe rest IHrest h top nodes (node & nodes' & -> & He & Hrest).
    cbn [exprs map]. constructor; [ | apply IHrest; exact Hrest ].
    unfold emit_top. destruct (top && is_call e)%bool.
    + destruct He as (call & -> & Hcall). apply gen_statement. apply IHe. exact Hcall.
    + apply IHe. exact He.
Qed.

(** X13.  The generator prints any new tree that has the shape of a
    program, string literals included: the statements joined by newlines,
    each call as [name(arg, ...)] with [;] after a statement, each number as
    its digits, and each string between double quotes whatever quotes it had
    in the source. *)
Theorem generator_prints_shape (h : heap) (body : nat) (s : sseq) :
  repr_seq h true s (cells h body) ->
  gen h (TProgram body) (join [NEWLINE] (map emit_statement (exprs s))).
Proof.
  intros Hrepr. apply gen_program with (nodes := cells h body); [reflexivity|].
  replace (map emit_statement (exprs s)) with (map (emit_top true) (exprs s))
    by (apply map_ext; intros; apply emit_top_true).
  apply (proj2 gen_shape). exact Hrepr.
Qed.

Lemma generator_prints_shape_witness :
  gen concat_heap (TProgram 0)
    (js "concat(" ++ quoted (js "foo") ++ js ", " ++ quoted (js "bar") ++ js ");").
Proof.
  apply (generator_prints_shape concat_heap 0 mixed_quotes_sample).
  cbn. repeat eexists.
Defined.

(** ** Programs of numbers *)

Lemma join_lines d l :
  join [NEWLINE] (d :: l) = d ++ concat (map (fun ds => NEWLINE :: ds) l).
Proof.
  revert d. induction l as [|d' l IH]; intros d.
  - cbn. rewrite app_nil_r. reflexivity.
  - change (join [NEWLINE] (d :: d' :: l)) with (d ++ [NEWLINE] ++ join [NEWLINE] (d' :: l)).
    rewrite IH. reflexivity.
Qed.

Lemma number_lines_text l :
  text_seq (number_lines false l) = concat (map (fun ds => NEWLINE :: ds) l).
Proof.
  induction l as [|d l IH]; [reflexivity|].
  cbn [number_lines text_seq text_expr map concat app]. rewrite IH. reflexivity.
Qed.

Lemma number_lines_program l :
  text_seq (number_lines true l) = join [NEWLINE] l.
Proof.
  destruct l as [|d l]; [reflexivity|].
  cbn [number_lines text_seq text_expr app].
  rewrite number_lines_text, join_lines. reflexivity.
Qed.

Lemma number_lines_wf l :
  Forall (fun ds => ds <> [] /\ all NUMBERS ds) l ->
  forall first, wf_seq (number_lines first l).
Proof.
  induction 1 as [|d l [Hne Hd] Hl IH]; intros first; cbn [number_lines].
  - constructor.
  - constructor.
    + destruct first; [constructor | apply forallb_all; reflexivity].
    + constructor; assumption.
    + apply IH.
    + intros _. rewrite number_lines_text. destruct l; reflexivity.
Qed.

Lemma number_lines_exprs first l : exprs (number_lines first l) = map SNumber l.
Proof.
  revert first. induction l as [|d l IH]; intros first; cbn [number_lines exprs map];
    [reflexivity|]. rewrite IH. reflexivity.
Qed.

Lemma number_lines_plain first l : has_string_seq (number_lines first l) = false.
Proof.
  revert first. induction l as [|d l IH]; intros first; cbn; auto.
Qed.

Lemma numbers_only_facts s :
  wf_seq s -> forallb is_number (exprs s) = true ->
  has_string_seq s = false
  /\ map emit_statement (exprs s) = map emit_expr (exprs s)
  /\ Forall (fun ds => ds <> [] /\ all NUMBERS ds) (map emit_expr (exprs s)).
Proof.
  induction s as [|g e rest IH]; intros Hwf Hnum.
  - repeat split. constructor.
  - inversion Hwf as [| ? ? ? Hg He Hrest Hsep]; subst.
    cbn [exprs forallb] in Hnum. apply andb_true_iff in Hnum as [Hn Hns].
    destruct (IH Hrest Hns) as (H1 & H2 & H3).
    destruct e as [ds| |]; try discriminate Hn.
    inversion He; subst.
    cbn [has_string_seq has_string exprs map emit_statement emit_expr orb].
    rewrite H1, H2. repeat split. constructor; auto.
Qed.

(** X14.  On a program made of numbers only the compiler is idempotent: the
    output, the numbers one per line, is again a program of numbers, and
    compiling it returns it unchanged. *)
Theorem numbers_output_is_fixed (p : program) :
  wf_program p -> forallb is_number (exprs (top p)) = true ->
  exists output,
    compile_returns (text p) output /\ compile_returns output output.
Proof.
  intros Hwf Hnum.
  destruct (numbers_only_facts (top p) (proj1 Hwf) Hnum) as (Hs & Hstmt & Hgood).
  set (l := map emit_expr (exprs (top p))) in *.
  exists (join [NEWLINE] l). split.
  - pose proof (compile_plain p Hwf Hs) as H. unfold emit in H.
    rewrite Hstmt in H. exact H.
  - pose proof (compile_plain (mkProgram (number_lines true l) [])) as H.
    unfold text, emit in H. cbn [top trailing] in H.
    rewrite number_lines_program, number_lines_exprs, app_nil_r in H.
    rewrite map_map in H. cbn [emit_statement emit_expr] in H. rewrite map_id in H.
    apply H.
    + split; [apply number_lines_wf; assumption | constructor].
    + apply number_lines_plain.
Qed.

Lemma numbers_output_is_fixed_witness :
  exists output,
    compile_returns (text numbers_sample) output /\ compile_returns output output.
Proof.
  apply (numbers_output_is_fixed numbers_sample).
  - apply wf_programb_sound. reflexivity.
  - reflexivity.
Defined.

(** ** The exceptions of the compiler *)

(** X15.  The exceptions the compiler can end with, on any input in which
    no string is left open and no name touches the end of the input: the
    syntax error of the tokenizer on a character; the TypeError of the
    parser, with the message [name] or [parenthesis]; the TypeError of the
    runtime for a read of [type] or [value] on a token past the end; the
    TypeError of the traversal with the message [stringLiteral].  No other
    exception is thrown on such an input: none comes from the generator, and
    none from the traversal but for a string literal. *)
Theorem compile_exceptions (input : jsstring) (e : error) :
  scan_verdict None input <> OpenString ->
  scan_verdict None input <> OpenName ->
  compile_throws input e ->
  (exists c, e = TypeError (js "Syntax error : " ++ [c]))
  \/ e = TypeError (js "name") \/ e = TypeError (js "parenthesis")
  \/ e = UndefinedRead "type" \/ e = UndefinedRead "value"
  \/ e = TypeError (js "stringLiteral").
Proof.
  intros Hclosed Hname He.
  pose proof (tokenizer_verdict input) as Hv.
  destruct (scan_verdict None input) as [|c| |]; [ | | congruence | congruence ].
  - destruct Hv as [tokens Htok].
    destruct (parser_settles tokens) as [[s Hparse] | (e' & Hthrow & Herr)].
    + destruct (has_string_seq s) eqn:Hs.
      * assert (H : compile_throws input (TypeError (js "stringLiteral"))).
        { apply compile_stages with (tokens := tokens) (ast := Program (ast_seq s)); auto.
          - exists 0. rewrite (transform_string _ Hs). reflexivity.
          - unfold settled. congruence. }
        pose proof (eventually_unique _ _ _ He H) as Heq. injection Heq as ->.
        repeat right. reflexivity.
      * destruct (transform_plain s Hs) as (h & Ht & [fuel Hgen]).
        assert (H : compile_returns input
                      (join [NEWLINE] (map emit_statement (exprs s)))).
        { apply compile_stages with (tokens := tokens) (ast := Program (ast_seq s)); auto.
          - exists fuel. rewrite Ht. cbn [bind]. exact Hgen.
          - unfold settled. congruence. }
        pose proof (eventually_unique _ _ _ He H) as Heq. discriminate Heq.
    + pose proof (compile_parser_throws _ _ _ Htok Hthrow) as H.
      pose proof (eventually_unique _ _ _ He H) as Heq. injection Heq as ->.
      destruct Herr as [-> | [-> | (t & Hin & Hnum & Hstr & ->)]]; auto 6.
      pose proof (tokenizer_tokens_ok input tokens Htok) as Hok.
      rewrite Forall_forall in Hok. specialize (Hok t Hin).
      destruct Hok as [[Ht _] | [[Ht _] | [Ht | [Ht _]]]]; rewrite Ht in *;
        try congruence; auto.
  - pose proof (compile_tokenizer_throws _ _ Hv) as H.
    pose proof (eventually_unique _ _ _ He H) as Heq. injection Heq as ->.
    left. exists c. reflexivity.
Qed.

Lemma compile_exceptions_witness :
  (exists c, UndefinedRead "value" = TypeError (js "Syntax error : " ++ [c]))
  \/ UndefinedRead "value" = TypeError (js "name")
  \/ UndefinedRead "value" = TypeError (js "parenthesis")
  \/ UndefinedRead "value" = UndefinedRead "type"
  \/ UndefinedRead "value" = UndefinedRead "value"
  \/ UndefinedRead "value" = TypeError (js "stringLiteral").
Proof.
  apply (compile_exceptions (js "(") (UndefinedRead "value")).
  - discriminate.
  - discriminate.
  - apply compile_throws_at with (n := 5). vm_compute. reflexivity.
Defined.

(** * Nested calls *)

(** Whenever the transformer returns, the new tree has the shape of the
    program: a call that is a statement wrapped in an [ExpressionStatement],
    a call that is an argument bare in the [arguments] array of its call. *)
Lemma transform_returns_shape s h newAST :
  transform (Program (ast_seq s)) = Returns (h, newAST) ->
  newAST = TProgram 0 /\ repr_seq h true s (cells h 0).
Proof.
  intros Hret.
  destruct (has_string_seq s) eqn:Hs.
  { rewrite (transform_string _ Hs) in Hret. discriminate Hret. }
  destruct (proj2 traversal_shape s Hs (snd (alloc empty_heap)) "Program"%string 0)
    as (h' & nodes & Ht & Hn & Hc & _ & Hshape); [cbn; lia|].
  unfold transform in Hret.
  change (alloc empty_heap) with (0, snd (alloc empty_heap)) in Hret.
  cbv beta iota in Hret.
  rewrite nodeTraversal_Program, Ht in Hret. cbn [bind] in Hret.
  injection Hret as <- <-. split; [reflexivity|].
  rewrite Hc. cbn [app]. apply (Hshape h'). intros x Hx. reflexivity.
Qed.

(** C6.  A call nested as an argument of a call is rendered inline, and only
    a call that is a statement gets the [ExpressionStatement] wrapper and
    the [;].  Whenever the transformer returns on the tree of a program, the
    new tree has a call wrapped in an [ExpressionStatement] where it is a
    statement and bare where it is an argument, at any depth.  Whenever a
    well-formed program compiles, the output is its statements joined by
    newlines, each call statement the text of the call followed by one [;],
    where the text of the call, nested calls included, holds no [;] at all;
    and a well-formed program without strings does compile.  In particular
    [(add 2 (subtract 4 2))] compiles to [add(2, subtract(4, 2));]. *)
Theorem nested_call_inline :
  compile_returns (js "(add 2 (subtract 4 2))") (js "add(2, subtract(4, 2));")
  /\ (forall s h newAST,
        transform (Program (ast_seq s)) = Returns (h, newAST) ->
        newAST = TProgram 0 /\ repr_seq h true s (cells h 0))
  /\ (forall p,
        wf_program p ->
        (has_string_seq (top p) = false ->
         compile_returns (text p)
           (join [NEWLINE] (map emit_statement (exprs (top p)))))
        /\ (forall output,
              compile_returns (text p) output ->
              output = join [NEWLINE] (map emit_statement (exprs (top p)))
              /\ Forall (fun e => ~ In SEMICOLON (emit_expr e)) (exprs (top p)))).
Proof.
  split; [ | split ].
  - apply compile_returns_at with (n := 40). vm_compute. reflexivity.
  - intros s h newAST. apply transform_returns_shape.
  - intros p Hwf. split; [apply compile_plain; assumption|].
    intros output Hout.
    destruct (compile_returns_plain p output Hwf Hout) as [Hs ->].
    split; [reflexivity|].
    pose proof (exprs_wf _ (proj1 Hwf) Hs) as Hall.
    eapply Forall_impl; [ | exact Hall ].
    intros e [He Hse]. apply emit_no_semicolon; assumption.
Qed.

Lemma nested_call_inline_witness :
  js "add(2, subtract(4, 2));"
  = join [NEWLINE] (map emit_statement (exprs (top nested_sample)))
  /\ Forall (fun e => ~ In SEMICOLON (emit_expr e)) (exprs (top nested_sample)).
Proof.
  apply (proj2 (proj2 (proj2 nested_call_inline) nested_sample
                  ltac:(apply wf_programb_sound; reflexivity))).
  apply compile_returns_at with (n := 40). vm_compute. reflexivity.
Defined.
